(** * Vortex InstallManager: a shallow embedding and its verified properties

    The subject is [src/extensions/mod_management/InstallManager.ts].
    Promises are modelled by their outcome (resolved, rejected, or never
    settled); every call that leaves the class (filesystem, dialogs, store,
    installers, event bus, install context) is recorded in a chronological
    trace and answered by an environment that may inspect the history. *)

From Stdlib Require Import ZArith String Ascii List Bool Lia DecimalString Sorting.Sorted
  Sorting.Permutation.
From stdpp Require Import base strings list gmap.

Import ListNotations.
Local Open Scope string_scope.
Local Open Scope list_scope.

(** ** JavaScript strings *)

Module Js.

(** [s.indexOf(needle) !== -1] *)
Fixpoint includes (needle s : string) : bool :=
  String.prefix needle s ||
  match s with
  | EmptyString => false
  | String _ rest => includes needle rest
  end.

(** [s.startsWith(p)] *)
Definition startsWith (p s : string) : bool := String.prefix p s.

(** [s.charAt(0)]: the empty string when [s] is empty. *)
Definition charAt0 (s : string) : string :=
  match s with
  | EmptyString => EmptyString
  | String c _ => String c EmptyString
  end.

(** [s.substr(1)] *)
Definition substr1 (s : string) : string :=
  match s with
  | EmptyString => EmptyString
  | String _ rest => rest
  end.

(** [s.replace(new RegExp('/', 'g'), sep)] *)
Fixpoint replaceSlashes (sep s : string) : string :=
  match s with
  | EmptyString => EmptyString
  | String c rest =>
      if Ascii.eqb c "/"%char then sep ++ replaceSlashes sep rest
      else String c (replaceSlashes sep rest)
  end.

Definition lowerChar (c : ascii) : ascii :=
  let n := nat_of_ascii c in
  if (65 <=? n)%nat && (n <=? 90)%nat then ascii_of_nat (n + 32) else c.

(** [s.toLowerCase()] on the ASCII range. *)
Fixpoint toLowerCase (s : string) : string :=
  match s with
  | EmptyString => EmptyString
  | String c rest => String (lowerChar c) (toLowerCase rest)
  end.

(** [xs.join(sep)] *)
Definition join (sep : string) (xs : list string) : string :=
  String.concat sep xs.

(** [truthy] of a string: the empty string is falsy. *)
Definition truthyStr (s : string) : bool :=
  match s with EmptyString => false | _ => true end.

(** [isNaN(parseInt(c, 16))] for the value of [s[0]]: with radix 16 a
    single UTF-16 unit parses exactly when it is a hexadecimal digit;
    [s[0]] of the empty string is [undefined], which does not parse. *)
Definition isHexDigit (c : ascii) : bool :=
  let n := nat_of_ascii c in
  ((48 <=? n)%nat && (n <=? 57)%nat)
  || ((65 <=? n)%nat && (n <=? 70)%nat)
  || ((97 <=? n)%nat && (n <=? 102)%nat).

Definition firstCharParsesHex (s : string) : bool :=
  match s with
  | EmptyString => false
  | String c _ => isHexDigit c
  end.

(** Values of fields typed [any] that the code compares with [===]. *)
Inductive Value :=
| VUndefined
| VNull
| VBool (b : bool)
| VNum (n : Z)
| VStr (s : string).

(** Strict equality [===] on those values. *)
Definition strictEq (a b : Value) : bool :=
  match a, b with
  | VUndefined, VUndefined => true
  | VNull, VNull => true
  | VBool x, VBool y => Bool.eqb x y
  | VNum x, VNum y => Z.eqb x y
  | VStr x, VStr y => String.eqb x y
  | _, _ => false
  end.

(** An object used as a dictionary, as the list of its own properties in
    the order [Object.keys] enumerates them. *)
Definition Obj (V : Type) := list (string * V).

Fixpoint get {V} (o : Obj V) (k : string) : option V :=
  match o with
  | [] => None
  | (k', v) :: rest => if String.eqb k' k then Some v else get rest k
  end.

(** [k in o] *)
Definition has {V} (o : Obj V) (k : string) : bool :=
  match get o k with Some _ => true | None => false end.

Definition keys {V} (o : Obj V) : list string := map fst o.

End Js.

(** ** Errors and promise outcomes *)

Inductive ErrorClass :=
| PlainError
| TypeError
| UserCanceled
| ProcessCanceled
| TemporaryError
| NotFound
| SetupError
| DataInvalid
| ArchiveBrokenError.

Definition ErrorClass_eqb (a b : ErrorClass) : bool :=
  match a, b with
  | PlainError, PlainError | TypeError, TypeError
  | UserCanceled, UserCanceled | ProcessCanceled, ProcessCanceled
  | TemporaryError, TemporaryError | NotFound, NotFound
  | SetupError, SetupError | DataInvalid, DataInvalid
  | ArchiveBrokenError, ArchiveBrokenError => true
  | _, _ => false
  end.

(** An [Error] object: its class, [message], node's [code], [stack] and
    the [extraInfo.alreadyReported] flag of [ProcessCanceled]. *)
Record JsError := mkJsError {
  err_class : ErrorClass;
  err_message : string;
  err_code : option string;
  err_stack : option string;
  err_alreadyReported : bool
}.

(** What a promise can be rejected with: the code tests for [undefined],
    [null] and strings besides [Error] objects. *)
Inductive Rejection :=
| RejUndefined
| RejNull
| RejString (s : string)
| RejError (e : JsError).

Definition newError (cls : ErrorClass) (msg : string) : Rejection :=
  RejError (mkJsError cls msg None None false).

(** [new ArchiveBrokenError(message)] *)
Definition newArchiveBrokenError (message : string) : Rejection :=
  newError ArchiveBrokenError ("Archive is broken: " ++ message).

(** [new ProcessCanceled(msg, { alreadyReported: true })] *)
Definition newProcessCanceledReported (msg : string) : Rejection :=
  RejError (mkJsError ProcessCanceled msg None None true).

(** A property read on [undefined] or [null], or a call of a non-function. *)
Definition typeError (what : string) : Rejection := newError TypeError what.

(** [err instanceof C] *)
Definition instanceOf (r : Rejection) (cls : ErrorClass) : bool :=
  match r with
  | RejError e => ErrorClass_eqb (err_class e) cls
  | _ => false
  end.

(** [err.code === c] for a rejection that is an object or a string. *)
Definition codeIs (r : Rejection) (c : string) : bool :=
  match r with
  | RejError e =>
      match err_code e with Some c' => String.eqb c' c | None => false end
  | _ => false
  end.

Inductive Outcome (A : Type) :=
| Resolved (a : A)
| Rejected (r : Rejection)
| Pending.
Arguments Resolved {A} a.
Arguments Rejected {A} r.
Arguments Pending {A}.

(** ** Data model *)

Inductive InstructionType :=
| ty_copy | ty_mkdir | ty_submodule | ty_generatefile | ty_iniedit
| ty_unsupported | ty_attribute | ty_setmodtype | ty_error | ty_rule
| ty_other (name : string).

Definition typeName (t : InstructionType) : string :=
  match t with
  | ty_copy => "copy" | ty_mkdir => "mkdir" | ty_submodule => "submodule"
  | ty_generatefile => "generatefile" | ty_iniedit => "iniedit"
  | ty_unsupported => "unsupported" | ty_attribute => "attribute"
  | ty_setmodtype => "setmodtype" | ty_error => "error" | ty_rule => "rule"
  | ty_other name => name
  end.

(** [IModReference]; every field is optional. *)
Record IModReference := mkRef {
  ref_id : option string;
  ref_fileMD5 : option string;
  ref_versionMatch : option string;
  ref_logicalFileName : option string;
  ref_fileExpression : option string
}.

(** [IModRule]: [extra] stands for every field besides [type] and
    [reference], kept as an opaque blob. *)
Record IModRule := mkRule {
  rule_type : string;
  rule_reference : IModReference;
  rule_extra : string
}.

(** [IInstruction]; an absent field is [None]. *)
Record IInstruction := mkInstr {
  type : InstructionType;
  path : option string;
  source : option string;
  destination : option string;
  section : option string;
  key : option string;
  value : Js.Value;
  submoduleType : option string;
  data : option string;
  rule : option IModRule
}.

(** [result.instructions]: [null], [undefined] or an array. *)
Inductive Instructions :=
| InstrNull
| InstrUndefined
| InstrList (l : list IInstruction).

Inductive FsOp :=
| EnsureDir (p : string)
| Copy (src dst : string)
| Rename (src dst : string)
| WriteFile (p : string) (content : option string)
| Remove (p : string)
| Stat (p : string)
| Walk (p : string)
| NormalizeFunc (p : string).

(** Redux actions dispatched by the class. *)
Inductive Action :=
| setModAttribute (gameId modId : string) (k : option string) (v : Js.Value)
| setModType (gameId modId : string) (t : Js.Value)
| addModRule (gameId modId : string) (r : option IModRule)
| removeModRule (gameId modId : string) (r : option IModRule)
| setFileOverride (gameId modId : string) (files : list string)
| setModEnabled (profileId modId : string) (enabled : bool).

(** Calls on the [InstallContext] of a pipeline. *)
Inductive CtxCall :=
| startIndicator (name : string)
| stopIndicator (modId : string)
| startInstallCB (modId gameId : string) (archiveId : option string)
| setInstallPathCB (modId dest : string)
| setProgress
| ctxSetModType (modId ty : string)
| reportError (title : string) (allowReport : option bool)
| finishInstallCB (status : string).

(** Everything the class does to the outside, in the order it does it. *)
Inductive Event :=
| EvFs (op : FsOp) (ok : bool)
| EvDispatch (a : Action)
| EvCtx (c : CtxCall)
| EvShowErrorNotification (title message : string) (allowReport : option bool)
| EvSendNotification (ty message : string)
| EvDismissNotification (id : string)
| EvShowDialog (ty title : string) (labels : list string)
| EvEmit (name : string) (args : list string)
| EvEmitAndAwait (name : string) (args : list (option string))
| EvRemoveMod (gameId modId : string)
| EvStartDownload (sourceURI : option string)
| EvResumeDownload (id : string)
| EvGatherDependencies (recommended : bool)
| EvFilterModInfo (installPath : option string)
| EvExtractFull (archive dest : string)
| EvTestSupported (priority : Z)
| EvMakeListInstaller
| EvInstall (priority : Z) (files : list string) (tempPath : string)
| EvModTypeTest (typeId : string)
| EvGenHash (p : string)
| EvLookupModMeta (p : string)
| EvQueryGameId
| EvCallback (error : Rejection) (id : option string).

Definition Trace := list Event.

(** ** Promise chains

    A computation reads the history so far and yields its outcome together
    with the events it added. *)

Definition M (A : Type) := Trace -> Outcome A * list Event.

Definition ret {A} (a : A) : M A := fun _ => (Resolved a, []).
Definition reject {A} (r : Rejection) : M A := fun _ => (Rejected r, []).
Definition pending {A} : M A := fun _ => (Pending, []).
Definition emit (e : Event) : M unit := fun _ => (Resolved tt, [e]).

(** [p.then(f)] *)
Definition then_ {A B} (p : M A) (f : A -> M B) : M B :=
  fun h =>
    match p h with
    | (Resolved a, e1) => let '(o, e2) := f a (h ++ e1) in (o, e1 ++ e2)
    | (Rejected r, e1) => (Rejected r, e1)
    | (Pending, e1) => (Pending, e1)
    end.

(** [p.catch(handler)] *)
Definition catch_ {A} (p : M A) (handler : Rejection -> M A) : M A :=
  fun h =>
    match p h with
    | (Rejected r, e1) => let '(o, e2) := handler r (h ++ e1) in (o, e1 ++ e2)
    | other => other
    end.

(** [p.catch(Class, handler)] *)
Definition catchClass {A} (cls : ErrorClass) (p : M A)
    (handler : Rejection -> M A) : M A :=
  catch_ p (fun r => if instanceOf r cls then handler r else reject r).

(** [p.finally(handler)]: the handler runs once [p] is settled; its own
    rejection replaces the outcome of [p]. *)
Definition finally_ {A} (p : M A) (handler : M unit) : M A :=
  fun h =>
    match p h with
    | (Pending, e1) => (Pending, e1)
    | (o, e1) =>
        match handler (h ++ e1) with
        | (Resolved _, e2) => (o, e1 ++ e2)
        | (Rejected r, e2) => (Rejected r, e1 ++ e2)
        | (Pending, e2) => (Pending, e1 ++ e2)
        end
    end.

(** [p.tap(f)] *)
Definition tap {A B} (p : M A) (f : A -> M B) : M A :=
  then_ p (fun a => then_ (f a) (fun _ => ret a)).

Declare Scope promise_scope.
Delimit Scope promise_scope with promise.
Notation "x <- p ;; q" := (then_ p (fun x => q))
  (at level 100, p at next level, right associativity) : promise_scope.
Notation "p ;; q" := (then_ p (fun _ => q))
  (at level 100, right associativity) : promise_scope.
Local Open Scope promise_scope.

(** A call answered by the environment from the history. *)
Definition ask {A} (e : Event) (oracle : Trace -> Outcome A) : M A :=
  fun h => (oracle h, [e]).

(** [Promise.each] / [Promise.mapSeries]: one element after the other,
    stopping at the first that does not resolve. *)
Fixpoint mapSeries {A B} (f : A -> M B) (l : list A) : M (list B) :=
  match l with
  | [] => ret []
  | x :: rest =>
      y <- f x ;;
      ys <- mapSeries f rest ;;
      ret (y :: ys)
  end.

Definition each {A B} (f : A -> M B) (l : list A) : M unit :=
  mapSeries f l ;; ret tt.

(** [Promise.map] without a concurrency limit: every mapper is started
    before any settles, so each adds its events; the result is rejected with
    the rejection of the first element (in list order) that is rejected. *)
Fixpoint mapAll {A B} (f : A -> M B) (l : list A) : M (list B) :=
  match l with
  | [] => ret []
  | x :: rest =>
      fun h =>
        let '(o1, e1) := f x h in
        let '(o2, e2) := mapAll f rest (h ++ e1) in
        (match o1, o2 with
         | Rejected r, _ => Rejected r
         | _, Rejected r => Rejected r
         | Pending, _ => Pending
         | _, Pending => Pending
         | Resolved y, Resolved ys => Resolved (y :: ys)
         end, e1 ++ e2)
  end.

(** ** More JavaScript: sorting, grouping, key order *)

Module JsArray.

(** [Array.prototype.sort(cmp)] is stable (ECMAScript 2019; V8 from 7.0).
    The result of a stable sort is determined by the comparator, so an
    insertion sort stands for it: an element goes before the first one it
    does not exceed. *)
Fixpoint insertBy {A} (cmp : A -> A -> Z) (x : A) (l : list A) : list A :=
  match l with
  | [] => [x]
  | y :: rest =>
      if (cmp x y <=? 0)%Z then x :: y :: rest else y :: insertBy cmp x rest
  end.

Definition sort {A} (cmp : A -> A -> Z) (l : list A) : list A :=
  fold_right (insertBy cmp) [] l.

(** [setdefault(prev, k, []).push(v)] on an object that only holds such
    arrays: properties are kept in creation order. *)
Fixpoint pushTo {B} (o : Js.Obj (list B)) (k : string) (v : B)
    : Js.Obj (list B) :=
  match o with
  | [] => [(k, [v])]
  | (k', vs) :: rest =>
      if String.eqb k' k then (k', vs ++ [v]) :: rest
      else (k', vs) :: pushTo rest k v
  end.

(** [l.reduce((prev, x) => { setdefault(prev, keyOf(x), []).push(valOf(x));
    return prev; }, {})], properties in creation order. *)
Definition groupBy {A B} (keyOf : A -> string) (valOf : A -> B) (l : list A)
    : Js.Obj (list B) :=
  fold_left (fun o x => pushTo o (keyOf x) (valOf x)) l [].

Definition isDigit (c : ascii) : bool :=
  let n := nat_of_ascii c in (48 <=? n)%nat && (n <=? 57)%nat.

Fixpoint digitsValue (acc : N) (s : string) : option N :=
  match s with
  | EmptyString => Some acc
  | String c rest =>
      if isDigit c
      then digitsValue (acc * 10 + N.of_nat (nat_of_ascii c - 48))%N rest
      else None
  end.

(** A property key is an array index when it is the canonical decimal
    form of an integer below 2^32 - 1. *)
Definition arrayIndex (k : string) : option N :=
  match k with
  | EmptyString => None
  | String c rest =>
      if Ascii.eqb c "0"%char && negb (String.eqb rest EmptyString) then None
      else
        match digitsValue 0%N k with
        | Some n => if (n <? 4294967295)%N then Some n else None
        | None => None
        end
  end.

Definition isIndexed {V} (kv : string * V) : bool :=
  match arrayIndex (fst kv) with Some _ => true | None => false end.

Definition cmpIndex {V} (a b : string * V) : Z :=
  match arrayIndex (fst a), arrayIndex (fst b) with
  | Some x, Some y => Z.of_N x - Z.of_N y
  | _, _ => 0
  end.

(** Own properties in the order of [Object.keys]: array indices ascending,
    then the other keys in creation order. *)
Definition enumerate {V} (created : Js.Obj V) : Js.Obj V :=
  sort cmpIndex (List.filter isIndexed created)
  ++ List.filter (fun kv => negb (isIndexed kv)) created.

(** Elements paired with their index, as the callbacks of [map] and
    [mapSeries] receive them. *)
Fixpoint indexedFrom {A} (i : nat) (l : list A) : list (nat * A) :=
  match l with
  | [] => []
  | x :: rest => (i, x) :: indexedFrom (S i) rest
  end.

Definition indexed {A} (l : list A) : list (nat * A) := indexedFrom 0 l.

End JsArray.

(** A property key made from a possibly absent string: [undefined] is
    coerced to the string it prints as. *)
Definition keyOfOpt (o : option string) : string :=
  match o with Some s => s | None => "undefined" end.

(** [String(v)] as a template literal renders it. *)
Definition renderValue (v : Js.Value) : string :=
  match v with
  | Js.VUndefined => "undefined"
  | Js.VNull => "null"
  | Js.VBool true => "true"
  | Js.VBool false => "false"
  | Js.VNum n => DecimalString.NilZero.string_of_int (Z.to_int n)
  | Js.VStr s => s
  end.

(** ** The store and the values exchanged with the outside *)

Record IMod := mkMod {
  mod_id : string;
  mod_type : option string;
  mod_attributes : option (Js.Obj Js.Value);
  mod_rules : option (list IModRule);
  mod_fileOverrides : list string
}.

Record IDownload := mkDownload {
  dl_state : string;
  dl_game : list string;
  dl_localPath : string
}.

Record IProfile := mkProfile {
  profile_id : string;
  profile_gameId : string;
  profile_modState : gmap string bool
}.

(** The part of [IState] the class reads. *)
Record IState := mkState {
  persistent_mods : Js.Obj (Js.Obj IMod);
  persistent_downloads_files : gmap string IDownload;
  active_profile : option IProfile
}.

Record IDialogResult := mkDialogResult {
  action : string;
  input_variant : option string
}.

Record ISupportedResult := mkSupported {
  supported : bool;
  requiredFiles : list string
}.

Record IInstallResult := mkInstallResult { instructions : Instructions }.

(** [IModInstaller]: the two callbacks are answered from the history. *)
Record IModInstaller := mkInstaller {
  priority : Z;
  testSupported : Trace -> list string -> string -> Outcome ISupportedResult;
  install : Trace -> list string -> string -> string -> option Js.Value ->
            option bool -> Outcome IInstallResult
}.

Record ISupportedInstaller := mkSupportedInstaller {
  installer : IModInstaller;
  si_requiredFiles : list string
}.

Record IModType := mkModType {
  typeId : string;
  mt_priority : Z;
  test : Trace -> Instructions -> Outcome bool
}.

Record IGame := mkGame {
  contributed : option string;
  modTypes : list IModType
}.

Record IHashResult := mkHash { md5sum : string; numBytes : Z }.

(** [IModInfoEx], the value of a lookup result. *)
Record IModInfoEx := mkModInfoEx {
  sourceURI : option string;
  li_source : option string;
  li_gameId : option string;
  li_domainName : option string;
  li_logicalFileName : option string;
  li_fileName : option string;
  details_modId : option string;
  details_fileId : option string
}.

(** [IDependency]: [download] is [undefined], [null] or a download id. *)
Inductive DownloadRef :=
| DlUndefined
| DlNull
| DlId (id : string).

Record IExtra := mkExtra {
  extra_type : option string;
  extra_name : option string
}.

Record IDependency := mkDependency {
  dep_download : DownloadRef;
  dep_reference : IModReference;
  dep_lookupResults : list IModInfoEx;
  dep_fileList : option (list string);
  dep_installerChoices : option Js.Value;
  dep_mod : option IMod;
  dep_extra : option IExtra
}.

(** [Dependency = IDependency | IDependencyError] *)
Inductive Dependency :=
| DepOk (d : IDependency)
| DepError (error : string).

(** The mod info of an install: the keys the pipeline reads or writes; the
    remaining keys travel in [fi_rest]. *)
Record FullInfo := mkFullInfo {
  fi_download_game : option (list string);
  fi_fileMD5 : option string;
  fi_size : option Z;
  fi_meta : option IModInfoEx;
  fi_choices : option Js.Value;
  fi_variant : option string;
  fi_previous : option (Js.Obj Js.Value);
  fi_rest : string
}.

(** What [filterModInfo] returns, as far as the pipeline looks at it. *)
Record ModInfo := mkModInfo {
  mi_fileId : Js.Value;
  mi_rest : string
}.

(** ** The environment

    Pure helpers of node and of Vortex' utilities come first; the other
    fields answer a call from the history of the run. *)
Record Env := mkEnv {
  path_sep : string;
  platform_win32 : bool;
  os_EOL : string;
  path_join : string -> string -> string;
  path_dirname : string -> string;
  path_basename : string -> string;
  path_basename_ext : string -> string -> string;
  path_extname : string -> string;
  path_relative : string -> string -> string;
  isPathValid : string -> bool -> bool;
  translate : string -> list (string * string) -> string;
  semver_validRange : string -> option string;
  isFuzzyVersion : option string -> bool;
  referenceEqual : IModReference -> IModReference -> bool;
  renderModReference : IModReference -> string;
  deriveModInstallName : string -> FullInfo -> string;
  prettifyNodeErrorMessage : Rejection -> string;
  mGetInstallPath : string -> string;
  downloadPathForGame : IState -> option string -> string;
  getDownloadGames : IDownload -> list string;
  modName : option IMod -> string;
  (* answered from the history *)
  getState : Trace -> IState;
  getGame : Trace -> string -> option IGame;
  fs : Trace -> FsOp -> Outcome unit;
  fs_stat : Trace -> string -> Outcome bool;
  walk : Trace -> string -> Outcome (list (string * bool));
  extractFull : Trace -> string -> string -> Outcome (Z * list string);
  showDialog : Trace -> string -> Outcome IDialogResult;
  makeListInstaller :
    Trace -> list string -> string -> Outcome (option ISupportedInstaller);
  genHash : Trace -> string -> Outcome IHashResult;
  lookupModMeta : Trace -> string -> Outcome (list IModInfoEx);
  queryGameId : Trace -> list string -> string -> Outcome (option string);
  filterModInfo : Trace -> FullInfo -> option string -> Outcome ModInfo;
  emitAndAwait :
    Trace -> string -> list (option string) -> Outcome (option (list string));
  gatherDependencies :
    Trace -> list IModRule -> bool -> Outcome (list Dependency);
  (* events whose listener answers through a callback: [None] when
     [emit] returns false because nobody listens *)
  removeMod : Trace -> string -> string -> Outcome unit;
  startDownload : Trace -> option string -> option (Outcome (option string));
  resumeDownload : Trace -> string -> Outcome unit
}.

Definition dquote : string := String (ascii_of_nat 34) EmptyString.
Definition nl : string := String (ascii_of_nat 10) EmptyString.

(** [new UserCanceled()] *)
Definition newUserCanceled : Rejection := newError UserCanceled "canceled by user".

Definition isResolved {A} (o : Outcome A) : bool :=
  match o with Resolved _ => true | _ => false end.

(** A [Promise.mapSeries] whose callbacks push onto an array captured from
    the enclosing scope: the array is threaded through the calls. *)
Fixpoint foldSeries {A S} (f : S -> A -> M S) (l : list A) (s : S) : M S :=
  match l with
  | [] => ret s
  | x :: rest => s' <- f s x ;; foldSeries f rest s'
  end.

Record IInvalidInstruction := mkInvalid {
  inv_type : InstructionType;
  inv_error : string
}.

(** [class InstructionGroups] *)
Record InstructionGroups := mkGroups {
  grp_copy : list IInstruction;
  grp_mkdir : list IInstruction;
  grp_submodule : list IInstruction;
  grp_generatefile : list IInstruction;
  grp_iniedit : list IInstruction;
  grp_unsupported : list IInstruction;
  grp_attribute : list IInstruction;
  grp_setmodtype : list IInstruction;
  grp_error : list IInstruction;
  grp_rule : list IInstruction
}.

Definition newInstructionGroups : InstructionGroups :=
  mkGroups [] [] [] [] [] [] [] [] [] [].

(** [prev[value.type].push(value)] when [prev[value.type] !== undefined];
    an instruction object is always truthy. *)
Definition pushGroup (prev : InstructionGroups) (v : IInstruction)
    : InstructionGroups :=
  let '(mkGroups c m s g i u a t e r) := prev in
  match type v with
  | ty_copy => mkGroups (c ++ [v]) m s g i u a t e r
  | ty_mkdir => mkGroups c (m ++ [v]) s g i u a t e r
  | ty_submodule => mkGroups c m (s ++ [v]) g i u a t e r
  | ty_generatefile => mkGroups c m s (g ++ [v]) i u a t e r
  | ty_iniedit => mkGroups c m s g (i ++ [v]) u a t e r
  | ty_unsupported => mkGroups c m s g i (u ++ [v]) a t e r
  | ty_attribute => mkGroups c m s g i u (a ++ [v]) t e r
  | ty_setmodtype => mkGroups c m s g i u a (t ++ [v]) e r
  | ty_error => mkGroups c m s g i u a t (e ++ [v]) r
  | ty_rule => mkGroups c m s g i u a t e (r ++ [v])
  | ty_other _ => prev
  end.

Module InstallManager.

Definition INI_TWEAKS_PATH : string := "Ini Tweaks".

Definition archiveExtLookup : list string :=
  [".zip"; ".z01"; ".7z"; ".rar"; ".r00"; ".001"; ".bz2"; ".bzip2"; ".gz";
   ".gzip"; ".xz"; ".z"; ".lzh"].

(** [addInstaller]: push, then sort by [lhs.priority - rhs.priority]. *)
Definition addInstaller (mInstallers : list IModInstaller) (p : Z)
    (t : Trace -> list string -> string -> Outcome ISupportedResult)
    (i : Trace -> list string -> string -> string -> option Js.Value ->
         option bool -> Outcome IInstallResult)
    : list IModInstaller :=
  JsArray.sort (fun lhs rhs => (priority lhs - priority rhs)%Z)
    (mInstallers ++ [mkInstaller p t i]).

Definition isCritical (error : string) : bool :=
  Js.includes "Unexpected end of archive" error
  || Js.includes "ERROR: Data Error" error
  || Js.includes "Can not open the file as archive" error.

Definition transformInstructions (input : list IInstruction)
    : InstructionGroups :=
  fold_left pushGroup input newInstructionGroups.

Section WithEnv.

Context (env : Env).

Definition askFs (op : FsOp) : M unit :=
  fun h => let o := fs env h op in (o, [EvFs op (isResolved o)]).

Definition askStat (p : string) : M bool :=
  fun h => let o := fs_stat env h p in (o, [EvFs (Stat p) (isResolved o)]).

Definition askWalk (p : string) : M (list (string * bool)) :=
  fun h => let o := walk env h p in (o, [EvFs (Walk p) (isResolved o)]).

Definition dispatch (a : Action) : M unit := emit (EvDispatch a).

(** A [new Promise] settled only from the [then] of a dialog: when the
    dialog is never answered, or its own promise is rejected, nothing
    settles the new promise. *)
Definition dialogPromise {A} (ty title : string) (labels : list string)
    (k : IDialogResult -> M A) : M A :=
  fun h =>
    let ev := EvShowDialog ty title labels in
    match showDialog env h title with
    | Resolved r => let '(o, e) := k r (h ++ [ev]) in (o, ev :: e)
    | _ => (Pending, [ev])
    end.

(** [getInstaller(fileList, gameId, offset)], by recursion on what is left
    of [mInstallers] from [offset] on. *)
Fixpoint getInstallerFrom (rest : list IModInstaller) (fileList : list string)
    (gameId : string) : M (option ISupportedInstaller) :=
  match rest with
  | [] => ret None
  | inst :: rest' =>
      testResult <- ask (EvTestSupported (priority inst))
                        (fun h => testSupported inst h fileList gameId) ;;
      if supported testResult
      then ret (Some (mkSupportedInstaller inst (requiredFiles testResult)))
      else getInstallerFrom rest' fileList gameId
  end.

Definition getInstaller (mInstallers : list IModInstaller)
    (fileList : list string) (gameId : string) (offsetIn : option nat)
    : M (option ISupportedInstaller) :=
  let offset := match offsetIn with Some n => n | None => 0 end in
  getInstallerFrom (skipn offset mInstallers) fileList gameId.

Definition queryContinue (errors : list string) : M unit :=
  let terminal :=
    find (fun err => Js.includes "Can not open the file as archive" err) errors in
  let canContinue :=
    match terminal with Some t => negb (Js.truthyStr t) | None => true end in
  dialogPromise "error" (translate env "Archive damaged" [])
    ("Cancel" :: (if canContinue then ["Continue"] else []))
    (fun result =>
       if String.eqb (action result) "Cancel" then reject newUserCanceled
       else if String.eqb (action result) "Continue" && canContinue then ret tt
       else pending).

(** The head of the chain of [installInner]: extraction, with the offer
    to wrap a file that is no archive. [hasContext] tells whether an install
    context was passed. *)
Definition extractStage (archivePath tempPath : string) (hasContext : bool)
    : M unit :=
  let extracted : M unit :=
    then_
      (catch_
         (ask (EvExtractFull archivePath tempPath)
              (fun h => extractFull env h archivePath tempPath))
         (fun err =>
            match err with
            | RejError e =>
                if isCritical (err_message e)
                then reject (newArchiveBrokenError (err_message e))
                else reject err
            | RejString _ => reject (typeError "error.indexOf")
            | _ => reject (typeError "err.message")
            end))
      (fun '(code, errors) =>
         (if hasContext then emit (EvCtx setProgress) else ret tt) ;;
         if negb (code =? 0)%Z
         then match find isCritical errors with
              | Some critical => reject (newArchiveBrokenError critical)
              | None => queryContinue errors
              end
         else ret tt) in
  catchClass ArchiveBrokenError extracted
    (fun err =>
       if existsb (String.eqb (Js.toLowerCase (path_extname env archivePath)))
                  archiveExtLookup
       then reject err
       else
         result <- ask (EvShowDialog "question" "Not an archive"
                                     ["Cancel"; "Create Mod"])
                       (fun h => showDialog env h "Not an archive") ;;
         if String.eqb (action result) "Cancel" then reject newUserCanceled
         else
           askFs (EnsureDir tempPath) ;;
           askFs (Copy archivePath
                    (path_join env tempPath (path_basename env archivePath)))).

(** The walk over [tempPath] that builds [fileList]: directories get a
    trailing separator. *)
Definition enumerateFiles (tempPath : string) : M (list string) :=
  entries <- askWalk tempPath ;;
  ret (map (fun '(iterPath, isFile) =>
              if isFile : bool then path_relative env tempPath iterPath
              else path_relative env tempPath iterPath +:+ path_sep env)
           entries).

(** The end of the chain of [installInner]: select the installer and run
    it. *)
Definition selectAndRun (mInstallers : list IModInstaller)
    (tempPath gameId : string) (installChoices : option Js.Value)
    (extractList : option (list string)) (unattended : option bool)
    (fileList : list string) : M IInstallResult :=
  supportedInstaller <-
    match extractList with
    | Some l =>
        ask EvMakeListInstaller (fun h => makeListInstaller env h l tempPath)
    | None => getInstaller mInstallers fileList gameId None
    end ;;
  match supportedInstaller with
  | None => reject (newError PlainError "no installer supporting this file")
  | Some si =>
      ask (EvInstall (priority (installer si)) fileList tempPath)
          (fun h => install (installer si) h fileList tempPath gameId
                            installChoices unattended)
  end.

(** [installInner]: extract, enumerate, select the installer, run it. *)
Definition installInner (mInstallers : list IModInstaller)
    (archivePath tempPath destinationPath gameId : string) (hasContext : bool)
    (installChoices : option Js.Value) (extractList : option (list string))
    (unattended : option bool) : M IInstallResult :=
  fileList <- (extractStage archivePath tempPath hasContext ;;
               enumerateFiles tempPath) ;;
  selectAndRun mInstallers tempPath gameId installChoices extractList
               unattended fileList.

(** [determineModType]: the game's mod types sorted by descending priority,
    tested one after the other until one matches. *)
Definition determineModType (gameId : string) (installInstructions : Instructions)
    : M string :=
  fun h =>
    match getGame env h gameId with
    | None =>
        (Rejected (newError PlainError
                     ("Invalid game " ++ dquote ++ gameId ++ dquote)), [])
    | Some game =>
        let sorted :=
          JsArray.sort (fun lhs rhs => (mt_priority rhs - mt_priority lhs)%Z)
                       (modTypes game) in
        (matches <-
           foldSeries
             (fun (acc : bool * list (option string)) ty =>
                let '(found, out) := acc in
                if found then ret (found, out ++ [None])
                else
                  m <- ask (EvModTypeTest (typeId ty))
                           (fun h' => test ty h' installInstructions) ;;
                  if m : bool then ret (true, out ++ [Some (typeId ty)])
                  else ret (false, out ++ [None]))
             sorted (false, []) ;;
         ret (match find (fun m => match m with Some _ => true | None => false end)
                         (snd matches) with
              | Some (Some t) => t
              | _ => EmptyString
              end)) h
    end.

Definition sanitizeDestination (d : string) : string :=
  let destination :=
    if String.eqb (Js.charAt0 d) (path_sep env) then Js.substr1 d else d in
  if platform_win32 env then Js.replaceSlashes (path_sep env) destination
  else destination.

Definition hasInvalidDestination (instr : IInstruction) : bool :=
  match destination instr with
  | Some d =>
      if Js.truthyStr d then negb (isPathValid env (sanitizeDestination d) true)
      else false
  | None => false
  end.

Definition validateInstructions (instructions : list IInstruction)
    : list IInvalidInstruction :=
  map (fun instr =>
         mkInvalid (type instr)
           ("invalid destination path: " ++ dquote
            ++ keyOfOpt (destination instr) ++ dquote))
      (List.filter hasInvalidDestination instructions).

Definition reportUnsupported (unsupported : list IInstruction)
    (archivePath : string) : M unit :=
  match unsupported with
  | [] => ret tt
  | _ => emit (EvSendNotification "info" "Installer unsupported")
  end.

(** [path.join(base, rel)] throws a [TypeError] when [rel] is not a string. *)
Definition joinOpt (base : string) (rel : option string) : M string :=
  match rel with
  | Some r => ret (path_join env base r)
  | None => reject (typeError "path.join")
  end.

Definition processMKDir (instrs : list IInstruction) (destinationPath : string)
    : M unit :=
  each (fun instruction =>
          p <- joinOpt destinationPath (destination instruction) ;;
          askFs (EnsureDir p))
       instrs.

Definition processGenerateFiles (generatefile : list IInstruction)
    (destinationPath : string) : M unit :=
  each (fun gen =>
          outputPath <- joinOpt destinationPath (destination gen) ;;
          askFs (EnsureDir (path_dirname env outputPath)) ;;
          askFs (WriteFile outputPath (data gen)))
       generatefile.

Definition processAttribute (attrs : list IInstruction) (gameId modId : string)
    : M unit :=
  each (fun attr => dispatch (setModAttribute gameId modId (key attr) (value attr)))
       attrs.

Definition processSetModType (types : list IInstruction) (gameId modId : string)
    : M unit :=
  match last types with
  | Some t => dispatch (setModType gameId modId (value t))
  | None => ret tt
  end.

Definition processRule (rules : list IInstruction) (gameId modId : string)
    : M unit :=
  each (fun r => dispatch (addModRule gameId modId (rule r))) rules.

Definition renderKV (instruction : IInstruction) : string :=
  keyOfOpt (key instruction) ++ " = " ++ renderValue (value instruction).

Definition renderSection (kv : string * list IInstruction) : string :=
  Js.join (os_EOL env) (("[" +:+ fst kv +:+ "]") :: map renderKV (snd kv)).

Definition processIniEdits (iniEdits : list IInstruction)
    (destinationPath : string) : M unit :=
  match iniEdits with
  | [] => ret tt
  | _ =>
      let byDest :=
        JsArray.enumerate
          (JsArray.groupBy (fun v => keyOfOpt (destination v)) (fun v => v)
                           iniEdits) in
      askFs (EnsureDir (path_join env destinationPath INI_TWEAKS_PATH)) ;;
      mapAll (fun '(dest, edits) =>
                let bySection :=
                  JsArray.enumerate
                    (JsArray.groupBy (fun v => keyOfOpt (section v))
                                     (fun v => v) edits) in
                let content := Js.join (os_EOL env) (map renderSection bySection) in
                askFs (WriteFile
                         (path_join env
                            (path_join env destinationPath INI_TWEAKS_PATH) dest)
                         (Some content)))
             byDest ;;
      ret tt
  end.

(** [fixDestination]: any failure of [stat] leaves the destination as is. *)
Definition fixDestination (source destination : string) : M string :=
  catch_
    (sourceIsDir <- askStat source ;;
     if sourceIsDir : bool then ret destination
     else
       destIsDir <- askStat destination ;;
       ret (if destIsDir : bool
            then path_join env destination (path_basename env source)
            else destination))
    (fun _ => ret destination).

Definition transferFile (source destination : string) (move : bool) : M unit :=
  askFs (EnsureDir (path_dirname env destination)) ;;
  fixedDest <- fixDestination source destination ;;
  if move then askFs (Rename source fixedDest)
  else askFs (Copy source fixedDest).

(** The callback of the inner [mapSeries] of [extractArchive], for the
    destination [destRel] at index [idx] of the [len] destinations of
    [srcRel]; [missingFiles] is the array it may push onto. *)
Definition transferTo (tempPath destinationPath srcRel : string) (len : nat)
    (missingFiles : list string) (item : nat * option string)
    : M (list string) :=
  let sourcePath := path_join env tempPath srcRel in
  destPath <- joinOpt destinationPath (snd item) ;;
  catch_
    (transferFile sourcePath destPath (Nat.eqb (fst item) (len - 1)) ;;
     ret missingFiles)
    (fun err =>
       match err with
       | RejUndefined | RejNull => reject (typeError "err.code")
       | _ =>
           if codeIs err "ENOENT" then ret (missingFiles ++ [srcRel])
           else if codeIs err "EPERM"
           then transferFile sourcePath destPath false ;; ret missingFiles
           else reject err
       end).

(** [sourceMap] of [extractArchive], in the order of [Object.keys]. *)
Definition sourceMap (copies : list IInstruction)
    : Js.Obj (list (option string)) :=
  JsArray.enumerate
    (JsArray.groupBy (fun c => keyOfOpt (source c)) destination copies).

(** The two nested [mapSeries] of [extractArchive]; resolves to
    [missingFiles]. *)
Definition transferAll (tempPath destinationPath : string)
    (copies : list IInstruction) : M (list string) :=
  foldSeries
    (fun missingFiles '(srcRel, dests) =>
       foldSeries (transferTo tempPath destinationPath srcRel (length dests))
                  (JsArray.indexed dests) missingFiles)
    (sourceMap copies) [].

Definition missingFilesWarning (archivePath : string)
    (missingFiles : list string) : Event :=
  EvShowErrorNotification
    (translate env "Invalid installer" [])
    (translate env
       ("The installer in " ++ dquote ++ "{{name}}" ++ dquote
        ++ " tried to install files that were not part of the archive." ++ nl
        ++ "This is a bug in the mod, please report it to the mod author." ++ nl
        ++ "Please note: NMM silently ignores this kind of errors so you "
        ++ "might get this message for mods that appear to install "
        ++ "fine with NMM. The mod will likely work, at least partially.")
       [("name", path_basename env archivePath)]
     +:+ nl +:+ nl
     +:+ Js.join nl (map (fun name => "- " +:+ name) missingFiles))
    (Some false).

Definition extractArchive (archivePath tempPath destinationPath : string)
    (copies : list IInstruction) : M unit :=
  askFs (EnsureDir destinationPath) ;;
  askFs (NormalizeFunc destinationPath) ;;
  missingFiles <- transferAll tempPath destinationPath copies ;;
  match missingFiles with
  | [] => ret tt
  | _ => emit (missingFilesWarning archivePath missingFiles)
  end.

(** [processSubmodule]; [processInner] is the recursive call of
    [processInstructions] on the nested archive. *)
Definition processSubmodule
    (processInner : string -> string -> string -> string -> string ->
                    IInstallResult -> M unit)
    (mInstallers : list IModInstaller) (submodule : list IInstruction)
    (destinationPath gameId modId : string) : M unit :=
  each (fun sub =>
          let tempPath :=
            destinationPath +:+ "." +:+ keyOfOpt (key sub) +:+ ".installing" in
          finally_
            (match path sub with
             | None => reject (typeError "mod.path")
             | Some modPath =>
                 resultInner <-
                   installInner mInstallers modPath tempPath destinationPath
                                gameId false None None None ;;
                 processInner modPath tempPath destinationPath gameId
                              (keyOfOpt (key sub)) resultInner ;;
                 match submoduleType sub with
                 | Some t => dispatch (setModType gameId modId (Js.VStr t))
                 | None => ret tt
                 end
             end)
            (askFs (Remove tempPath)))
       submodule.

(** The message of the notification about [error] instructions. *)
Definition errorsMessage (fatal : option IInstruction) : string :=
  "Errors were reported processing the installer for "
  +:+ dquote +:+ "{{ modId }}" +:+ dquote +:+ ". "
  +:+ match fatal with
      | Some _ => EmptyString
      | None =>
          "It's possible the mod works (partially) anyway. "
          +:+ "Please note that NMM tends to ignore errors so just because NMM doesn't "
          +:+ "report a problem with this installer doesn't mean it doesn't have any."
      end
  +:+ nl +:+ "{{ errors }}".

Definition isFatal (err : IInstruction) : bool :=
  Js.strictEq (value err) (Js.VStr "fatal").

(** The block of [processInstructions] guarded by
    [instructionGroups.error.length > 0]. *)
Definition reportErrors (errors : list IInstruction) : M unit :=
  match errors with
  | [] => ret tt
  | _ =>
      let fatal := find isFatal errors in
      emit (EvShowErrorNotification "Installer reported errors"
              (errorsMessage fatal) (Some false)) ;;
      match fatal with
      | Some _ => reject (newError ProcessCanceled "Installer script failed")
      | None => ret tt
      end
  end.

(** What [processInstructions] does once the errors are reported: the
    unsupported report and the chain of the eight stages. *)
Definition executeGroups
    (processInner : string -> string -> string -> string -> string ->
                    IInstallResult -> M unit)
    (mInstallers : list IModInstaller)
    (archivePath tempPath destinationPath gameId modId : string)
    (instructionGroups : InstructionGroups) : M unit :=
  reportUnsupported (grp_unsupported instructionGroups) archivePath ;;
  processMKDir (grp_mkdir instructionGroups) destinationPath ;;
  extractArchive archivePath tempPath destinationPath
                 (grp_copy instructionGroups) ;;
  processGenerateFiles (grp_generatefile instructionGroups) destinationPath ;;
  processIniEdits (grp_iniedit instructionGroups) destinationPath ;;
  processSubmodule processInner mInstallers (grp_submodule instructionGroups)
                   destinationPath gameId modId ;;
  processAttribute (grp_attribute instructionGroups) gameId modId ;;
  processSetModType (grp_setmodtype instructionGroups) gameId modId ;;
  processRule (grp_rule instructionGroups) gameId modId.

Definition invalidInstructionsMessage (allowReport : bool) : string :=
  if allowReport
  then "Invalid installer instructions found for "
       +:+ dquote +:+ "{{ modId }}" +:+ dquote +:+ "."
  else "Invalid installer instructions found for "
       +:+ dquote +:+ "{{ modId }}" +:+ dquote +:+ ". Please inform "
       +:+ "the game extension's developer - "
       +:+ dquote +:+ "{{ contributor }}" +:+ dquote +:+ ", or the mod author.".

Definition processInstructionsWith
    (processInner : string -> string -> string -> string -> string ->
                    IInstallResult -> M unit)
    (mInstallers : list IModInstaller)
    (archivePath tempPath destinationPath gameId modId : string)
    (result : IInstallResult) : M unit :=
  match instructions result with
  | InstrNull => reject newUserCanceled
  | InstrUndefined | InstrList [] =>
      reject (newError ProcessCanceled "Empty archive or no options selected")
  | InstrList l =>
      match validateInstructions l with
      | _ :: _ =>
          fun h =>
            match getGame env h gameId with
            | None => (Rejected (typeError "game.contributed"), [])
            | Some game =>
                let allowReport :=
                  match contributed game with None => true | Some _ => false end in
                (emit (EvShowErrorNotification
                         "Invalid mod installer instructions"
                         (invalidInstructionsMessage allowReport)
                         (Some allowReport)) ;;
                 reject (newError ProcessCanceled
                                  "Invalid installer instructions")) h
            end
      | [] =>
          let instructionGroups := transformInstructions l in
          reportErrors (grp_error instructionGroups) ;;
          executeGroups processInner mInstallers archivePath tempPath
                        destinationPath gameId modId instructionGroups
      end
  end.

(** [processInstructions]; [fuel] bounds how deep submodules may nest: a
    nested archive below that depth is a promise that never settles. *)
Fixpoint processInstructions (fuel : nat) (mInstallers : list IModInstaller)
    (archivePath tempPath destinationPath gameId modId : string)
    (result : IInstallResult) {struct fuel} : M unit :=
  processInstructionsWith
    (match fuel with
     | O => fun _ _ _ _ _ _ => pending
     | S n => processInstructions n mInstallers
     end)
    mInstallers archivePath tempPath destinationPath gameId modId result.

(** The call of [processInstructions] that [processSubmodule] makes when
    [fuel] levels of nesting are left. *)
Definition processNested (fuel : nat) (mInstallers : list IModInstaller)
    : string -> string -> string -> string -> string -> IInstallResult ->
      M unit :=
  match fuel with
  | O => fun _ _ _ _ _ _ => pending
  | S n => processInstructions n mInstallers
  end.

(** *** Replace and version policy *)

(** [getSafe(mod.attributes, [k], undefined)] *)
Definition getAttr (m : IMod) (k : string) : Js.Value :=
  match mod_attributes m with
  | Some attrs =>
      match Js.get attrs k with Some v => v | None => Js.VUndefined end
  | None => Js.VUndefined
  end.

(** [state.persistent.mods[gameMode] || {}] *)
Definition modsOf (state : IState) (gameMode : string) : Js.Obj IMod :=
  match Js.get (persistent_mods state) gameMode with
  | Some mods => mods
  | None => []
  end.

Definition isPreviousVersion (fileId : Js.Value) (m : IMod) : bool :=
  let newestFileId := getAttr m "newestFileId" in
  let currentFileId := getAttr m "fileId" in
  negb (Js.strictEq newestFileId currentFileId)
  && Js.strictEq newestFileId fileId.

(** [findPreviousVersionMod]: the loop over [Object.keys(mods)] assigns
    [mod] at every match, so the last match is returned. *)
Definition findPreviousVersionMod (fileId : Js.Value) (state : IState)
    (gameMode : string) : option IMod :=
  let mods := modsOf state gameMode in
  fold_left
    (fun found k =>
       match Js.get mods k with
       | Some m => if isPreviousVersion fileId m then Some m else found
       | None => found
       end)
    (Js.keys mods) None.

(** [checkModExists]; names inherited from [Object.prototype] are not
    modelled. *)
Definition checkModExists (installName : string) (state : IState)
    (gameMode : string) : bool :=
  Js.has (modsOf state gameMode) installName.

Definition userVersionChoice (oldMod : IMod) : M string :=
  dialogPromise "question" (modName env (Some oldMod))
    ["Cancel"; "Replace"; "Install"]
    (fun result =>
       if String.eqb (action result) "Cancel" then reject newUserCanceled
       else ret (action result)).

Record IReplaceChoice := mkReplaceChoice {
  choice_id : string;
  choice_variant : string;
  choice_enable : bool;
  choice_attributes : Js.Obj Js.Value
}.

(** [getSafe(profile.modState, [modId, 'enabled'], false)] *)
Definition modEnabled (p : IProfile) (modId : string) : bool :=
  match profile_modState p !! modId with Some b => b | None => false end.

(** [_.omit(attributes, ['version', 'fileName', 'fileVersion'])] *)
Definition omitVersionKeys (attrs : Js.Obj Js.Value) : Js.Obj Js.Value :=
  List.filter (fun kv => negb (existsb (String.eqb (fst kv))
                            ["version"; "fileName"; "fileVersion"]))
         attrs.

(** The listener of [remove-mod] answers through a callback: [Resolved]
    stands for [callback(null)], [Rejected e] for [callback(e)]. *)
Definition emitRemoveMod (gameId modId : string) : M unit :=
  ask (EvRemoveMod gameId modId) (fun h => removeMod env h gameId modId).

Definition queryUserReplace (modId gameId : string) : M IReplaceChoice :=
  fun h =>
    match Js.get (persistent_mods (getState env h)) gameId with
    | None => (Rejected (typeError "state.persistent.mods[gameId]"), [])
    | Some mods =>
        let existing := Js.get mods modId in
        dialogPromise "question" (modName env existing)
          ["Cancel"; "Add Variant"; "Replace"]
          (fun result =>
             if String.eqb (action result) "Cancel" then reject newUserCanceled
             else if String.eqb (action result) "Add Variant" then
               ret (mkReplaceChoice
                      (modId +:+ "+" +:+ keyOfOpt (input_variant result))
                      (keyOfOpt (input_variant result)) false [])
             else if String.eqb (action result) "Replace" then
               fun h' =>
                 let wasEnabled :=
                   match active_profile (getState env h') with
                   | Some p =>
                       if String.eqb (profile_gameId p) gameId
                       then modEnabled p modId else false
                   | None => false
                   end in
                 (emitRemoveMod gameId modId ;;
                  match existing with
                  | Some m =>
                      ret (mkReplaceChoice modId EmptyString wasEnabled
                             (omitVersionKeys
                                (match mod_attributes m with
                                 | Some a => a
                                 | None => []
                                 end)))
                  | None => pending
                  end) h'
             else pending) h
    end.

(** *** Downloads of dependencies *)

(** [downloadURL]: [start-download] answers through a callback;
    [emit] returning false means nobody listens. *)
Definition downloadURL (lookupResult : IModInfoEx) : M (option string) :=
  fun h =>
    let ev := EvStartDownload (sourceURI lookupResult) in
    match startDownload env h (sourceURI lookupResult) with
    | None =>
        (Rejected (newError PlainError "download manager not installed?"), [ev])
    | Some o => (o, [ev])
    end.

(** The arguments [downloadMatching] passes with [start-download-update]. *)
Definition updateArgs (lookupResult : IModInfoEx) (pattern : string)
    : list (option string) :=
  [li_source lookupResult;
   match li_domainName lookupResult with
   | Some d => if Js.truthyStr d then Some d else li_gameId lookupResult
   | None => li_gameId lookupResult
   end;
   details_modId lookupResult; details_fileId lookupResult; Some pattern].

Definition downloadMatching (lookupResult : IModInfoEx) (pattern : string)
    : M (option string) :=
  let modId := details_modId lookupResult in
  let fileId := details_fileId lookupResult in
  match modId, fileId with
  | None, None => downloadURL lookupResult
  | _, _ =>
      let args := updateArgs lookupResult pattern in
      dlIds <- ask (EvEmitAndAwait "start-download-update" args)
                   (fun h => emitAndAwait env h "start-download-update" args) ;;
      match dlIds with
      | None =>
          reject (newError NotFound
                    ("source not supported " +:+ dquote
                     +:+ keyOfOpt (li_source lookupResult) +:+ dquote))
      | Some ids =>
          match ids with
          | first :: _ =>
              if Js.truthyStr first then ret (Some first)
              else reject (newProcessCanceledReported "Download failed")
          | [] => reject (newProcessCanceledReported "Download failed")
          end
      end
  end.

(** The test of [downloadModAsync] on [requirement.versionMatch]. *)
Definition looksFuzzy (versionMatch : option string) : bool :=
  match versionMatch with
  | None => false
  | Some vm =>
      negb (Js.firstCharParsesHex vm)
      || negb (match semver_validRange env vm with
               | Some r => String.eqb r vm
               | None => false
               end)
  end.

Definition downloadModAsync (requirement : IModReference)
    (lookupResult : IModInfoEx) : M (option string) :=
  match ref_versionMatch requirement with
  | Some vm =>
      if looksFuzzy (Some vm) then
        res <- downloadMatching lookupResult vm ;;
        match res with
        | None => downloadURL lookupResult
        | Some id => ret (Some id)
        end
      else downloadURL lookupResult
  | None => downloadURL lookupResult
  end.

Definition applyExtraFromRule (profile : IProfile) (modId : string)
    (extra : option IExtra) : M unit :=
  match extra with
  | None => ret tt
  | Some ex =>
      match extra_type ex with
      | Some t => dispatch (setModType (profile_gameId profile) modId (Js.VStr t))
      | None => ret tt
      end ;;
      match extra_name ex with
      | Some n =>
          dispatch (setModAttribute (profile_gameId profile) modId
                      (Some "customFileName") (Js.VStr n))
      | None => ret tt
      end
  end.

(** *** The install pipeline

    [install] declares variables that its callbacks assign ([modId],
    [tempPath], [destinationPath], [installContext], ...); a rejected
    promise does not undo an assignment, so the variables are a state
    beside the outcome. *)

Record Vars := mkVars {
  v_fullInfo : FullInfo;
  v_rules : list IModRule;
  v_overrides : list string;
  v_destinationPath : option string;
  v_tempPath : option string;
  v_modId : string;
  v_installGameId : option string;
  v_installContext : bool;
  v_archiveMD5 : option string;
  v_archiveSize : option Z;
  v_enable : bool
}.

Definition MI (A : Type) := Vars -> Trace -> (Outcome A * Vars) * list Event.

Definition retI {A} (a : A) : MI A := fun v _ => ((Resolved a, v), []).
Definition rejectI {A} (r : Rejection) : MI A := fun v _ => ((Rejected r, v), []).
Definition lift {A} (p : M A) : MI A :=
  fun v h => let '(o, e) := p h in ((o, v), e).
Definition getV : MI Vars := fun v _ => ((Resolved v, v), []).
Definition setV (f : Vars -> Vars) : MI unit := fun v _ => ((Resolved tt, f v), []).

Definition thenI {A B} (p : MI A) (f : A -> MI B) : MI B :=
  fun v h =>
    match p v h with
    | ((Resolved a, v1), e1) =>
        let '(ov, e2) := f a v1 (h ++ e1) in (ov, e1 ++ e2)
    | ((Rejected r, v1), e1) => ((Rejected r, v1), e1)
    | ((Pending, v1), e1) => ((Pending, v1), e1)
    end.

Definition catchI {A} (p : MI A) (handler : Rejection -> MI A) : MI A :=
  fun v h =>
    match p v h with
    | ((Rejected r, v1), e1) =>
        let '(ov, e2) := handler r v1 (h ++ e1) in (ov, e1 ++ e2)
    | other => other
    end.

Definition finallyI {A} (p : MI A) (handler : MI unit) : MI A :=
  fun v h =>
    match p v h with
    | ((Pending, v1), e1) => ((Pending, v1), e1)
    | ((o, v1), e1) =>
        match handler v1 (h ++ e1) with
        | ((Resolved _, v2), e2) => ((o, v2), e1 ++ e2)
        | ((Rejected r, v2), e2) => ((Rejected r, v2), e1 ++ e2)
        | ((Pending, v2), e2) => ((Pending, v2), e1 ++ e2)
        end
    end.

Definition tapI {A B} (p : MI A) (f : A -> MI B) : MI A :=
  thenI p (fun a => thenI (f a) (fun _ => retI a)).

Notation "x <~ p ;; q" := (thenI p (fun x => q))
  (at level 100, p at next level, right associativity) : promise_scope.
Notation "p ;;; q" := (thenI p (fun _ => q))
  (at level 100, right associativity) : promise_scope.

Definition set_fullInfo (f : FullInfo -> FullInfo) (v : Vars) : Vars :=
  mkVars (f (v_fullInfo v)) (v_rules v) (v_overrides v) (v_destinationPath v)
         (v_tempPath v) (v_modId v) (v_installGameId v) (v_installContext v)
         (v_archiveMD5 v) (v_archiveSize v) (v_enable v).

Definition set_inherited (rules : list IModRule) (overrides : list string)
    (v : Vars) : Vars :=
  mkVars (v_fullInfo v) rules overrides (v_destinationPath v)
         (v_tempPath v) (v_modId v) (v_installGameId v) (v_installContext v)
         (v_archiveMD5 v) (v_archiveSize v) (v_enable v).

Definition set_destinationPath (d : string) (v : Vars) : Vars :=
  mkVars (v_fullInfo v) (v_rules v) (v_overrides v) (Some d)
         (v_tempPath v) (v_modId v) (v_installGameId v) (v_installContext v)
         (v_archiveMD5 v) (v_archiveSize v) (v_enable v).

Definition set_tempPath (t : string) (v : Vars) : Vars :=
  mkVars (v_fullInfo v) (v_rules v) (v_overrides v) (v_destinationPath v)
         (Some t) (v_modId v) (v_installGameId v) (v_installContext v)
         (v_archiveMD5 v) (v_archiveSize v) (v_enable v).

Definition set_modId (m : string) (v : Vars) : Vars :=
  mkVars (v_fullInfo v) (v_rules v) (v_overrides v) (v_destinationPath v)
         (v_tempPath v) m (v_installGameId v) (v_installContext v)
         (v_archiveMD5 v) (v_archiveSize v) (v_enable v).

Definition set_installGameId (g : option string) (v : Vars) : Vars :=
  mkVars (v_fullInfo v) (v_rules v) (v_overrides v) (v_destinationPath v)
         (v_tempPath v) (v_modId v) g (v_installContext v)
         (v_archiveMD5 v) (v_archiveSize v) (v_enable v).

Definition set_installContext (v : Vars) : Vars :=
  mkVars (v_fullInfo v) (v_rules v) (v_overrides v) (v_destinationPath v)
         (v_tempPath v) (v_modId v) (v_installGameId v) true
         (v_archiveMD5 v) (v_archiveSize v) (v_enable v).

Definition set_hash (hash : IHashResult) (v : Vars) : Vars :=
  mkVars (v_fullInfo v) (v_rules v) (v_overrides v) (v_destinationPath v)
         (v_tempPath v) (v_modId v) (v_installGameId v) (v_installContext v)
         (Some (md5sum hash)) (Some (numBytes hash)) (v_enable v).

Definition set_enable (b : bool) (v : Vars) : Vars :=
  mkVars (v_fullInfo v) (v_rules v) (v_overrides v) (v_destinationPath v)
         (v_tempPath v) (v_modId v) (v_installGameId v) (v_installContext v)
         (v_archiveMD5 v) (v_archiveSize v) b.

Definition fi_set_hash (hash : IHashResult) (fi : FullInfo) : FullInfo :=
  mkFullInfo (fi_download_game fi) (Some (md5sum hash)) (Some (numBytes hash))
             (fi_meta fi) (fi_choices fi) (fi_variant fi) (fi_previous fi)
             (fi_rest fi).

Definition fi_set_meta (m : IModInfoEx) (fi : FullInfo) : FullInfo :=
  mkFullInfo (fi_download_game fi) (fi_fileMD5 fi) (fi_size fi)
             (Some m) (fi_choices fi) (fi_variant fi) (fi_previous fi)
             (fi_rest fi).

Definition fi_set_choices (c : option Js.Value) (fi : FullInfo) : FullInfo :=
  mkFullInfo (fi_download_game fi) (fi_fileMD5 fi) (fi_size fi)
             (fi_meta fi) c (fi_variant fi) (fi_previous fi) (fi_rest fi).

Definition fi_set_choice (c : IReplaceChoice) (fi : FullInfo) : FullInfo :=
  mkFullInfo (fi_download_game fi) (fi_fileMD5 fi) (fi_size fi)
             (fi_meta fi) (fi_choices fi) (Some (choice_variant c))
             (Some (choice_attributes c)) (fi_rest fi).

(** The arguments of one call of [install]. [currentProfile] is the
    active profile read when [install] is called; [hasCallback] tells
    whether a callback was passed. *)
Record InstallArgs := mkInstallArgs {
  archiveId : option string;
  archivePath : string;
  downloadGameIds : list string;
  info : FullInfo;
  enable : bool;
  hasCallback : bool;
  forceGameId : option string;
  fileList : option (list string);
  unattended : option bool
}.

Definition callback (a : InstallArgs) (error : Rejection) (id : option string)
    : M unit :=
  if hasCallback a then emit (EvCallback error id) else ret tt.

(** [checkNameLoop]: as long as the candidate name is taken the user is
    asked; nothing bounds the number of rounds, [fuel] does here. *)
Fixpoint checkNameLoop (fuel : nat) (gameId testModId : string) : MI string :=
  fun v h =>
    if checkModExists testModId (getState env h) gameId then
      match fuel with
      | O => ((Pending, v), [])
      | S n =>
          thenI (lift (queryUserReplace (v_modId v) gameId))
                (fun choice =>
                   thenI (setV (fun v' =>
                                  set_fullInfo (fi_set_choice choice)
                                    (if choice_enable choice
                                     then set_enable true v' else v')))
                         (fun _ => checkNameLoop n gameId (choice_id choice)))
                v h
      end
    else ((Resolved testModId, v), []).

(** The stage that offers the version choice. *)
Definition versionChoice (currentProfile : option IProfile) (gameId : string)
    (modInfo : ModInfo) : MI unit :=
  fun v h =>
    let oldMod :=
      match mi_fileId modInfo with
      | Js.VUndefined => None
      | fileId => findPreviousVersionMod fileId (getState env h) gameId
      end in
    let v1 :=
      match oldMod, fi_choices (v_fullInfo v) with
      | Some old, None =>
          set_fullInfo
            (fi_set_choices
               (match getAttr old "installerChoices" with
                | Js.VUndefined => None
                | c => Some c
                end)) v
      | _, _ => v
      end in
    match oldMod, currentProfile with
    | Some old, Some profile =>
        let wasEnabled := modEnabled profile (mod_id old) in
        thenI (lift (userVersionChoice old))
          (fun act =>
             if String.eqb act "Install" then
               thenI (setV (fun v' => set_enable (v_enable v' || wasEnabled) v'))
                 (fun _ =>
                    if wasEnabled
                    then lift (emit (EvEmit "mods-enabled"
                                       [mod_id old; "false";
                                        profile_gameId profile]))
                    else retI tt)
             else if String.eqb act "Replace" then
               thenI (setV (set_inherited
                              (match mod_rules old with
                               | Some r => r
                               | None => []
                               end)
                              (mod_fileOverrides old)))
                 (fun _ =>
                    thenI (lift (emitRemoveMod (profile_gameId profile)
                                               (mod_id old)))
                      (fun _ =>
                         setV (fun v' =>
                                 set_enable (v_enable v' || wasEnabled)
                                            (set_modId (mod_id old) v'))))
             else retI tt)
          v1 h
    | _, _ => ((Resolved tt, v1), [])
    end.

(** The chain of [install] up to and including [processInstructions]. *)
Definition installStages (fuel : nat) (mInstallers : list IModInstaller)
    (a : InstallArgs) (currentProfile : option IProfile) (baseName : string)
    : MI unit :=
  let resolveGame : MI (option string) :=
    match forceGameId a with
    | Some g => retI (Some g)
    | None =>
        v <~ getV ;;
        lift (ask EvQueryGameId
                  (fun h => queryGameId env h (downloadGameIds a) (v_modId v)))
    end in
  let willInstall : MI unit :=
    v <~ getV ;;
    match currentProfile with
    | None => rejectI (typeError "currentProfile.gameId")
    | Some p =>
        let args := [Some (profile_gameId p); archiveId a; Some (v_modId v)] in
        lift (ask (EvEmitAndAwait "will-install-mod" args)
                  (fun h => emitAndAwait env h "will-install-mod" args) ;;
              ret tt)
    end in
  let hashing : MI unit :=
    catchI
      (hash <~ lift (ask (EvGenHash (archivePath a))
                         (fun h => genHash env h (archivePath a))) ;;
       setV (fun v => set_fullInfo (fi_set_hash hash) (set_hash hash v)))
      (fun _ => retI tt) in
  gameIdOpt <~ tapI (tapI resolveGame (fun _ => willInstall))
                    (fun _ => hashing) ;;
  setV (set_installGameId gameIdOpt) ;;;
  match gameIdOpt with
  | None =>
      rejectI (newError ProcessCanceled
                 "You need to select a game before installing this mod")
  | Some gameId =>
      setV set_installContext ;;;
      modInfo <~ lift (emit (EvCtx (startIndicator baseName)) ;;
                       ask (EvLookupModMeta (archivePath a))
                           (fun h => lookupModMeta env h (archivePath a))) ;;
      setV (fun v =>
              let v' := match modInfo with
                        | m :: _ => set_fullInfo (fi_set_meta m) v
                        | [] => v
                        end in
              set_modId (deriveModInstallName env baseName (v_fullInfo v')) v') ;;;
      v <~ getV ;;
      newModId <~ checkNameLoop fuel gameId (v_modId v) ;;
      setV (set_modId newModId) ;;;
      v <~ getV ;;
      modInfo' <~ lift (ask (EvFilterModInfo None)
                            (fun h => filterModInfo env h (v_fullInfo v) None)) ;;
      versionChoice currentProfile gameId modInfo' ;;;
      v <~ getV ;;
      let modId := v_modId v in
      let destinationPath := path_join env (mGetInstallPath env gameId) modId in
      let tempPath := destinationPath +:+ ".installing" in
      lift (emit (EvCtx (startInstallCB modId gameId (archiveId a)))) ;;;
      setV (set_destinationPath destinationPath) ;;;
      lift (emit (EvCtx (setInstallPathCB modId destinationPath))) ;;;
      setV (set_tempPath tempPath) ;;;
      result <~ lift (installInner mInstallers (archivePath a) tempPath
                        destinationPath gameId true (fi_choices (v_fullInfo v))
                        (fileList a) (unattended a)) ;;
      result' <~ lift (fun h =>
                   let recorded :=
                     match Js.get (modsOf (getState env h) gameId) modId with
                     | Some m =>
                         match mod_type m with
                         | Some t => t
                         | None => EmptyString
                         end
                     | None => EmptyString
                     end in
                   if String.eqb recorded EmptyString
                   then (ty <- determineModType gameId (instructions result) ;;
                         emit (EvCtx (ctxSetModType modId ty)) ;;
                         ret result) h
                   else (Resolved result, [])) ;;
      lift (processInstructions fuel mInstallers (archivePath a) tempPath
                                destinationPath gameId modId result')
  end.

(** The first [finally] of [install]. *)
Definition removeStaging : MI unit :=
  v <~ getV ;;
  match v_tempPath v with
  | Some tempPath => lift (askFs (Remove tempPath))
  | None => retI tt
  end.

(** The two [then] after that [finally]: the success path. *)
Definition finishSuccess (a : InstallArgs) (currentProfile : option IProfile)
    : MI unit :=
  v <~ getV ;;
  let gameId := keyOfOpt (v_installGameId v) in
  modInfo <~ lift (ask (EvFilterModInfo (v_destinationPath v))
                       (fun h => filterModInfo env h (v_fullInfo v)
                                               (v_destinationPath v))) ;;
  v <~ getV ;;
  let modId := v_modId v in
  lift (emit (EvCtx (finishInstallCB "success")) ;;
        each (fun r => dispatch (addModRule gameId modId (Some r))) (v_rules v) ;;
        dispatch (setFileOverride gameId modId (v_overrides v)) ;;
        match currentProfile with
        | Some p =>
            (if v_enable v
             then dispatch (setModEnabled (profile_id p) modId true) ;;
                  emit (EvEmit "mods-enabled" [modId; "true"; profile_gameId p])
             else ret tt) ;;
            callback a RejNull (Some modId) ;;
            emit (EvEmit "did-install-mod" [profile_gameId p; modId])
        | None =>
            callback a RejNull (Some modId) ;;
            reject (typeError "currentProfile.gameId")
        end).

(** [canceled] of the [catch] of [install], for a rejection other than
    [undefined] (on which [err.message] throws). *)
Definition isCanceled (err : Rejection) : bool :=
  instanceOf err UserCanceled
  || instanceOf err TemporaryError
  || instanceOf err ProcessCanceled
  || match err with
     | RejNull => true
     | RejError e =>
         String.eqb (err_message e) "Canceled"
         || match err_stack e with
            | Some st => Js.startsWith "UserCanceled: canceled by user" st
            | None => false
            end
     | _ => false
     end.

(** [prom] of the [catch] of [install]: the clean-up of the destination. *)
Definition cleanDestination (destinationPath : option string) : M unit :=
  match destinationPath with
  | Some d =>
      catch_
        (catchClass UserCanceled (askFs (Remove d)) (fun _ => ret tt))
        (fun innerErr =>
           match innerErr with
           | RejUndefined | RejNull => reject (typeError "innerErr.code")
           | _ =>
               emit (EvCtx (reportError
                              ("Failed to clean up installation directory "
                               +:+ dquote +:+ "{{destinationPath}}" +:+ dquote
                               +:+ ", please close Vortex and remove it manually.")
                              (Some (negb (codeIs innerErr "ENOTEMPTY")))))
           end)
  | None => ret tt
  end.

Definition isBrowserAssistantError (error : string) : bool :=
  platform_win32 env && Js.includes "Roaming\Browser Assistant" error.

(** The [catch] of [install]. Reading [err.message] of [undefined] throws,
    so the branch for [err === undefined] is never entered.
    [prettifyNodeErrorMessage], defined elsewhere, is taken to return. *)
Definition handleFailure (a : InstallArgs) (err : Rejection) : MI unit :=
  v <~ getV ;;
  match err with
  | RejUndefined => rejectI (typeError "err.message")
  | _ =>
      let canceled := isCanceled err in
      let ctx (p : M unit) : M unit :=
        if v_installContext v then p else ret tt in
      let prom : M unit :=
        cleanDestination (v_destinationPath v) ;;
        ctx (emit (EvCtx (finishInstallCB
                            (if canceled then "canceled" else "failed")))) in
      if canceled then lift (prom ;; callback a err None)
      else if instanceOf err ArchiveBrokenError then
        lift (prom ;; ctx (emit (EvCtx (reportError "Installation failed"
                                                    (Some false)))))
      else if instanceOf err SetupError then
        lift (prom ;; ctx (emit (EvCtx (reportError "Installation failed"
                                                    (Some false)))))
      else if instanceOf err DataInvalid then
        lift (prom ;; ctx (emit (EvCtx (reportError "Installation failed"
                                                    (Some false)))))
      else
        lift (prom ;;
              catch_ (ask (EvGenHash (archivePath a))
                          (fun h => genHash env h (archivePath a)) ;; ret tt)
                     (fun _ => ret tt) ;;
              (if v_installContext v then
                 match err with
                 | RejString s =>
                     emit (EvCtx (reportError "Installation failed"
                                    (if isBrowserAssistantError s
                                     then Some false else None)))
                 | RejError e =>
                     emit (EvCtx (reportError "Installation failed"
                                    (if isBrowserAssistantError (err_message e)
                                     then Some false else None)))
                 | _ => reject (typeError "err.message")
                 end
               else ret tt) ;;
              callback a err (Some (v_modId v)))
  end.

(** The last [finally] of [install]. *)
Definition stopInstallIndicator : MI unit :=
  v <~ getV ;;
  if v_installContext v
  then lift (emit (EvCtx (stopIndicator (v_modId v))))
  else retI tt.

Definition initialVars (a : InstallArgs) (baseName : string) : Vars :=
  mkVars (info a) [] [] None None baseName None false None None (enable a).

(** [install], as one pipeline of the queue: the variables at its end, the
    outcome of the promise that becomes the new tail of the queue, and the
    events of the run. *)
Definition install (fuel : nat) (mInstallers : list IModInstaller)
    (a : InstallArgs) : Trace -> (Outcome unit * Vars) * list Event :=
  fun h =>
    let baseName :=
      path_basename_ext env (archivePath a) (path_extname env (archivePath a)) in
    let currentProfile := active_profile (getState env h) in
    let dismiss :=
      EvDismissNotification
        ("ready-to-install-" +:+ keyOfOpt (archiveId a)) in
    let '(ov, evs) :=
      finallyI
        (catchI
           (finallyI (installStages fuel mInstallers a currentProfile baseName)
                     removeStaging ;;;
            finishSuccess a currentProfile)
           (handleFailure a))
        stopInstallIndicator
        (initialVars a baseName) (h ++ [dismiss]) in
    (ov, dismiss :: evs).

(** *** Installing dependencies *)

Fixpoint firstCallback (evs : list Event) : option (Rejection * option string) :=
  match evs with
  | [] => None
  | EvCallback error id :: _ => Some (error, id)
  | _ :: rest => firstCallback rest
  end.

(** The promise of [installModAsync] is settled by the callback handed to
    [install]: resolved with the id when the error is [null], rejected with
    the error otherwise, and left pending when the pipeline never calls it. *)
Definition settledBy (evs : list Event) : Outcome (option string) :=
  match firstCallback evs with
  | Some (RejNull, id) => Resolved id
  | Some (error, _) => Rejected error
  | None => Pending
  end.

Definition installModAsync (fuel : nat) (mInstallers : list IModInstaller)
    (downloadId : option string) (choices : option Js.Value)
    (files : option (list string)) : M (option string) :=
  fun h =>
    let state := getState env h in
    match match downloadId with
          | Some id => persistent_downloads_files state !! id
          | None => None
          end with
    | None =>
        (Rejected (newError PlainError
                     ("Invalid download id (" +:+ keyOfOpt downloadId +:+ ")")),
         [])
    | Some download =>
        let fullPath :=
          path_join env (downloadPathForGame env state (head (dl_game download)))
                    (dl_localPath download) in
        let args :=
          mkInstallArgs downloadId fullPath (getDownloadGames env download)
            (mkFullInfo (Some (dl_game download)) None None None choices None
                        None EmptyString)
            false true None files (Some true) in
        let '(_, evs) := install fuel mInstallers args h in
        (settledBy evs, evs)
    end.

Definition with_mod (dep : IDependency) (m : option IMod) : IDependency :=
  mkDependency (dep_download dep) (dep_reference dep) (dep_lookupResults dep)
               (dep_fileList dep) (dep_installerChoices dep) m (dep_extra dep).

(** A mod id that may be [null], used as a property key. *)
Definition nullKey (id : option string) : string :=
  match id with Some s => s | None => "null" end.

Definition failedToDetermineUrl : Rejection :=
  newError ProcessCanceled "Failed to determine download url".

(** [dlPromise] of the mapper of [doInstallDependencies]; [None] when
    building it throws, on a download id the store does not know. *)
Definition dlPromise (downloads : gmap string IDownload) (dep : IDependency)
    : option (M (option string)) :=
  match dep_download dep with
  | DlUndefined =>
      Some match dep_lookupResults dep with
           | lr :: _ =>
               match sourceURI lr with
               | Some uri =>
                   if Js.truthyStr uri
                   then downloadModAsync (dep_reference dep) lr
                   else reject failedToDetermineUrl
               | None => reject failedToDetermineUrl
               end
           | [] => reject failedToDetermineUrl
           end
  | DlNull => Some (reject failedToDetermineUrl)
  | DlId id =>
      match downloads !! id with
      | None => None
      | Some d =>
          if String.eqb (dl_state d) "paused"
          then Some (ask (EvResumeDownload id)
                         (fun h => resumeDownload env h id) ;;
                     ret (Some id))
          else Some (ret (Some id))
      end
  end.

(** Download, install and enable one dependency: the part of the mapper
    before its [catch] handlers. *)
Definition installOne (fuel : nat) (mInstallers : list IModInstaller)
    (profile : IProfile) (dep : IDependency) (dl : M (option string))
    : M (option IDependency) :=
  downloadId <- dl ;;
  modId <- match dep_mod dep with
           | None =>
               installModAsync fuel mInstallers downloadId
                               (dep_installerChoices dep) (dep_fileList dep)
           | Some m => ret (Some (mod_id m))
           end ;;
  dispatch (setModEnabled (profile_id profile) (nullKey modId) true) ;;
  applyExtraFromRule profile (nullKey modId) (dep_extra dep) ;;
  fun h =>
    match Js.get (persistent_mods (getState env h)) (profile_gameId profile) with
    | None => (Rejected (typeError "mods[modId]"), [])
    | Some mods => (Resolved (Some (with_mod dep (Js.get mods (nullKey modId)))), [])
    end.

Definition failedDependencyHint : string :=
  "{{errorMessage}}" +:+ nl
  +:+ "A common cause for issues here is that the file may no longer "
  +:+ "be available. You may want to install a current version of the specified mod "
  +:+ "and update or remove the dependency for the old one.".

Definition messageOf (err : Rejection) : string :=
  match err with
  | RejError e => err_message e
  | RejString s => s
  | RejNull => "null"
  | RejUndefined => "undefined"
  end.

(** The mapper of [doInstallDependencies]: [undefined] ([None]) for a
    dependency that was dropped. *)
Definition installDependency (fuel : nat) (mInstallers : list IModInstaller)
    (profile : IProfile) (downloads : gmap string IDownload)
    (dep : IDependency) : M (option IDependency) :=
  match dlPromise downloads dep with
  | None => reject (typeError "downloads[dep.download].state")
  | Some dl =>
      catch_
        (catchClass NotFound
           (catchClass ProcessCanceled
              (installOne fuel mInstallers profile dep dl)
              (fun err =>
                 match err with
                 | RejError e =>
                     if err_alreadyReported e then ret None
                     else
                       emit (EvShowErrorNotification
                               "Failed to install dependency"
                               failedDependencyHint (Some false)) ;;
                       ret None
                 | _ => ret None
                 end))
           (fun err =>
              emit (EvShowErrorNotification "Failed to install dependency"
                      (messageOf err) (Some false)) ;;
              ret None))
        (fun err =>
           if instanceOf err UserCanceled then reject err
           else
             emit (EvShowErrorNotification "Failed to install dependency"
                     (messageOf err) None) ;;
             ret None)
  end.

(** [.filter(dep => dep !== undefined)] *)
Fixpoint filterDefined {A} (l : list (option A)) : list A :=
  match l with
  | [] => []
  | Some x :: rest => x :: filterDefined rest
  | None :: rest => filterDefined rest
  end.

(** [doInstallDependencies]. Up to four mappers run interleaved in the
    source; here they run one after the other, and a rejected mapper ends
    the batch, as a rejected [Promise.map] starts no further mapper. *)
Definition doInstallDependencies (fuel : nat) (mInstallers : list IModInstaller)
    (profile : IProfile) (sourceModId : string)
    (dependencies : list IDependency) (recommended : bool)
    : M (list IDependency) :=
  fun h =>
    let downloads := persistent_downloads_files (getState env h) in
    (results <-
       catch_
         (catchClass UserCanceled
            (catchClass ProcessCanceled
               (mapSeries (installDependency fuel mInstallers profile downloads)
                          dependencies)
               (fun err =>
                  emit (EvShowErrorNotification "Failed to install dependencies"
                          (messageOf err) (Some false)) ;;
                  ret []))
            (fun _ => ret []))
         (fun err =>
            match err with
            | RejUndefined | RejNull => reject (typeError "err.message")
            | _ =>
                emit (EvShowErrorNotification "Failed to install dependencies"
                        (messageOf err) None) ;;
                ret []
            end) ;;
     ret (filterDefined results)) h.

Definition isSome {A} (o : option A) : bool :=
  match o with Some _ => true | None => false end.

(** The reference [updateRules] stores for a dependency installed as [m]. *)
Definition updatedReference (dep : IDependency) (m : IMod) : IModReference :=
  let r := dep_reference dep in
  mkRef (Some (mod_id m))
        (if isFuzzyVersion env (ref_versionMatch r)
            && isSome (ref_fileMD5 r)
            && (isSome (ref_logicalFileName r) || isSome (ref_fileExpression r))
         then None else ref_fileMD5 r)
        (ref_versionMatch r) (ref_logicalFileName r) (ref_fileExpression r).

(** [updateRules]: reading [dep.mod.id] of a dependency without [mod]
    throws. *)
Definition updateRules (profile : IProfile) (sourceModId : string)
    (dependencies : list IDependency) (recommended : bool) : M unit :=
  each (fun dep =>
          match dep_mod dep with
          | None => reject (typeError "dep.mod.id")
          | Some m =>
              fun h =>
                let gameId := profile_gameId profile in
                let rules :=
                  match Js.get (modsOf (getState env h) gameId) sourceModId with
                  | Some sm =>
                      match mod_rules sm with Some r => r | None => [] end
                  | None => []
                  end in
                let oldRule :=
                  find (fun iter => referenceEqual env (rule_reference iter)
                                                   (dep_reference dep))
                       rules in
                (dispatch (removeModRule gameId sourceModId oldRule) ;;
                 dispatch (addModRule gameId sourceModId
                             (Some (mkRule
                                      (if recommended then "recommends"
                                       else "requires")
                                      (updatedReference dep m)
                                      (match oldRule with
                                       | Some r => rule_extra r
                                       | None => EmptyString
                                       end))))) h
          end)
       dependencies.

(** [success], [existing] and [error] of [installDependenciesImpl]. *)
Definition splitDependencies (profile : IProfile) (dependencies : list Dependency)
    : list IDependency * list IDependency * list string :=
  fold_left
    (fun '(success, existing, error) dep =>
       match dep with
       | DepError e => (success, existing, error ++ [e])
       | DepOk d =>
           match dep_mod d with
           | Some m =>
               if modEnabled profile (mod_id m)
               then (success, existing ++ [d], error)
               else (success ++ [d], existing, error)
           | None => (success ++ [d], existing, error)
           end
       end)
    dependencies ([], [], []).

(** [doInstallDependencies(...).then(updated => updateRules(...,
    [].concat(existing, updated), ...))] *)
Definition installAndUpdate (fuel : nat) (mInstallers : list IModInstaller)
    (profile : IProfile) (modId : string) (success existing : list IDependency)
    (recommended : bool) : M unit :=
  updated <- doInstallDependencies fuel mInstallers profile modId success
                                   recommended ;;
  updateRules profile modId (existing ++ updated) recommended.

Definition installDependenciesImpl (fuel : nat) (mInstallers : list IModInstaller)
    (profile : IProfile) (modId name : string) (rules : list IModRule)
    (installPath : string) (silent : bool) : M unit :=
  let notificationId := installPath +:+ "_activity" in
  emit (EvEmit "will-install-dependencies" [profile_id profile; modId; "false"]) ;;
  emit (EvSendNotification "activity" "Checking dependencies") ;;
  finally_
    (catch_
       (dependencies <- ask (EvGatherDependencies false)
                            (fun h => gatherDependencies env h rules false) ;;
        emit (EvDismissNotification notificationId) ;;
        match dependencies with
        | [] => ret tt
        | _ =>
            let '(success, existing, error) :=
              splitDependencies profile dependencies in
            if silent && match error with [] => true | _ => false end
            then installAndUpdate fuel mInstallers profile modId success
                                  existing false
            else
              match success with
              | [] => ret tt
              | _ =>
                  result <- ask (EvShowDialog "question" "Install Dependencies"
                                              ["Cancel"; "Enable"])
                                (fun h => showDialog env h "Install Dependencies") ;;
                  if String.eqb (action result) "Enable"
                  then installAndUpdate fuel mInstallers profile modId success
                                        existing false
                  else ret tt
              end
        end)
       (fun err =>
          emit (EvDismissNotification notificationId) ;;
          emit (EvShowErrorNotification "Failed to check dependencies"
                  (messageOf err) None)))
    (emit (EvEmit "did-install-dependencies" [profile_id profile; modId; "false"])).

End WithEnv.

End InstallManager.

Import InstallManager.

(** * Concrete environments

    Used to run the model on examples: POSIX paths, a filesystem on which
    every operation succeeds, a store with one game and one profile, and
    dialogs that are never answered. *)

Module Scenario.

Fixpoint basename (s : string) : string :=
  match s with
  | EmptyString => EmptyString
  | String c r =>
      if Js.includes "/" r then basename r
      else if Ascii.eqb c "/"%char then r else String c r
  end.

Fixpoint dirname (s : string) : string :=
  match s with
  | EmptyString => "."
  | String c r =>
      if Js.includes "/" r then String c (dirname r)
      else if Ascii.eqb c "/"%char then EmptyString else "."
  end.

Fixpoint extname (s : string) : string :=
  match s with
  | EmptyString => EmptyString
  | String c r =>
      if Js.includes "." r then extname r
      else if Ascii.eqb c "."%char then String c r else EmptyString
  end.

Definition basenameExt (p ext : string) : string :=
  let b := basename p in
  String.substring 0 (String.length b - String.length ext) b.

Definition join (a b : string) : string := a +:+ "/" +:+ b.

Definition relative (from to : string) : string :=
  if String.prefix (from +:+ "/") to
  then String.substring (String.length from + 1)
                        (String.length to - String.length from - 1) to
  else to.

(** A path is refused when it is one of the reserved device names. *)
Definition pathValid (p : string) (allowRelative : bool) : bool :=
  negb (existsb (String.eqb p) ["CON"; "PRN"; "AUX"; "NUL"]).

Definition profile : IProfile := mkProfile "p1" "skyrim" ∅.

Definition emptyState : IState :=
  mkState [("skyrim", [])] ∅ (Some profile).

Definition game : IGame := mkGame None [].

Definition errno (code : string) : Rejection :=
  RejError (mkJsError PlainError code (Some code) None false).

(** The benign environment: [state] is the store after a history, the
    game query answers [queried], [fsys] answers the filesystem operations
    and [hub] the awaited events. *)
Definition envOf (state : Trace -> IState) (queried : option string)
    (fsys : Trace -> FsOp -> Outcome unit)
    (hub : Trace -> string -> list (option string) ->
           Outcome (option (list string)))
    : Env :=
  mkEnv "/" false nl join dirname basename basenameExt extname relative
        pathValid (fun msg _ => msg) (fun v => Some v) (fun _ => false)
        (fun _ _ => false) (fun _ => "reference")
        (fun name _ => name) InstallManager.messageOf
        (fun gameId => "/mods/" +:+ gameId)
        (fun _ _ => "/downloads") dl_game
        (fun m => match m with Some x => mod_id x | None => "undefined" end)
        state
        (fun _ _ => Some game)
        fsys
        (fun _ _ => Rejected (errno "ENOENT"))
        (fun _ _ => Resolved [])
        (fun _ _ _ => Resolved (0%Z, []))
        (fun _ _ => Pending)
        (fun _ _ _ => Resolved None)
        (fun _ _ => Resolved (mkHash "d41d8cd9" 0))
        (fun _ _ => Resolved [])
        (fun _ _ _ => Resolved queried)
        (fun _ _ _ => Resolved (mkModInfo Js.VUndefined EmptyString))
        hub
        (fun _ _ _ => Resolved [])
        (fun _ _ _ => Resolved tt)
        (fun _ _ => Some (Resolved (Some "dl-new")))
        (fun _ _ => Resolved tt).

(** [state] is the store at every moment. *)
Definition envWith (state : IState) (fsys : Trace -> FsOp -> Outcome unit)
    (hub : Trace -> string -> list (option string) ->
           Outcome (option (list string)))
    : Env :=
  envOf (fun _ => state) (Some "skyrim") fsys hub.

Definition allSucceed : Trace -> FsOp -> Outcome unit :=
  fun _ _ => Resolved tt.

Definition quietHub
    : Trace -> string -> list (option string) -> Outcome (option (list string)) :=
  fun _ _ _ => Resolved None.

Definition benign : Env := envWith emptyState allSucceed quietHub.

Definition instr (t : InstructionType) : IInstruction :=
  mkInstr t None None None None None Js.VUndefined None None None.

Definition copyInstr (src dst : string) : IInstruction :=
  mkInstr ty_copy None (Some src) (Some dst) None None Js.VUndefined None None
          None.

Definition errorInstr (v src : string) : IInstruction :=
  mkInstr ty_error None (Some src) None None None (Js.VStr v) None None None.

(** An installer that supports every archive and answers [instrs]. *)
Definition installerOf (p : Z) (instrs : Instructions) : IModInstaller :=
  mkInstaller p (fun _ _ _ => Resolved (mkSupported true []))
              (fun _ _ _ _ _ _ => Resolved (mkInstallResult instrs)).

(** A store holding one mod [m1] of the game with the given
    [newestFileId] and [fileId] attributes. *)
Definition modWithFileIds (newest current : Z) : IMod :=
  mkMod "m1" None
        (Some [("newestFileId", Js.VNum newest); ("fileId", Js.VNum current)])
        None [].

Definition stateWith (m : IMod) : IState :=
  mkState [("skyrim", [(mod_id m, m)])] ∅ (Some profile).

Definition envWithMod (m : IMod) : Env :=
  envWith (stateWith m) allSucceed quietHub.

Definition noVars : InstallManager.Vars :=
  InstallManager.mkVars
    (mkFullInfo None None None None None None None EmptyString)
    [] [] None None "Foo-1.0" (Some "skyrim") true None None false.

(** A staging directory [/t] where [ghost.txt] is missing and
    [locked.txt] cannot be renamed. *)
Definition isGhost (src : string) : bool := String.eqb src "/t/ghost.txt".
Definition isLocked (src : string) : bool := String.eqb src "/t/locked.txt".

Definition copyFs : Trace -> FsOp -> Outcome unit :=
  fun _ op =>
    match op with
    | Copy s _ => if isGhost s then Rejected (errno "ENOENT") else Resolved tt
    | Rename s _ =>
        if isGhost s then Rejected (errno "ENOENT")
        else if isLocked s then Rejected (errno "EPERM")
        else Resolved tt
    | _ => Resolved tt
    end.

Definition copyEnv : Env := envWith emptyState copyFs quietHub.

Definition copies : list IInstruction :=
  [copyInstr "a" "x/a"; copyInstr "ghost.txt" "g"; copyInstr "a" "y/a";
   copyInstr "locked.txt" "l"].

(** A download hub that knows the source but starts no download: the
    listener of [start-download-update] answers with an empty list. *)
Definition idleHub
    : Trace -> string -> list (option string) -> Outcome (option (list string)) :=
  fun _ _ _ => Resolved (Some []).

Definition idleEnv : Env := envWith emptyState allSucceed idleHub.

Definition lookup : IModInfoEx :=
  mkModInfoEx (Some "https://example.org/f") (Some "nexus") (Some "skyrim")
              None None None (Some "12") (Some "34").

(** A dependency that has to be downloaded, with a fuzzy version. *)
Definition fuzzyDependency : IDependency :=
  mkDependency DlUndefined (mkRef None None (Some ">=1.0") None None) [lookup]
               None None None None.

(** A dependency whose download could not be determined. *)
Definition lostDependency : IDependency :=
  mkDependency DlNull (mkRef None None None (Some "lost") None) [] None None
               None None.

(** A dependency that is installed already, as the mod [name]. *)
Definition installedDependency (name : string) : IDependency :=
  mkDependency DlUndefined (mkRef None None None (Some name) None)
               [lookup] None None (Some (mkMod name None None None [])) None.

(** A store that follows the run: a mod is added under its game when its
    install starts. The profile is for [skyrim]; the download [dl1] is an
    archive for [skyrimse]. *)
Fixpoint addMod (mods : Js.Obj (Js.Obj IMod)) (gameId modId : string)
    : Js.Obj (Js.Obj IMod) :=
  match mods with
  | [] => [(gameId, [(modId, mkMod modId None None None [])])]
  | (g, ms) :: rest =>
      if String.eqb g gameId
      then (g, ms ++ [(modId, mkMod modId None None None [])]) :: rest
      else (g, ms) :: addMod rest gameId modId
  end.

Definition liveMods (h : Trace) : Js.Obj (Js.Obj IMod) :=
  fold_left
    (fun mods e =>
       match e with
       | EvCtx (startInstallCB modId gameId _) => addMod mods gameId modId
       | _ => mods
       end)
    h [("skyrim", [])].

Definition liveState (h : Trace) : IState :=
  mkState (liveMods h)
          {[ "dl1" := mkDownload "finished" ["skyrimse"] "Foo-1.0.zip" ]}
          (Some profile).

(** The user installs the archive for the game [queried]. *)
Definition liveEnv (queried : string) : Env :=
  envOf liveState (Some queried) allSucceed quietHub.

(** A dependency whose archive is downloaded and not installed yet. *)
Definition downloadedDependency : IDependency :=
  mkDependency (DlId "dl1") (mkRef None None None (Some "Foo") None) [] None
               None None None.

Definition copyInstaller : IModInstaller :=
  installerOf 0 (InstrList [copyInstr "a" "a"]).

(** A file system on which the staging directory of [Foo-1.0] cannot be
    removed (a file in it is still open elsewhere). *)
Definition busyStaging : Trace -> FsOp -> Outcome unit :=
  fun _ op =>
    match op with
    | Remove p =>
        if String.eqb p "/mods/skyrim/Foo-1.0.installing"
        then Rejected (errno "EBUSY")
        else Resolved tt
    | _ => Resolved tt
    end.

Definition busyEnv : Env := envWith emptyState busyStaging quietHub.

(** The call [install('dl1', '/downloads/Foo-1.0.zip', ['skyrim'], api, {},
    true, false, callback)]. *)
Definition fooArchive : InstallArgs :=
  mkInstallArgs (Some "dl1") "/downloads/Foo-1.0.zip" ["skyrim"]
    (mkFullInfo None None None None None None None EmptyString)
    false true None None None.

(** [env] with another answer to [extractFull]. *)
Definition with_extractFull (env : Env)
    (x : Trace -> string -> string -> Outcome (Z * list string)) : Env :=
  mkEnv (path_sep env) (platform_win32 env) (os_EOL env) (path_join env)
    (path_dirname env) (path_basename env) (path_basename_ext env)
    (path_extname env) (path_relative env) (isPathValid env) (translate env)
    (semver_validRange env) (isFuzzyVersion env) (referenceEqual env)
    (renderModReference env) (deriveModInstallName env)
    (prettifyNodeErrorMessage env) (mGetInstallPath env)
    (downloadPathForGame env) (getDownloadGames env) (modName env) (getState
    env) (getGame env) (fs env) (fs_stat env) (walk env) x (showDialog env)
    (makeListInstaller env) (genHash env) (lookupModMeta env) (queryGameId
    env) (filterModInfo env) (emitAndAwait env) (gatherDependencies env)
    (removeMod env) (startDownload env) (resumeDownload env).

(** [env] with other answers to its dialogs. *)
Definition with_showDialog (env : Env)
    (x : Trace -> string -> Outcome IDialogResult) : Env :=
  mkEnv (path_sep env) (platform_win32 env) (os_EOL env) (path_join env)
    (path_dirname env) (path_basename env) (path_basename_ext env)
    (path_extname env) (path_relative env) (isPathValid env) (translate env)
    (semver_validRange env) (isFuzzyVersion env) (referenceEqual env)
    (renderModReference env) (deriveModInstallName env)
    (prettifyNodeErrorMessage env) (mGetInstallPath env)
    (downloadPathForGame env) (getDownloadGames env) (modName env) (getState
    env) (getGame env) (fs env) (fs_stat env) (walk env) (extractFull env) x
    (makeListInstaller env) (genHash env) (lookupModMeta env) (queryGameId
    env) (filterModInfo env) (emitAndAwait env) (gatherDependencies env)
    (removeMod env) (startDownload env) (resumeDownload env).

(** An environment in which extraction stops at the end of a truncated
    archive. *)
Definition truncated : Env :=
  with_extractFull benign
    (fun _ _ _ => Rejected (newError PlainError "Unexpected end of archive")).

(** [env] with every dialog answered by the button [label]. *)
Definition answering (env : Env) (label : string) : Env :=
  with_showDialog env (fun _ _ => Resolved (mkDialogResult label None)).

(** The instruction [{ type: 'mkdir', destination }]. *)
Definition mkdirInstr (dst : string) : IInstruction :=
  mkInstr ty_mkdir None None (Some dst) None None Js.VUndefined None None None.

(** The instruction [{ type: 'generatefile', destination, data }]. *)
Definition generateInstr (dst content : string) : IInstruction :=
  mkInstr ty_generatefile None None (Some dst) None None Js.VUndefined None
          (Some content) None.

(** The instruction [{ type: 'submodule', key, path }]. *)
Definition submoduleInstr (k archive : string) : IInstruction :=
  mkInstr ty_submodule (Some archive) None None None (Some k) Js.VUndefined
          None None None.

(** A store in which the mod [m1] is installed for [skyrim] and the
    download [dl1] is finished. *)
Definition settledState : IState :=
  mkState [("skyrim", [("m1", modWithFileIds 42 10)])]
          {[ "dl1" := mkDownload "finished" ["skyrim"] "m1.zip" ]}
          (Some profile).

Definition settledEnv : Env := envWith settledState allSucceed quietHub.

(** A dependency on [m1], which is installed, with the extra of its rule. *)
Definition settledDependency : IDependency :=
  mkDependency (DlId "dl1") (mkRef None None None (Some "m1") None) [] None
               None (Some (modWithFileIds 42 10))
               (Some (mkExtra (Some "dinput") None)).

(** [env] with another answer of [gatherDependencies]. *)
Definition with_gatherDependencies (env : Env)
    (x : Trace -> list IModRule -> bool -> Outcome (list Dependency)) : Env :=
  mkEnv (path_sep env) (platform_win32 env) (os_EOL env) (path_join env)
    (path_dirname env) (path_basename env) (path_basename_ext env)
    (path_extname env) (path_relative env) (isPathValid env) (translate env)
    (semver_validRange env) (isFuzzyVersion env) (referenceEqual env)
    (renderModReference env) (deriveModInstallName env)
    (prettifyNodeErrorMessage env) (mGetInstallPath env)
    (downloadPathForGame env) (getDownloadGames env) (modName env) (getState
    env) (getGame env) (fs env) (fs_stat env) (walk env) (extractFull env)
    (showDialog env) (makeListInstaller env) (genHash env) (lookupModMeta
    env) (queryGameId env) (filterModInfo env) (emitAndAwait env) x
    (removeMod env) (startDownload env) (resumeDownload env).

(** The dependencies cannot be gathered. *)
Definition ungathered : Env :=
  with_gatherDependencies benign
    (fun _ _ _ => Rejected (RejString "no meta server")).

(** A profile that has [m1] enabled, and the dependencies of a mod whose
    only requirements are [m1] and a file that could not be found. *)
Definition enabledProfile : IProfile :=
  mkProfile "p1" "skyrim" {[ "m1" := true ]}.

Definition gathered : Env :=
  with_gatherDependencies benign
    (fun _ _ _ => Resolved [DepOk settledDependency; DepError "not found"]).

(** The user selects no game when asked for one. *)
Definition undecided : Env :=
  envOf (fun _ => emptyState) None allSucceed quietHub.

(** [env] with another answer of [getGame]. *)
Definition with_getGame (env : Env)
    (x : Trace -> string -> option IGame) : Env :=
  mkEnv (path_sep env) (platform_win32 env) (os_EOL env) (path_join env)
    (path_dirname env) (path_basename env) (path_basename_ext env)
    (path_extname env) (path_relative env) (isPathValid env) (translate env)
    (semver_validRange env) (isFuzzyVersion env) (referenceEqual env)
    (renderModReference env) (deriveModInstallName env)
    (prettifyNodeErrorMessage env) (mGetInstallPath env)
    (downloadPathForGame env) (getDownloadGames env) (modName env) (getState
    env) x (fs env) (fs_stat env) (walk env) (extractFull env) (showDialog
    env) (makeListInstaller env) (genHash env) (lookupModMeta env)
    (queryGameId env) (filterModInfo env) (emitAndAwait env)
    (gatherDependencies env) (removeMod env) (startDownload env)
    (resumeDownload env).

(** A game with three mod types: [never] (priority 90) matches nothing,
    [high] (50) and [low] (10) match everything. *)
Definition typedGame : IGame :=
  mkGame None
    [mkModType "low" 10 (fun _ _ => Resolved true);
     mkModType "never" 90 (fun _ _ => Resolved false);
     mkModType "high" 50 (fun _ _ => Resolved true)].

Definition typedEnv : Env := with_getGame benign (fun _ _ => Some typedGame).

(** An [iniedit] instruction: [key = value] in [section] of the file
    [dst]. *)
Definition iniInstr (dst sec k val : string) : IInstruction :=
  mkInstr ty_iniedit None None (Some dst) (Some sec) (Some k) (Js.VStr val)
          None None None.

(** A store without mods that holds the finished download [dl1] of the
    archive [Foo-1.0.zip], and an environment over it in which the
    extraction stops at the end of a truncated archive. *)
Definition queuedState : IState :=
  mkState [("skyrim", [])]
          {[ "dl1" := mkDownload "finished" ["skyrim"] "Foo-1.0.zip" ]}
          (Some profile).

Definition truncatedDownload : Env :=
  with_extractFull (envWith queuedState allSucceed quietHub)
    (fun _ _ _ => Rejected (newError PlainError "Unexpected end of archive")).

End Scenario.

(** * Vocabulary of the statements *)

Definition isErrorInstr (i : IInstruction) : bool :=
  match type i with ty_error => true | _ => false end.

(** The notification about [error] instructions is not reportable. *)
Definition errorsNotification (fatal : option IInstruction) : Event :=
  EvShowErrorNotification "Installer reported errors" (errorsMessage fatal)
                          (Some false).

(** A registration: [addInstaller] with the three fields of [x]. *)
Definition register (mInstallers : list IModInstaller) (x : IModInstaller)
    : list IModInstaller :=
  let '(mkInstaller p t i) := x in addInstaller mInstallers p t i.

(** The comparator [addInstaller] sorts with. *)
Definition byPriority (lhs rhs : IModInstaller) : Z :=
  (priority lhs - priority rhs)%Z.

(** The events by which a pipeline tells how it ended: the status given to
    the install context, the error reports and the callback. *)
Definition isOutcomeEvent (e : Event) : bool :=
  match e with
  | EvCtx (reportError _ _) | EvCtx (finishInstallCB _) | EvCallback _ _ => true
  | _ => false
  end.

(** The values of the elements of [l] whose key is [k], in order: what
    grouping by key should collect under [k]. *)
Definition valuesOf {A B} (keyOf : A -> string) (valOf : A -> B) (k : string)
    (l : list A) : list B :=
  map valOf (List.filter (fun x => String.eqb (keyOf x) k) l).

(** The destinations of the copy instructions whose source is [s]. *)
Definition destinationsOf (s : string) (copies : list IInstruction)
    : list (option string) :=
  valuesOf (fun c => keyOfOpt (source c)) destination s copies.

(** The copy and rename operations among the events, in order. *)
Definition transferOp (e : Event) : option FsOp :=
  match e with
  | EvFs (Copy s d) _ => Some (Copy s d)
  | EvFs (Rename s d) _ => Some (Rename s d)
  | _ => None
  end.

Definition transferOps (evs : list Event) : list FsOp := omap transferOp evs.

Definition isNotification (e : Event) : bool :=
  match e with EvShowErrorNotification _ _ _ => true | _ => false end.

(** A filesystem for the copy stage: directories can always be made, no
    path is reported as a directory, the files under the sources in
    [absent] are missing (copy and rename fail with ENOENT), those under
    [locked] cannot be renamed (EPERM) but can be copied, and everything
    else succeeds. *)
Record CopyScenario (env : Env) (absent locked : string -> bool) : Prop := {
  cs_ensureDir : forall h p, fs env h (EnsureDir p) = Resolved tt;
  cs_normalize : forall h p, fs env h (NormalizeFunc p) = Resolved tt;
  cs_stat : forall h p,
      fs_stat env h p = Resolved false \/ exists r, fs_stat env h p = Rejected r;
  cs_copy : forall h s d,
      if absent s
      then exists r, fs env h (Copy s d) = Rejected r /\ codeIs r "ENOENT" = true
      else fs env h (Copy s d) = Resolved tt;
  cs_rename : forall h s d,
      if absent s
      then exists r, fs env h (Rename s d) = Rejected r
                     /\ codeIs r "ENOENT" = true
      else if locked s
      then exists r, fs env h (Rename s d) = Rejected r
                     /\ codeIs r "ENOENT" = false /\ codeIs r "EPERM" = true
      else fs env h (Rename s d) = Resolved tt
}.

(** What the claim expects for one source with its destinations: a copy
    for each destination but the last, a rename for the last, and after a
    rename refused for lack of permission a copy to the same destination. *)
Definition expectedTransfers (env : Env) (absent locked : string -> bool)
    (tempPath destinationPath : string) (entry : string * list (option string))
    : list FsOp :=
  let src := path_join env tempPath (fst entry) in
  flat_map
    (fun item : nat * option string =>
       let dst := path_join env destinationPath (keyOfOpt (snd item)) in
       if Nat.eqb (fst item) (length (snd entry) - 1) then
         if absent src then [Rename src dst]
         else if locked src then [Rename src dst; Copy src dst]
         else [Rename src dst]
       else [Copy src dst])
    (JsArray.indexed (snd entry)).

(** The entries of [missingFiles] one source accounts for: its name once
    per destination when its file is missing. *)
Definition expectedMissing (env : Env) (absent : string -> bool)
    (tempPath : string) (entry : string * list (option string)) : list string :=
  if absent (path_join env tempPath (fst entry))
  then map (fun _ => fst entry) (snd entry)
  else [].

(** [err.extraInfo.alreadyReported] *)
Definition alreadyReported (r : Rejection) : bool :=
  match r with RejError e => err_alreadyReported e | _ => false end.

(** What the handlers of the mapper of [doInstallDependencies] make of
    the rejection [r] of one dependency: the notification they show, if
    any, and whether the rejection is passed on. *)
Definition dependencyPolicy (r : Rejection)
    : Outcome (option IDependency) * list Event :=
  if instanceOf r ProcessCanceled then
    (Resolved None,
     if alreadyReported r then []
     else [EvShowErrorNotification "Failed to install dependency"
                                   failedDependencyHint (Some false)])
  else if instanceOf r NotFound then
    (Resolved None,
     [EvShowErrorNotification "Failed to install dependency" (messageOf r)
                              (Some false)])
  else if instanceOf r UserCanceled then (Rejected r, [])
  else
    (Resolved None,
     [EvShowErrorNotification "Failed to install dependency" (messageOf r)
                              None]).

(** The event that tells the install context how the pipeline ended. *)
Definition isFinish (e : Event) : bool :=
  match e with EvCtx (finishInstallCB _) => true | _ => false end.

(** A computation that never tells the install context that the pipeline
    ended, whatever the history. *)
Definition quiet {A} (p : M A) : Prop :=
  forall h, Forall (fun e => isFinish e = false) (snd (p h)).

Definition quietI {A} (p : MI A) : Prop :=
  forall v h, Forall (fun e => isFinish e = false) (snd (p v h)).

(** The message of the report about a destination that could not be
    removed. *)
Definition cleanupMessage : string :=
  "Failed to clean up installation directory "
  +:+ dquote +:+ "{{destinationPath}}" +:+ dquote
  +:+ ", please close Vortex and remove it manually.".

(** What the clean-up of the destination [d] adds after the call of
    [fs.removeAsync], given how that call was answered: nothing when it
    succeeded or was canceled by the user, the report to the user when it
    failed otherwise. *)
Definition afterRemoval (answer : Outcome unit) : list Event :=
  match answer with
  | Rejected r =>
      if instanceOf r UserCanceled then []
      else [EvCtx (reportError cleanupMessage
                               (Some (negb (codeIs r "ENOTEMPTY"))))]
  | _ => []
  end.

(** What the clean-up of the destination [d] adds to the history [h]: the
    call of [fs.removeAsync] with its answer, and what follows from it. *)
Definition cleanupEvents (env : Env) (d : string) (h : Trace) : list Event :=
  EvFs (Remove d) (isResolved (fs env h (Remove d)))
  :: afterRemoval (fs env h (Remove d)).

(** What the success path of [install] may add to a run: nothing that
    tells the context how the pipeline ended, or the filtering of the mod
    info, the call [finishInstallCB('success')] and a rest without another. *)
Definition successShape (v : Vars) (es : list Event) : Prop :=
  Forall (fun e => isFinish e = false) es
  \/ exists rest,
       es = EvFilterModInfo (v_destinationPath v)
            :: EvCtx (finishInstallCB "success") :: rest
       /\ Forall (fun e => isFinish e = false) rest.

(** What the [catch] of [install] may add to a run whose history is [h]:
    nothing that tells the context how the pipeline ended, or the clean-up
    of the destination, one call of [finishInstallCB] with another status
    than [success], and a rest without another. *)
Definition failureShape (env : Env) (v : Vars) (h : Trace) (es : list Event)
    : Prop :=
  Forall (fun e => isFinish e = false) es
  \/ exists st clean rest,
       es = clean ++ EvCtx (finishInstallCB st) :: rest
       /\ st <> "success"
       /\ Forall (fun e => isFinish e = false) clean
       /\ Forall (fun e => isFinish e = false) rest
       /\ forall d, v_destinationPath v = Some d ->
            clean = cleanupEvents env d h
            /\ fs env h (Remove d) <> Pending.

(** What a stage of the pipeline does to the variables of [install]: from
    variables that satisfy [P], a resolved stage leaves variables that
    satisfy [Q] of its value, a rejected or pending one variables that
    satisfy [R]. *)
Definition hoare {A} (P : Vars -> Prop) (p : MI A) (Q : A -> Vars -> Prop)
    (R : Vars -> Prop) : Prop :=
  forall v h, P v ->
    match p v h with
    | ((Resolved x, v'), _) => Q x v'
    | ((_, v'), _) => R v'
    end.

(** Neither path was assigned yet. *)
Definition unstaged (v : Vars) : Prop :=
  v_tempPath v = None /\ v_destinationPath v = None.

(** Neither path was assigned yet and the game is [gameId]. *)
Definition unstagedFor (gameId : string) (v : Vars) : Prop :=
  unstaged v /\ v_installGameId v = Some gameId.

(** The paths of [install] once assigned: [destinationPath] is the
    directory of the mod under the install path of the game, [tempPath] is
    [destinationPath + '.installing']. *)
Definition installPaths (env : Env) (v : Vars) : Prop :=
  (forall d, v_destinationPath v = Some d ->
     exists gameId,
       v_installGameId v = Some gameId
       /\ d = path_join env (mGetInstallPath env gameId) (v_modId v))
  /\ (forall t, v_tempPath v = Some t ->
      exists d, v_destinationPath v = Some d /\ t = d +:+ ".installing").

(** The calls of [fs.removeAsync] and of [finishInstallCB] in a run. *)
Definition isCleanupEvent (e : Event) : bool :=
  match e with
  | EvFs (Remove _) _ => true
  | EvCtx (finishInstallCB _) => true
  | _ => false
  end.

(** What a group object holds once the elements of [l] are pushed: its
    keys are distinct, and under each key the values of the elements with
    that key, in the order of [l]. *)
Definition groups {A B} (keyOf : A -> string) (valOf : A -> B)
    (o : Js.Obj (list B)) (l : list A) : Prop :=
  NoDup (Js.keys o)
  /\ forall k, Js.get o k
               = match valuesOf keyOf valOf k l with
                 | [] => None
                 | vs => Some vs
                 end.

(** [value.type === t] for the types that have a group. *)
Definition hasType (t : InstructionType) (i : IInstruction) : bool :=
  match type i, t with
  | ty_copy, ty_copy | ty_mkdir, ty_mkdir | ty_submodule, ty_submodule
  | ty_generatefile, ty_generatefile | ty_iniedit, ty_iniedit
  | ty_unsupported, ty_unsupported | ty_attribute, ty_attribute
  | ty_setmodtype, ty_setmodtype | ty_error, ty_error | ty_rule, ty_rule => true
  | _, _ => false
  end.

(** The type names for which [prev[value.type]] is something else than a
    group or [undefined]: the properties an [InstructionGroups] object
    inherits. *)
Definition inheritedNames : list string :=
  ["constructor"; "__proto__"; "hasOwnProperty"; "isPrototypeOf";
   "propertyIsEnumerable"; "toLocaleString"; "toString"; "valueOf";
   "__defineGetter__"; "__defineSetter__"; "__lookupGetter__";
   "__lookupSetter__"].

Definition groupNames : list string :=
  ["copy"; "mkdir"; "submodule"; "generatefile"; "iniedit"; "unsupported";
   "attribute"; "setmodtype"; "error"; "rule"].

(** An instruction type as [transformInstructions] is meant to see it: one
    of the ten, or a name that is neither one of them nor inherited. *)
Definition plainType (t : InstructionType) : bool :=
  match t with
  | ty_other name =>
      negb (existsb (String.eqb name) (groupNames ++ inheritedNames))
  | _ => true
  end.

(** An error that tells that the file could not be opened as an archive. *)
Definition notAnArchive (err : string) : bool :=
  Js.includes "Can not open the file as archive" err.

(** [archiveExtLookup.has(path.extname(archivePath).toLowerCase())] *)
Definition hasArchiveExtension (env : Env) (archivePath : string) : bool :=
  existsb (String.eqb (Js.toLowerCase (path_extname env archivePath)))
          archiveExtLookup.

(** The elements of [l] up to and including the first that satisfies [p]. *)
Fixpoint upToFirst {A} (p : A -> bool) (l : list A) : list A :=
  match l with
  | [] => []
  | x :: rest => if p x then [x] else x :: upToFirst p rest
  end.

(** The comparator [determineModType] sorts the mod types with. *)
Definition byPriorityDescending (lhs rhs : IModType) : Z :=
  (mt_priority rhs - mt_priority lhs)%Z.

(** What the [mapSeries] of [determineModType] yields for the types [l]
    when [matches] tells which of them match: [null] for every type but the
    first match. *)
Fixpoint typeMatches (matches : IModType -> bool) (l : list IModType)
    : list (option string) :=
  match l with
  | [] => []
  | ty :: rest =>
      if matches ty then Some (typeId ty) :: map (fun _ => None) rest
      else None :: typeMatches matches rest
  end.

(** The two calls by which a [generatefile] instruction with a destination
    is carried out when both succeed: the directory of the file is made,
    then the file is written with the data of the instruction. *)
Definition generateEvents (env : Env) (destinationPath : string)
    (gen : IInstruction) : list Event :=
  let outputPath := path_join env destinationPath (keyOfOpt (destination gen)) in
  [EvFs (EnsureDir (path_dirname env outputPath)) true;
   EvFs (WriteFile outputPath (data gen)) true].

(** The content of an ini tweak made of [edits]: one block per section,
    the header [[section]] followed by the lines [key = value]. *)
Definition iniContent (env : Env) (edits : list IInstruction) : string :=
  Js.join (os_EOL env)
    (map (renderSection env)
         (JsArray.enumerate
            (JsArray.groupBy (fun v => keyOfOpt (section v)) (fun v => v)
                             edits))).

(** The successful write of the ini tweak [file] (its name and its edits)
    under [destinationPath]. *)
Definition iniFile (env : Env) (destinationPath : string)
    (file : string * list IInstruction) : Event :=
  EvFs (WriteFile (path_join env (path_join env destinationPath INI_TWEAKS_PATH)
                             (fst file))
                  (Some (iniContent env (snd file))))
       true.

(** The edits whose destination is [dest], in order. *)
Definition editsFor (dest : string) (edits : list IInstruction)
    : list IInstruction :=
  List.filter (fun e => String.eqb (keyOfOpt (destination e)) dest) edits.

(** The staging directory of a submodule:
    [destinationPath + '.' + mod.key + '.installing']. *)
Definition submoduleTemp (destinationPath : string) (sub : IInstruction)
    : string :=
  destinationPath +:+ "." +:+ keyOfOpt (key sub) +:+ ".installing".

(** The attributes that a replaced mod does not hand down. *)
Definition versionKeys : list string := ["version"; "fileName"; "fileVersion"].

(** What [applyExtraFromRule] dispatches for the [extra] of a rule: the
    mod type when it names one, the custom file name when it has one. *)
Definition extraDispatches (profile : IProfile) (modId : string)
    (extra : option IExtra) : list Event :=
  match extra with
  | None => []
  | Some ex =>
      match extra_type ex with
      | Some t =>
          [EvDispatch (setModType (profile_gameId profile) modId (Js.VStr t))]
      | None => []
      end
      ++ match extra_name ex with
         | Some n =>
             [EvDispatch (setModAttribute (profile_gameId profile) modId
                            (Some "customFileName") (Js.VStr n))]
         | None => []
         end
  end.

(** The dependencies of a gathered list that are no errors, and the
    messages of those that are, both in the order of the list. *)
Definition resolvedDependencies (ds : list Dependency) : list IDependency :=
  flat_map (fun d => match d with DepOk d => [d] | DepError _ => [] end) ds.

Definition dependencyErrors (ds : list Dependency) : list string :=
  flat_map (fun d => match d with DepOk _ => [] | DepError e => [e] end) ds.

(** The mod of the dependency is installed and enabled in the profile. *)
Definition fulfilled (profile : IProfile) (d : IDependency) : bool :=
  match dep_mod d with
  | Some m => modEnabled profile (mod_id m)
  | None => false
  end.

(** What [updateRules] dispatches for the dependency [d], installed as
    [m], when [old] is the rule it found for the reference of [d]: the
    removal of [old], then the addition of the rule that replaces it. *)
Definition ruleUpdate (env : Env) (profile : IProfile) (sourceModId : string)
    (recommended : bool) (d : IDependency) (m : IMod) (old : option IModRule)
    : list Event :=
  [EvDispatch (removeModRule (profile_gameId profile) sourceModId old);
   EvDispatch
     (addModRule (profile_gameId profile) sourceModId
        (Some (mkRule (if recommended then "recommends" else "requires")
                      (updatedReference env d m)
                      (match old with
                       | Some r => rule_extra r
                       | None => EmptyString
                       end))))].

(** The rules of the mod [sourceModId] in the store at the moment [h]. *)
Definition rulesAt (env : Env) (profile : IProfile) (sourceModId : string)
    (h : Trace) : list IModRule :=
  match Js.get (modsOf (getState env h) (profile_gameId profile))
               sourceModId with
  | Some sm => match mod_rules sm with Some r => r | None => [] end
  | None => []
  end.

(** At the moment [h], [source] is an existing file and [destination] an
    existing directory, as the two calls of [stat] of [fixDestination]
    answer. *)
Definition fileIntoDirectory (env : Env) (source destination : string)
    (h : Trace) : bool :=
  match fs_stat env h source with
  | Resolved false =>
      match fs_stat env (h ++ [EvFs (Stat source) true]) destination with
      | Resolved true => true
      | _ => false
      end
  | _ => false
  end.

(** The callback handed to [install] is called. *)
Definition isCallback (e : Event) : bool :=
  match e with EvCallback _ _ => true | _ => false end.

(** The run of a stage of the pipeline ends as [Q] tells, without a call
    of the callback. *)
Definition endsUncalled {A} (Q : Outcome A -> Vars -> Prop) (p : MI A)
    (v : Vars) (h : Trace) : Prop :=
  Q (fst (fst (p v h))) (snd (fst (p v h)))
  /\ Forall (fun e => isCallback e = false) (snd (p v h)).

(** * Properties *)


(** ** Promise chains: what they emit *)

Section Chains.

Context {A B : Type}.

Lemma then_resolved (p : M A) (f : A -> M B) h a e1 :
  p h = (Resolved a, e1) ->
  then_ p f h = (fst (f a (h ++ e1)), e1 ++ snd (f a (h ++ e1))).
Proof. intros Hp. unfold then_. rewrite Hp. now destruct (f a (h ++ e1)). Qed.

Lemma then_rejected (p : M A) (f : A -> M B) h r e1 :
  p h = (Rejected r, e1) -> then_ p f h = (Rejected r, e1).
Proof. intros Hp. unfold then_. now rewrite Hp. Qed.

Lemma then_pending (p : M A) (f : A -> M B) h e1 :
  p h = (Pending, e1) -> then_ p f h = (Pending, e1).
Proof. intros Hp. unfold then_. now rewrite Hp. Qed.

Lemma catch_rejected (p : M A) (handler : Rejection -> M A) h r e1 :
  p h = (Rejected r, e1) ->
  catch_ p handler h
  = (fst (handler r (h ++ e1)), e1 ++ snd (handler r (h ++ e1))).
Proof.
  intros Hp. unfold catch_. rewrite Hp. now destruct (handler r (h ++ e1)).
Qed.

Lemma catch_resolved (p : M A) (handler : Rejection -> M A) h a e1 :
  p h = (Resolved a, e1) -> catch_ p handler h = (Resolved a, e1).
Proof. intros Hp. unfold catch_. now rewrite Hp. Qed.

Lemma catch_pending (p : M A) (handler : Rejection -> M A) h e1 :
  p h = (Pending, e1) -> catch_ p handler h = (Pending, e1).
Proof. intros Hp. unfold catch_. now rewrite Hp. Qed.

End Chains.

(** ** The instruction processor *)

Section Processor.

Context (env : Env).

Lemma processInstructions_unfold fuel mI a t d g m r :
  processInstructions env fuel mI a t d g m r
  = processInstructionsWith env (processNested env fuel mI) mI a t d g m r.
Proof. destruct fuel; reflexivity. Qed.

Lemma pushGroup_error g i :
  grp_error (pushGroup g i)
  = grp_error g ++ (if isErrorInstr i then [i] else []).
Proof.
  destruct g; unfold pushGroup, isErrorInstr; destruct (type i); simpl;
    try reflexivity; now rewrite app_nil_r.
Qed.

Lemma fold_pushGroup_error l g :
  grp_error (fold_left pushGroup l g)
  = grp_error g ++ List.filter isErrorInstr l.
Proof.
  revert g. induction l as [|i l IH]; intros g; simpl.
  - now rewrite app_nil_r.
  - rewrite IH, pushGroup_error. rewrite <- app_assoc. f_equal.
    now destruct (isErrorInstr i).
Qed.

(** The [error] group is the sub-list of the [error] instructions. *)
Lemma transformInstructions_error l :
  grp_error (transformInstructions l) = List.filter isErrorInstr l.
Proof. unfold transformInstructions. now rewrite fold_pushGroup_error. Qed.

(** C6: for every installer result, [processInstructions] rejects with
    [UserCanceled] when [instructions] is [null], and with [ProcessCanceled]
    carrying the message "Empty archive or no options selected" when it
    is [undefined] or an empty list; nothing is done before the rejection. *)
Theorem processInstructions_null_undefined_empty fuel mI a t d g m h :
  processInstructions env fuel mI a t d g m (mkInstallResult InstrNull) h
  = (Rejected (newError UserCanceled "canceled by user"), [])
  /\ processInstructions env fuel mI a t d g m (mkInstallResult InstrUndefined) h
     = (Rejected (newError ProcessCanceled "Empty archive or no options selected"),
        [])
  /\ processInstructions env fuel mI a t d g m (mkInstallResult (InstrList [])) h
     = (Rejected (newError ProcessCanceled "Empty archive or no options selected"),
        []).
Proof.
  rewrite !processInstructions_unfold.
  unfold processInstructionsWith; cbn [instructions].
  repeat split; reflexivity.
Qed.

Lemma reportErrors_fatal errors f h :
  find isFatal errors = Some f ->
  reportErrors errors h
  = (Rejected (newError ProcessCanceled "Installer script failed"),
     [errorsNotification (Some f)]).
Proof.
  intros Hf. destruct errors as [|e errors]; [discriminate|].
  unfold reportErrors. rewrite Hf. reflexivity.
Qed.

Lemma reportErrors_not_fatal errors h :
  errors <> [] -> find isFatal errors = None ->
  reportErrors errors h = (Resolved tt, [errorsNotification None]).
Proof.
  intros Hne Hf. destruct errors as [|e errors]; [congruence|].
  unfold reportErrors. rewrite Hf. reflexivity.
Qed.


End Processor.



(** ** Downloads of dependencies *)

Section Downloads.

Context (env : Env).

(** The test on [versionMatch], spelled out. *)
Lemma looksFuzzy_spec vmOpt :
  looksFuzzy env vmOpt = true <->
  exists vm, vmOpt = Some vm
             /\ (Js.firstCharParsesHex vm = false
                 \/ semver_validRange env vm <> Some vm).
Proof.
  unfold looksFuzzy. destruct vmOpt as [vm|].
  - rewrite orb_true_iff, !negb_true_iff. split.
    + intros [H|H]; exists vm; split; auto. right.
      destruct (semver_validRange env vm) as [r|]; [|discriminate].
      intros [= ->]. now rewrite String.eqb_refl in H.
    + intros (vm' & [= <-] & [H|H]); auto. right.
      destruct (semver_validRange env vm) as [r|]; [|reflexivity].
      destruct (String.eqb_spec r vm); [subst; congruence|reflexivity].
  - split; [discriminate|]. now intros (vm & H & _).
Qed.

Lemma downloadURL_events lr h :
  snd (downloadURL env lr h) = [EvStartDownload (sourceURI lr)].
Proof. unfold downloadURL. now destruct (startDownload env h (sourceURI lr)). Qed.

(** C8, as amended: [downloadModAsync] takes the [start-download-update]
    path exactly when the reference's [versionMatch] is fuzzy (its first
    character is no hexadecimal digit, or it differs from its own valid
    range) and the lookup result has a [modId] or a [fileId], one of the two
    being enough; in every other case it only emits [start-download] with
    the lookup result's [sourceURI] (a second time when the first download
    resolves without an id on the fuzzy path). *)
Theorem downloadModAsync_paths requirement lookupResult h :
  let evs := snd (downloadModAsync env requirement lookupResult h) in
  let direct := EvStartDownload (sourceURI lookupResult) in
  match ref_versionMatch requirement with
  | Some vm =>
      if looksFuzzy env (Some vm)
         && (isSome (details_modId lookupResult)
             || isSome (details_fileId lookupResult))
      then evs = [EvEmitAndAwait "start-download-update"
                                 (updateArgs lookupResult vm)]
      else evs = [direct] \/ evs = [direct; direct]
  | None => evs = [direct]
  end.
Proof.
  cbv zeta. unfold downloadModAsync.
  destruct (ref_versionMatch requirement) as [vm|]; [|apply downloadURL_events].
  destruct (looksFuzzy env (Some vm)); cbn [andb];
    [|left; apply downloadURL_events].
  unfold downloadMatching.
  destruct (details_modId lookupResult) as [mid|],
           (details_fileId lookupResult) as [fid|]; cbn [isSome orb].
  4:{ unfold then_.
      pose proof (downloadURL_events lookupResult h) as H1.
      destruct (downloadURL env lookupResult h) as [[[id|]|r|] e1];
        cbn [snd] in *; subst e1; auto.
      pose proof (downloadURL_events lookupResult
                    (h ++ [EvStartDownload (sourceURI lookupResult)])) as H2.
      destruct (downloadURL env lookupResult _) as [o2 e2];
        cbn [snd] in *; subst e2. now right. }
  all: unfold then_, ask;
    destruct (emitAndAwait env h "start-download-update" _)
      as [[[|first ids]|]|r|]; cbn; try reflexivity;
    destruct (Js.truthyStr first); reflexivity.
Qed.

End Downloads.

(** C8, as stated, fails on a lookup result that has a [modId] and no
    [fileId]: the reference is fuzzy and the update path is taken. *)
Lemma downloadModAsync_update_without_fileId :
  let lr := mkModInfoEx (Some "https://example.org/f") (Some "nexus")
                        (Some "skyrim") None None None (Some "12") None in
  let requirement := mkRef None None (Some ">=1.0") None None in
  details_fileId lr = None
  /\ snd (downloadModAsync Scenario.benign requirement lr [])
     = [EvEmitAndAwait "start-download-update"
          [Some "nexus"; Some "skyrim"; Some "12"; None; Some ">=1.0"]].
Proof. split; reflexivity. Qed.

(** ** The version choice *)

Section VersionChoice.

Context (env : Env).

Lemma findPreviousVersionMod_fold fileId (mods : Js.Obj IMod) ks acc :
  fold_left
    (fun found k =>
       match Js.get mods k with
       | Some m => if isPreviousVersion fileId m then Some m else found
       | None => found
       end) ks acc
  = match
      last (filter (fun m => isPreviousVersion fileId m = true)
                   (omap (Js.get mods) ks))
    with
    | Some m => Some m
    | None => acc
    end.
Proof.
  revert acc. induction ks as [|k ks IH]; intros acc; [reflexivity|].
  cbn [fold_left omap list_omap]. rewrite IH.
  change (omap (Js.get mods) (k :: ks))
    with (match Js.get mods k with
          | Some m => m :: omap (Js.get mods) ks
          | None => omap (Js.get mods) ks
          end).
  destruct (Js.get mods k) as [m|]; [|reflexivity].
  rewrite filter_cons.
  destruct (decide (isPreviousVersion fileId m = true)) as [Hm|Hm].
  - rewrite Hm.
    destruct (filter _ (omap (Js.get mods) ks)) as [|x xs] eqn:Hf;
      [reflexivity|].
    change (last (m :: x :: xs)) with (last (x :: xs)).
    destruct (last (x :: xs)) eqn:Hl; [reflexivity|].
    apply last_None in Hl. discriminate.
  - apply not_true_is_false in Hm. now rewrite Hm.
Qed.

(** [findPreviousVersionMod] returns the last mod, in the order of
    [Object.keys], whose [newestFileId] is the given file id and differs
    from its own [fileId]. *)
Lemma findPreviousVersionMod_last fileId state gameMode :
  findPreviousVersionMod fileId state gameMode
  = last (filter (fun m => isPreviousVersion fileId m = true)
                 (omap (Js.get (modsOf state gameMode))
                       (Js.keys (modsOf state gameMode)))).
Proof.
  unfold findPreviousVersionMod. rewrite findPreviousVersionMod_fold.
  now destruct (last _).
Qed.

Lemma findPreviousVersionMod_some fileId state gameMode :
  is_Some (findPreviousVersionMod fileId state gameMode) <->
  exists k m, In k (Js.keys (modsOf state gameMode))
              /\ Js.get (modsOf state gameMode) k = Some m
              /\ Js.strictEq (getAttr m "newestFileId") fileId = true
              /\ Js.strictEq (getAttr m "newestFileId") (getAttr m "fileId")
                 = false.
Proof.
  rewrite findPreviousVersionMod_last.
  set (mods := modsOf state gameMode).
  split.
  - intros [m Hm]. apply last_Some in Hm as [l' Hl'].
    assert (Hin : m ∈ filter (fun m => isPreviousVersion fileId m = true)
                         (omap (Js.get mods) (Js.keys mods))).
    { rewrite Hl'. apply elem_of_app. right. apply list_elem_of_singleton.
      reflexivity. }
    apply list_elem_of_filter in Hin as [Hp Hin].
    apply list_elem_of_omap in Hin as (k & Hk & Hget).
    exists k, m. split; [now apply list_elem_of_In|]. split; [assumption|].
    unfold isPreviousVersion in Hp.
    apply andb_true_iff in Hp as [H1 H2]. apply negb_true_iff in H1. auto.
  - intros (k & m & Hk & Hget & H1 & H2).
    assert (Hin : m ∈ filter (fun m => isPreviousVersion fileId m = true)
                         (omap (Js.get mods) (Js.keys mods))).
    { apply list_elem_of_filter. split.
      - unfold isPreviousVersion. now rewrite H1, H2.
      - apply list_elem_of_omap. exists k. split; [now apply list_elem_of_In|auto]. }
    destruct (filter _ _) as [|x xs] eqn:Hf.
    + now apply not_elem_of_nil in Hin.
    + destruct (last (x :: xs)) eqn:Hl; [eauto|].
      apply last_None in Hl. discriminate.
Qed.

Lemma dialogPromise_head {A} ty title labels (k : IDialogResult -> M A) h :
  exists rest, snd (dialogPromise env ty title labels k h)
               = EvShowDialog ty title labels :: rest.
Proof.
  unfold dialogPromise.
  destruct (showDialog env h title) as [r| |]; cbn; eauto.
  destruct (k r _) as [o e]. cbn. eauto.
Qed.

Lemma thenI_lift_head {A B} (p : M A) (f : A -> MI B) v h e rest :
  snd (p h) = e :: rest ->
  exists rest', snd (thenI (lift p) f v h) = e :: rest'.
Proof.
  unfold thenI, lift. destruct (p h) as [[a|r|] e1]; cbn; intros ->; eauto.
  destruct (f a v _) as [ov e2]. cbn. eauto.
Qed.


End VersionChoice.


(** ** The installer registry *)

Section Sorting.

Context {A : Type} (keyOf : A -> Z).

Let cmp (x y : A) : Z := (keyOf x - keyOf y)%Z.

Lemma insertBy_perm x l : Permutation (JsArray.insertBy cmp x l) (x :: l).
Proof.
  induction l as [|y l IH]; cbn; [reflexivity|].
  destruct (cmp x y <=? 0)%Z; [reflexivity|].
  rewrite IH. apply perm_swap.
Qed.

Lemma sort_perm l : Permutation (JsArray.sort cmp l) l.
Proof.
  induction l as [|x l IH]; cbn; [reflexivity|].
  fold (JsArray.sort cmp l). rewrite insertBy_perm. now rewrite IH.
Qed.

Lemma insertBy_hd x l y :
  HdRel (fun a b => (keyOf a <= keyOf b)%Z) y l -> (keyOf y <= keyOf x)%Z ->
  HdRel (fun a b => (keyOf a <= keyOf b)%Z) y (JsArray.insertBy cmp x l).
Proof.
  intros Hhd Hyx. destruct l as [|z l]; cbn.
  - now constructor.
  - destruct (cmp x z <=? 0)%Z; constructor; [assumption|].
    now inversion Hhd.
Qed.

Lemma insertBy_sorted x l :
  Sorted (fun a b => (keyOf a <= keyOf b)%Z) l ->
  Sorted (fun a b => (keyOf a <= keyOf b)%Z) (JsArray.insertBy cmp x l).
Proof.
  induction 1 as [|y l Hs IH Hhd]; cbn.
  - repeat constructor.
  - destruct (cmp x y <=? 0)%Z eqn:Hc.
    + constructor; [now constructor|]. constructor.
      unfold cmp in Hc. lia.
    + constructor; [assumption|].
      apply insertBy_hd; [assumption|]. unfold cmp in Hc. lia.
Qed.

Lemma sort_sorted l :
  Sorted (fun a b => (keyOf a <= keyOf b)%Z) (JsArray.sort cmp l).
Proof.
  induction l as [|x l IH]; cbn; [constructor|].
  now apply insertBy_sorted.
Qed.

(** Stability: among the elements of one key nothing moves. *)
Lemma insertBy_stable p x l :
  filter (fun a => keyOf a = p) (JsArray.insertBy cmp x l)
  = filter (fun a => keyOf a = p) (x :: l).
Proof.
  induction l as [|y l IH]; cbn; [reflexivity|].
  destruct (cmp x y <=? 0)%Z eqn:Hc; [reflexivity|].
  rewrite (filter_cons _ y), IH, !filter_cons.
  unfold cmp in Hc.
  destruct (decide (keyOf y = p)), (decide (keyOf x = p)); try reflexivity.
  lia.
Qed.

Lemma sort_stable p l :
  filter (fun a => keyOf a = p) (JsArray.sort cmp l)
  = filter (fun a => keyOf a = p) l.
Proof.
  induction l as [|x l IH]; cbn; [reflexivity|].
  fold (JsArray.sort cmp l). rewrite insertBy_stable, !filter_cons, IH.
  reflexivity.
Qed.

End Sorting.

Section Registry.

Lemma register_sort l x :
  register l x = JsArray.sort (fun a b => (priority a - priority b)%Z) (l ++ [x]).
Proof. unfold register, addInstaller. now destruct x. Qed.

Lemma registered_perm regs acc :
  Permutation (fold_left register regs acc) (acc ++ regs).
Proof.
  revert acc. induction regs as [|x regs IH]; intros acc; cbn.
  - now rewrite app_nil_r.
  - rewrite IH, register_sort, (sort_perm priority), <- app_assoc. reflexivity.
Qed.

Lemma registered_stable p regs acc :
  filter (fun a => priority a = p) (fold_left register regs acc)
  = filter (fun a => priority a = p) (acc ++ regs).
Proof.
  revert acc. induction regs as [|x regs IH]; intros acc; cbn.
  - now rewrite app_nil_r.
  - rewrite IH, !filter_app, register_sort, (sort_stable priority), filter_app.
    rewrite <- app_assoc. f_equal.
    change (x :: regs) with ([x] ++ regs). now rewrite filter_app.
Qed.

Lemma registered_sorted regs acc :
  Sorted (fun a b => (priority a <= priority b)%Z) acc ->
  Sorted (fun a b => (priority a <= priority b)%Z) (fold_left register regs acc).
Proof.
  revert acc. induction regs as [|x regs IH]; intros acc Hs; cbn; [assumption|].
  apply IH. rewrite register_sort. apply (sort_sorted priority).
Qed.

(** [getInstaller] answers with the first installer that supports the
    files, having asked those before it and no other. *)
Lemma getInstallerFrom_first pre inst post fl g rf h :
  (forall x, In x pre -> forall h',
      exists rf', testSupported x h' fl g = Resolved (mkSupported false rf')) ->
  (forall h', testSupported inst h' fl g = Resolved (mkSupported true rf)) ->
  getInstallerFrom (pre ++ inst :: post) fl g h
  = (Resolved (Some (mkSupportedInstaller inst rf)),
     map (fun x => EvTestSupported (priority x)) (pre ++ [inst])).
Proof.
  intros Hpre Hinst. revert h.
  induction pre as [|x pre IH]; intros h; cbn [app getInstallerFrom map].
  - unfold then_, ask. rewrite Hinst. reflexivity.
  - destruct (Hpre x (or_introl eq_refl) h) as [rf' Hx].
    unfold then_ at 1. unfold ask at 1. rewrite Hx. cbn [supported].
    rewrite IH; [reflexivity|].
    intros y Hy. apply Hpre. now right.
Qed.

(** C7: [addInstaller] keeps the list sorted by ascending priority, with
    ties in registration order (the sort is stable), and [getInstaller]
    scans that list and answers with the first installer whose
    [testSupported] yields [supported === true]; so for a file list matched
    by all of the registrations (10, A), (0, B), (5, C), in that order,
    installer B is selected. *)
Theorem installers_sorted_first_supported
    (regs : list IModInstaller) tA iA tB iB tC iC fl g rfA rfB rfC h
    (HA : forall h', tA h' fl g = Resolved (mkSupported true rfA))
    (HB : forall h', tB h' fl g = Resolved (mkSupported true rfB))
    (HC : forall h', tC h' fl g = Resolved (mkSupported true rfC)) :
  let mInstallers := fold_left register regs [] in
  let three :=
    addInstaller (addInstaller (addInstaller [] 10 tA iA) 0 tB iB) 5 tC iC in
  Sorted (fun a b => (priority a <= priority b)%Z) mInstallers
  /\ Permutation mInstallers regs
  /\ (forall p, filter (fun a => priority a = p) mInstallers
                = filter (fun a => priority a = p) regs)
  /\ (forall pre inst post rf,
         mInstallers = pre ++ inst :: post ->
         (forall x, In x pre -> forall h', exists rf',
               testSupported x h' fl g = Resolved (mkSupported false rf')) ->
         (forall h', testSupported inst h' fl g
                     = Resolved (mkSupported true rf)) ->
         fst (getInstaller mInstallers fl g None h)
         = Resolved (Some (mkSupportedInstaller inst rf)))
  /\ three = [mkInstaller 0 tB iB; mkInstaller 5 tC iC; mkInstaller 10 tA iA]
  /\ fst (getInstaller three fl g None h)
     = Resolved (Some (mkSupportedInstaller (mkInstaller 0 tB iB) rfB)).
Proof.
  intros mInstallers three. subst mInstallers.
  split; [apply registered_sorted; constructor|].
  split; [apply (registered_perm regs [])|].
  split; [intros p; apply (registered_stable p regs [])|].
  split.
  - intros pre inst post rf Heq Hpre Hinst.
    unfold getInstaller. rewrite Heq, skipn_O.
    now rewrite (getInstallerFrom_first pre inst post fl g rf h Hpre Hinst).
  - assert (Hthree : three = [mkInstaller 0 tB iB; mkInstaller 5 tC iC;
                              mkInstaller 10 tA iA]) by reflexivity.
    split; [assumption|]. rewrite Hthree.
    unfold getInstaller. rewrite skipn_O.
    pose proof (getInstallerFrom_first [] (mkInstaller 0 tB iB)
                  [mkInstaller 5 tC iC; mkInstaller 10 tA iA] fl g rfB h
                  ltac:(intros x []) HB) as Hfirst.
    cbn [app] in Hfirst. now rewrite Hfirst.
Qed.

End Registry.

(** Three installers that support every file list, registered with the
    priorities 10, 0 and 5: the one of priority 0 is selected. *)
Lemma installers_sorted_first_supported_witness :
  let yes : Trace -> list string -> string -> Outcome ISupportedResult :=
    fun _ _ _ => Resolved (mkSupported true []) in
  let run : Trace -> list string -> string -> string -> option Js.Value ->
            option bool -> Outcome IInstallResult :=
    fun _ _ _ _ _ _ => Resolved (mkInstallResult InstrNull) in
  fst (getInstaller
         (addInstaller (addInstaller (addInstaller [] 10 yes run) 0 yes run)
                       5 yes run)
         ["readme.txt"] "skyrim" None [])
  = Resolved (Some (mkSupportedInstaller (mkInstaller 0 yes run) [])).
Proof.
  intros yes run.
  exact (proj2 (proj2 (proj2 (proj2 (proj2
           (installers_sorted_first_supported [] yes run yes
              run yes run ["readme.txt"] "skyrim" [] [] [] []
              (fun _ => eq_refl) (fun _ => eq_refl) (fun _ => eq_refl))))))).
Defined.

(** ** Selecting the installer *)

Section NoInstaller.

Context (env : Env).

Lemma getInstallerFrom_none l fl g h :
  (forall x, In x l -> forall h',
      exists rf, testSupported x h' fl g = Resolved (mkSupported false rf)) ->
  getInstallerFrom l fl g h
  = (Resolved None, map (fun x => EvTestSupported (priority x)) l).
Proof.
  intros Hl. revert h.
  induction l as [|x l IH]; intros h; cbn [getInstallerFrom map];
    [reflexivity|].
  destruct (Hl x (or_introl eq_refl) h) as [rf Hx].
  unfold then_ at 1. unfold ask at 1. rewrite Hx. cbn [supported].
  rewrite IH; [reflexivity|].
  intros y Hy. apply Hl. now right.
Qed.


End NoInstaller.



(** ** Grouping by key *)

Section Grouping.

Context {A B : Type} (keyOf : A -> string) (valOf : A -> B).

Lemma get_pushTo (o : Js.Obj (list B)) k v k' :
  Js.get (JsArray.pushTo o k v) k'
  = if String.eqb k k'
    then Some (match Js.get o k with Some vs => vs ++ [v] | None => [v] end)
    else Js.get o k'.
Proof.
  induction o as [|[k0 vs] o IH]; cbn.
  - reflexivity.
  - destruct (String.eqb_spec k0 k) as [->|Hk0]; cbn.
    + now destruct (String.eqb_spec k k').
    + rewrite IH. destruct (String.eqb_spec k0 k') as [->|Hk0'];
        [|reflexivity].
      destruct (String.eqb_spec k k'); [congruence|reflexivity].
Qed.

Lemma keys_pushTo (o : Js.Obj (list B)) k v :
  Js.keys (JsArray.pushTo o k v)
  = Js.keys o ++ (if Js.has o k then [] else [k]).
Proof.
  unfold Js.keys, Js.has.
  induction o as [|[k0 vs] o IH]; cbn; [reflexivity|].
  destruct (String.eqb_spec k0 k) as [->|Hk0]; cbn.
  - now rewrite app_nil_r.
  - now rewrite IH.
Qed.

Lemma get_None_keys {V} (o : Js.Obj V) k :
  Js.get o k = None -> ~ In k (Js.keys o).
Proof.
  induction o as [|[k0 v] o IH]; cbn; [tauto|].
  destruct (String.eqb_spec k0 k); [discriminate|].
  intros H [Heq|Hin]; [congruence|]. now apply IH.
Qed.

Lemma get_In {V} (o : Js.Obj V) k v :
  NoDup (Js.keys o) -> (In (k, v) o <-> Js.get o k = Some v).
Proof.
  induction o as [|[k0 v0] o IH]; cbn; intros Hnd.
  - split; [tauto|discriminate].
  - inversion Hnd as [|? ? Hnot Hnd']; subst.
    destruct (String.eqb_spec k0 k) as [->|Hk0].
    + split.
      * intros [[= ->]|Hin]; [reflexivity|].
        exfalso. apply Hnot. apply list_elem_of_In.
        change k with (fst (k, v)). now apply in_map.
      * intros [= ->]. now left.
    + rewrite <- (IH Hnd'). split; [intros [[= ? ?]|]; [congruence|auto]|auto].
Qed.

Lemma valuesOf_snoc k l x :
  valuesOf keyOf valOf k (l ++ [x])
  = valuesOf keyOf valOf k l
    ++ (if String.eqb (keyOf x) k then [valOf x] else []).
Proof.
  unfold valuesOf. rewrite List.filter_app, map_app. cbn.
  now destruct (String.eqb (keyOf x) k).
Qed.

Lemma groups_push o l x :
  groups keyOf valOf o l ->
  groups keyOf valOf (JsArray.pushTo o (keyOf x) (valOf x)) (l ++ [x]).
Proof.
  intros [Hnd Hget]. split.
  - rewrite keys_pushTo. unfold Js.has.
    destruct (Js.get o (keyOf x)) eqn:Hk; [now rewrite app_nil_r|].
    apply NoDup_app. split; [assumption|]. split.
    + intros y Hy Hin. apply list_elem_of_In in Hy.
      apply list_elem_of_singleton in Hin. subst y.
      now apply (get_None_keys o (keyOf x)).
    + apply NoDup_singleton.
  - intros k. rewrite get_pushTo, valuesOf_snoc.
    destruct (String.eqb_spec (keyOf x) k) as [->|Hk].
    + rewrite Hget. destruct (valuesOf keyOf valOf k l); reflexivity.
    + rewrite app_nil_r. apply Hget.
Qed.

Lemma groups_fold l' o l :
  groups keyOf valOf o l ->
  groups keyOf valOf (fold_left (fun o x => JsArray.pushTo o (keyOf x) (valOf x)) l' o)
         (l ++ l').
Proof.
  revert o l. induction l' as [|x l' IH]; intros o l Hg; cbn.
  - now rewrite app_nil_r.
  - replace (l ++ x :: l') with ((l ++ [x]) ++ l')
      by now rewrite <- app_assoc.
    apply IH. now apply groups_push.
Qed.

Lemma groupBy_groups l : groups keyOf valOf (JsArray.groupBy keyOf valOf l) l.
Proof.
  unfold JsArray.groupBy. apply (groups_fold l [] []).
  split; [constructor|]. intros k. reflexivity.
Qed.

End Grouping.

Section Enumerate.

Context {V : Type}.

Lemma insertBy_permutation (cmp : V -> V -> Z) x l :
  Permutation (JsArray.insertBy cmp x l) (x :: l).
Proof.
  induction l as [|y l IH]; cbn; [reflexivity|].
  destruct (cmp x y <=? 0)%Z; [reflexivity|].
  rewrite IH. apply perm_swap.
Qed.

Lemma sort_permutation (cmp : V -> V -> Z) l :
  Permutation (JsArray.sort cmp l) l.
Proof.
  induction l as [|x l IH]; cbn; [reflexivity|].
  fold (JsArray.sort cmp l). rewrite insertBy_permutation. now rewrite IH.
Qed.

Lemma filter_split (f : V -> bool) l :
  Permutation (List.filter f l ++ List.filter (fun x => negb (f x)) l) l.
Proof.
  induction l as [|x l IH]; cbn; [reflexivity|].
  destruct (f x); cbn.
  - now rewrite IH.
  - rewrite <- Permutation_middle. now rewrite IH.
Qed.

End Enumerate.

(** [Object.keys] reorders the properties, it neither adds nor drops one. *)
Lemma enumerate_permutation {V} (o : Js.Obj V) :
  Permutation (JsArray.enumerate o) o.
Proof.
  unfold JsArray.enumerate.
  rewrite sort_permutation. apply filter_split.
Qed.

(** ** The copy stage *)

Section SourceMap.

(** Copy instructions are grouped by source: each source is one property
    of [sourceMap], holding the destinations of its instructions in order. *)
Lemma sourceMap_groups copies :
  NoDup (Js.keys (sourceMap copies))
  /\ forall s ds, In (s, ds) (sourceMap copies)
                  <-> ds = destinationsOf s copies /\ ds <> [].
Proof.
  unfold sourceMap.
  set (g := JsArray.groupBy (fun c => keyOfOpt (source c)) destination copies).
  destruct (groupBy_groups (fun c => keyOfOpt (source c)) destination copies)
    as [Hnd Hget]. fold g in Hnd, Hget.
  pose proof (enumerate_permutation g) as Hperm.
  split.
  - unfold Js.keys. rewrite Hperm. exact Hnd.
  - intros s ds. split.
    + intros Hin. apply (Permutation_in _ Hperm) in Hin.
      apply (get_In g s ds Hnd) in Hin. rewrite Hget in Hin.
      unfold destinationsOf.
      destruct (valuesOf _ _ s copies); [discriminate|].
      injection Hin as <-. split; [reflexivity|discriminate].
    + intros [-> Hne].
      apply (Permutation_in _ (Permutation_sym Hperm)).
      apply (get_In g s _ Hnd). rewrite Hget.
      unfold destinationsOf in *.
      now destruct (valuesOf _ _ s copies).
Qed.

Lemma sourceMap_destinations copies s ds d :
  In (s, ds) (sourceMap copies) -> In d ds ->
  exists c, In c copies /\ destination c = d.
Proof.
  intros Hin Hd. apply sourceMap_groups in Hin as [-> _].
  unfold destinationsOf, valuesOf in Hd.
  apply in_map_iff in Hd as (c & Hc & Hf).
  apply filter_In in Hf as [Hf _]. eauto.
Qed.

End SourceMap.

Section CopyStage.

Context (env : Env) (absent locked : string -> bool).
Context (Hfs : CopyScenario env absent locked).
Context (tempPath destinationPath : string).

Lemma fixDestination_scenario s d h :
  exists e, fixDestination env s d h = (Resolved d, e)
            /\ transferOps e = [] /\ List.filter isNotification e = [].
Proof.
  unfold fixDestination, catch_, then_, askStat.
  destruct (cs_stat _ _ _ Hfs h s) as [Hs|[r Hs]]; rewrite Hs; cbn.
  - destruct (cs_stat _ _ _ Hfs (h ++ [EvFs (Stat s) true]) d) as [Hd|[r Hd]];
      rewrite Hd; cbn; eauto.
  - eauto.
Qed.

(** The operation a transfer ends with, and how it is answered. *)
Lemma transferFile_scenario s d move h :
  exists o e,
    transferFile env s d move h = (o, e)
    /\ transferOps e = [if move then Rename s d else Copy s d]
    /\ List.filter isNotification e = []
    /\ (if absent s
        then exists r, o = Rejected r /\ codeIs r "ENOENT" = true
        else if move && locked s
        then exists r, o = Rejected r /\ codeIs r "ENOENT" = false
                       /\ codeIs r "EPERM" = true
        else o = Resolved tt).
Proof.
  unfold transferFile.
  unfold then_ at 1. unfold askFs at 1.
  rewrite (cs_ensureDir _ _ _ Hfs). cbn [isResolved].
  destruct (fixDestination_scenario s d
              (h ++ [EvFs (EnsureDir (path_dirname env d)) true]))
    as (e1 & He1 & Hops1 & Hn1).
  unfold then_. rewrite He1.
  destruct move; unfold askFs; cbn [andb].
  - pose proof (cs_rename _ _ _ Hfs
                  ((h ++ [EvFs (EnsureDir (path_dirname env d)) true]) ++ e1)
                  s d) as Hr.
    destruct (absent s).
    + destruct Hr as (r & Hr & Hc). rewrite Hr. cbn [isResolved].
      eexists _, _. split; [reflexivity|].
      unfold transferOps in *. cbn. rewrite omap_app, Hops1.
      rewrite List.filter_app, Hn1. cbn. eauto.
    + destruct (locked s).
      * destruct Hr as (r & Hr & Hc). rewrite Hr. cbn [isResolved].
        eexists _, _. split; [reflexivity|].
        unfold transferOps in *. cbn. rewrite omap_app, Hops1.
        rewrite List.filter_app, Hn1. cbn. eauto.
      * rewrite Hr. cbn [isResolved].
        eexists _, _. split; [reflexivity|].
        unfold transferOps in *. cbn. rewrite omap_app, Hops1.
        rewrite List.filter_app, Hn1. cbn. eauto.
  - pose proof (cs_copy _ _ _ Hfs
                  ((h ++ [EvFs (EnsureDir (path_dirname env d)) true]) ++ e1)
                  s d) as Hr.
    destruct (absent s).
    + destruct Hr as (r & Hr & Hc). rewrite Hr. cbn [isResolved].
      eexists _, _. split; [reflexivity|].
      unfold transferOps in *. cbn. rewrite omap_app, Hops1.
      rewrite List.filter_app, Hn1. cbn. eauto.
    + rewrite Hr. cbn [isResolved].
      eexists _, _. split; [reflexivity|].
      unfold transferOps in *. cbn. rewrite omap_app, Hops1.
      rewrite List.filter_app, Hn1. cbn. eauto.
Qed.

Lemma codeIs_error r c : codeIs r c = true -> exists e, r = RejError e.
Proof. destruct r; cbn; try discriminate. eauto. Qed.

(** One destination of one source: the transfer, the fallback to a copy
    after a rename refused for lack of permission, and the record of a
    missing file; the callback resolves in every case. *)
Lemma transferTo_scenario srcRel len missing idx d h :
  let src := path_join env tempPath srcRel in
  let dst := path_join env destinationPath d in
  exists e,
    transferTo env tempPath destinationPath srcRel len missing (idx, Some d) h
    = (Resolved (missing ++ (if absent src then [srcRel] else [])), e)
    /\ transferOps e
       = (if Nat.eqb idx (len - 1) then
            if absent src then [Rename src dst]
            else if locked src then [Rename src dst; Copy src dst]
            else [Rename src dst]
          else [Copy src dst])
    /\ List.filter isNotification e = [].
Proof.
  intros src dst. unfold transferTo, joinOpt. cbn [fst snd].
  rewrite (then_resolved (ret (path_join env destinationPath d)) _ h _ []
             eq_refl).
  cbn [app]. rewrite app_nil_r. fold src dst.
  destruct (transferFile_scenario src dst (Nat.eqb idx (len - 1)) h)
    as (o & e1 & Htf & Hops & Hn & Hout).
  unfold catch_, then_. rewrite Htf.
  destruct (absent src) eqn:Habsent.
  - destruct Hout as (r & -> & Hc).
    destruct (codeIs_error _ _ Hc) as [er ->]. rewrite Hc.
    cbn. exists e1. rewrite app_nil_r. repeat split; try assumption.
    rewrite Hops. now destruct (Nat.eqb idx (len - 1)).
  - destruct (Nat.eqb idx (len - 1)); cbn [andb] in Hout.
    + destruct (locked src).
      * destruct Hout as (r & -> & Hc1 & Hc2).
        destruct (codeIs_error _ _ Hc2) as [er ->]. rewrite Hc1, Hc2.
        destruct (transferFile_scenario src dst false (h ++ e1))
          as (o2 & e2 & Htf2 & Hops2 & Hn2 & Hout2).
        rewrite Htf2. cbn in Hout2. rewrite Habsent in Hout2.
        subst o2. cbn. exists (e1 ++ e2 ++ []).
        rewrite !app_nil_r. repeat split.
        -- unfold transferOps in *. now rewrite omap_app, Hops, Hops2.
        -- now rewrite List.filter_app, Hn, Hn2.
      * subst o. cbn. exists (e1 ++ []). rewrite !app_nil_r.
        repeat split; assumption.
    + subst o. cbn. exists (e1 ++ []). rewrite !app_nil_r.
      repeat split; assumption.
Qed.

(** The expected operations for the destination at one index. *)
Let expectedAt (srcRel : string) (len : nat) (item : nat * option string)
    : list FsOp :=
  let src := path_join env tempPath srcRel in
  let dst := path_join env destinationPath (keyOfOpt (snd item)) in
  if Nat.eqb (fst item) (len - 1) then
    if absent src then [Rename src dst]
    else if locked src then [Rename src dst; Copy src dst]
    else [Rename src dst]
  else [Copy src dst].

Lemma transfers_of_source srcRel len (ds : list string) i missing h :
  let src := path_join env tempPath srcRel in
  exists e,
    foldSeries (transferTo env tempPath destinationPath srcRel len)
               (JsArray.indexedFrom i (map Some ds)) missing h
    = (Resolved (missing ++ (if absent src
                             then map (fun _ => srcRel) ds else [])), e)
    /\ transferOps e
       = flat_map (expectedAt srcRel len)
                  (JsArray.indexedFrom i (map Some ds))
    /\ List.filter isNotification e = [].
Proof.
  intros src. revert i missing h.
  induction ds as [|d ds IH]; intros i missing h;
    cbn [map JsArray.indexedFrom foldSeries flat_map].
  - exists []. destruct (absent src); now rewrite app_nil_r.
  - destruct (transferTo_scenario srcRel len missing i d h)
      as (e1 & Hstep & Hops1 & Hn1).
    destruct (IH (S i) (missing ++ (if absent src then [srcRel] else []))
                 (h ++ e1)) as (e2 & Hrest & Hops2 & Hn2).
    exists (e1 ++ e2). split; [|split].
    + erewrite then_resolved by exact Hstep. fold src. rewrite Hrest.
      cbn [fst snd]. f_equal. f_equal.
      rewrite <- app_assoc. f_equal. now destruct (absent src).
    + unfold transferOps in *. rewrite omap_app, Hops1, Hops2.
      unfold expectedAt at 2. cbn [fst snd keyOfOpt]. reflexivity.
    + now rewrite List.filter_app, Hn1, Hn2.
Qed.

Lemma all_defined (dests : list (option string)) :
  Forall (fun d => d <> None) dests -> dests = map Some (map keyOfOpt dests).
Proof.
  induction 1 as [|[d|] dests Hd _ IH]; cbn; [reflexivity| |congruence].
  now rewrite <- IH.
Qed.

Lemma transfers_of_entries (entries : Js.Obj (list (option string)))
    missing h :
  Forall (fun entry => Forall (fun d => d <> None) (snd entry)) entries ->
  exists e,
    foldSeries
      (fun missingFiles '(srcRel, dests) =>
         foldSeries
           (transferTo env tempPath destinationPath srcRel (length dests))
           (JsArray.indexed dests) missingFiles)
      entries missing h
    = (Resolved (missing
                 ++ flat_map (expectedMissing env absent tempPath) entries), e)
    /\ transferOps e
       = flat_map (expectedTransfers env absent locked tempPath destinationPath)
                  entries
    /\ List.filter isNotification e = [].
Proof.
  intros Hall. revert missing h.
  induction Hall as [|[srcRel dests] entries Hd _ IH]; intros missing h;
    cbn [foldSeries flat_map].
  - exists []. now rewrite app_nil_r.
  - destruct (transfers_of_source srcRel (length dests) (map keyOfOpt dests) 0
                missing h) as (e1 & Hsrc & Hops1 & Hn1).
    rewrite <- (all_defined dests Hd) in Hsrc, Hops1.
    destruct (IH (missing
                  ++ (if absent (path_join env tempPath srcRel)
                      then map (fun _ => srcRel) (map keyOfOpt dests)
                      else []))
                 (h ++ e1)) as (e2 & Hrest & Hops2 & Hn2).
    exists (e1 ++ e2). split; [|split].
    + erewrite then_resolved by exact Hsrc. rewrite Hrest.
      cbn [fst snd]. f_equal. f_equal. rewrite <- app_assoc. f_equal.
      f_equal. unfold expectedMissing. cbn [fst snd].
      destruct (absent (path_join env tempPath srcRel)); [|reflexivity].
      now rewrite !map_map.
    + unfold transferOps in *. rewrite omap_app, Hops1, Hops2. reflexivity.
    + now rewrite List.filter_app, Hn1, Hn2.
Qed.

End CopyStage.


Lemma copyEnv_scenario :
  CopyScenario Scenario.copyEnv Scenario.isGhost Scenario.isLocked.
Proof.
  constructor; cbn.
  - reflexivity.
  - reflexivity.
  - intros h p. right. eauto.
  - intros h s d. destruct (Scenario.isGhost s); eauto.
  - intros h s d. destruct (Scenario.isGhost s); [eauto|].
    destruct (Scenario.isLocked s); eauto.
Defined.


(** One step of the copy stage on any filesystem: a transfer that fails
    with ENOENT records the source and resolves; one that fails with EPERM
    is tried again as a copy, whose outcome is final. *)
Lemma transferTo_missing env tempPath destinationPath srcRel len missing idx d
    h r e1 :
  transferFile env (path_join env tempPath srcRel)
               (path_join env destinationPath d) (Nat.eqb idx (len - 1)) h
  = (Rejected r, e1) ->
  codeIs r "ENOENT" = true ->
  transferTo env tempPath destinationPath srcRel len missing (idx, Some d) h
  = (Resolved (missing ++ [srcRel]), e1).
Proof.
  intros Htf Hc. destruct (codeIs_error _ _ Hc) as [er ->].
  unfold transferTo, joinOpt. cbn [fst snd].
  rewrite (then_resolved (ret (path_join env destinationPath d)) _ h _ []
             eq_refl).
  cbn [app]. rewrite app_nil_r.
  unfold catch_, then_. rewrite Htf, Hc. cbn. now rewrite app_nil_r.
Qed.

Lemma transferTo_fallback env tempPath destinationPath srcRel len missing idx d
    h r e1 :
  transferFile env (path_join env tempPath srcRel)
               (path_join env destinationPath d) (Nat.eqb idx (len - 1)) h
  = (Rejected r, e1) ->
  codeIs r "ENOENT" = false -> codeIs r "EPERM" = true ->
  transferTo env tempPath destinationPath srcRel len missing (idx, Some d) h
  = (match fst (transferFile env (path_join env tempPath srcRel)
                             (path_join env destinationPath d) false (h ++ e1))
     with
     | Resolved _ => Resolved missing
     | Rejected r' => Rejected r'
     | Pending => Pending
     end,
     e1 ++ snd (transferFile env (path_join env tempPath srcRel)
                             (path_join env destinationPath d) false (h ++ e1))).
Proof.
  intros Htf Hc1 Hc2. destruct (codeIs_error _ _ Hc2) as [er ->].
  unfold transferTo, joinOpt. cbn [fst snd].
  rewrite (then_resolved (ret (path_join env destinationPath d)) _ h _ []
             eq_refl).
  cbn [app]. rewrite app_nil_r.
  erewrite catch_rejected by (apply then_rejected; exact Htf).
  cbv beta iota. rewrite Hc1, Hc2. unfold then_.
  destruct (transferFile env _ _ false (h ++ e1)) as [[[]|r'|] e2];
    cbn [fst snd ret]; now rewrite ?app_nil_r.
Qed.

(** ** Installing dependencies *)

Section Dependencies.

Context (env : Env) (fuel : nat) (mI : list IModInstaller) (profile : IProfile).

Lemma installDependency_policy downloads dep dl h :
  dlPromise env downloads dep = Some dl ->
  installDependency env fuel mI profile downloads dep h
  = match installOne env fuel mI profile dep dl h with
    | (Rejected r, e1) => (fst (dependencyPolicy r), e1 ++ snd (dependencyPolicy r))
    | other => other
    end.
Proof.
  intros Hdl. unfold installDependency. rewrite Hdl.
  unfold catch_ at 1. unfold catchClass at 1. unfold catch_ at 1.
  unfold catchClass at 1. unfold catch_ at 1.
  destruct (installOne env fuel mI profile dep dl h) as [[d|r|] e1];
    try reflexivity.
  unfold dependencyPolicy, alreadyReported.
  destruct r as [| |s|e]; cbn; rewrite ?app_nil_r; try reflexivity.
  destruct e as [cls msg code stack reported].
  destruct cls; cbn; rewrite ?app_nil_r; try reflexivity.
  destruct reported; cbn; now rewrite ?app_nil_r.
Qed.

(** The mapper is rejected with nothing but a [UserCanceled]. *)
Lemma installDependency_rejects downloads dep dl h r e :
  dlPromise env downloads dep = Some dl ->
  installDependency env fuel mI profile downloads dep h = (Rejected r, e) ->
  instanceOf r UserCanceled = true.
Proof.
  intros Hdl. rewrite (installDependency_policy downloads dep dl h Hdl).
  destruct (installOne env fuel mI profile dep dl h) as [[d|r'|] e1];
    try discriminate.
  unfold dependencyPolicy.
  destruct (instanceOf r' ProcessCanceled); [discriminate|].
  destruct (instanceOf r' NotFound); [discriminate|].
  destruct (instanceOf r' UserCanceled) eqn:Huc; [|discriminate].
  cbn. now intros [= <- _].
Qed.

Lemma doInstallDependencies_resolved sourceModId deps recommended h rs e :
  mapSeries (installDependency env fuel mI profile
               (persistent_downloads_files (getState env h))) deps h
  = (Resolved rs, e) ->
  doInstallDependencies env fuel mI profile sourceModId deps recommended h
  = (Resolved (filterDefined rs), e).
Proof.
  intros Hmap. unfold doInstallDependencies.
  unfold then_, catch_, catchClass, catch_. rewrite Hmap. cbn.
  now rewrite app_nil_r.
Qed.

Lemma doInstallDependencies_canceled sourceModId deps recommended h r e :
  mapSeries (installDependency env fuel mI profile
               (persistent_downloads_files (getState env h))) deps h
  = (Rejected r, e) ->
  instanceOf r UserCanceled = true ->
  doInstallDependencies env fuel mI profile sourceModId deps recommended h
  = (Resolved [], e).
Proof.
  intros Hmap Huc. unfold doInstallDependencies.
  unfold then_, catch_, catchClass, catch_. rewrite Hmap.
  destruct r as [| |s|er]; try discriminate.
  destruct er as [cls msg code stack reported].
  destruct cls; try discriminate. cbn. now rewrite !app_nil_r.
Qed.


End Dependencies.



(** ** What a batch of dependencies resolves to *)

Lemma then_inv_resolved {A B} (p : M A) (f : A -> M B) h b e :
  then_ p f h = (Resolved b, e) ->
  exists a e1 e2, p h = (Resolved a, e1)
                  /\ f a (h ++ e1) = (Resolved b, e2) /\ e = e1 ++ e2.
Proof.
  unfold then_. destruct (p h) as [[a|r|] e1]; try discriminate.
  destruct (f a (h ++ e1)) as [o e2] eqn:Hf. intros [= -> <-]. eauto 6.
Qed.

Lemma mapSeries_resolved {A B} (f : A -> M B) l h rs e :
  mapSeries f l h = (Resolved rs, e) ->
  Forall (fun r => exists x h' e', In x l /\ f x h' = (Resolved r, e')) rs.
Proof.
  revert h rs e. induction l as [|x l IH]; intros h rs e; cbn [mapSeries].
  - intros [= <- _]. constructor.
  - intros Hrun.
    apply then_inv_resolved in Hrun as (y & e1 & e2 & Hx & Hrest & ->).
    apply then_inv_resolved in Hrest as (ys & e3 & e4 & Hl & Hret & ->).
    injection Hret as <- _.
    constructor.
    + exists x, h, e1. split; [now left|assumption].
    + eapply Forall_impl; [exact (IH _ _ _ Hl)|].
      intros r (x' & h' & e' & Hin & Hf). exists x', h', e'.
      split; [now right|assumption].
Qed.

Lemma mapSeries_first_rejection {A B} (f : A -> M B) l r :
  (forall x h, (exists b e, f x h = (Resolved b, e))
               \/ fst (f x h) = Rejected r) ->
  Exists (fun x => forall h, fst (f x h) = Rejected r) l ->
  forall h, fst (mapSeries f l h) = Rejected r.
Proof.
  intros Hf Hex. induction Hex as [x l Hx|x l Hex IH]; intros h;
    cbn [mapSeries]; unfold then_ at 1.
  - specialize (Hx h). destruct (f x h) as [[b|r'|] e]; cbn in Hx;
      try discriminate. now injection Hx as ->.
  - destruct (Hf x h) as [(b & e & Hb)|Hr].
    + rewrite Hb. specialize (IH (h ++ e)). unfold then_.
      destruct (mapSeries f l (h ++ e)) as [[rs|r'|] e']; cbn in *;
        congruence.
    + destruct (f x h) as [[b|r'|] e]; cbn in Hr; try discriminate.
      now injection Hr as ->.
Qed.

Lemma mapSeries_all_resolve {A B} (f : A -> M B) l :
  (forall x, In x l -> forall h, exists b e, f x h = (Resolved b, e)) ->
  forall h, exists rs e, mapSeries f l h = (Resolved rs, e).
Proof.
  induction l as [|x l IH]; intros Hf h; cbn [mapSeries].
  - exists [], []. reflexivity.
  - destruct (Hf x (or_introl eq_refl) h) as (b & e1 & Hb).
    destruct (IH (fun y Hy => Hf y (or_intror Hy)) (h ++ e1))
      as (rs & e2 & Hrs).
    exists (b :: rs), (e1 ++ e2 ++ []).
    unfold then_. rewrite Hb. unfold then_. rewrite Hrs. reflexivity.
Qed.

Section BatchResult.

Context (env : Env) (fuel : nat) (mI : list IModInstaller) (profile : IProfile).

Lemma filterDefined_In {T} (l : list (option T)) x :
  In x (filterDefined l) <-> In (Some x) l.
Proof.
  induction l as [|[y|] l IH]; cbn; [tauto| |].
  - rewrite IH. split; [intros [->|]; auto|intros [[= ->]|]; auto].
  - rewrite IH. split; [auto|intros [|]; [discriminate|auto]].
Qed.

(** A dependency that comes out of [installOne] carries, as its mod, what
    the store holds under the game of the profile for the id the install
    resolved to. *)
Lemma installOne_resolved dep dl h d e :
  installOne env fuel mI profile dep dl h = (Resolved (Some d), e) ->
  exists modId,
    d = with_mod dep
          (Js.get (modsOf (getState env (h ++ e)) (profile_gameId profile))
                  (nullKey modId)).
Proof.
  unfold installOne. intros Hrun.
  apply then_inv_resolved in Hrun as (downloadId & e1 & e2 & _ & Hrun & ->).
  apply then_inv_resolved in Hrun as (modId & e3 & e4 & _ & Hrun & ->).
  apply then_inv_resolved in Hrun as ([] & e5 & e6 & _ & Hrun & ->).
  apply then_inv_resolved in Hrun as ([] & e7 & e8 & _ & Hrun & ->).
  exists modId. unfold modsOf.
  rewrite !app_assoc in *.
  destruct (Js.get (persistent_mods (getState env _)) (profile_gameId profile))
    as [mods|] eqn:Hmods; [|discriminate].
  injection Hrun as <- <-. rewrite app_nil_r. now rewrite Hmods.
Qed.

Lemma doInstallDependencies_from_mapper sourceModId deps recommended h ds e :
  doInstallDependencies env fuel mI profile sourceModId deps recommended h
  = (Resolved ds, e) ->
  ds = []
  \/ exists rs, mapSeries (installDependency env fuel mI profile
                             (persistent_downloads_files (getState env h)))
                          deps h = (Resolved rs, e)
                /\ ds = filterDefined rs.
Proof.
  unfold doInstallDependencies. intros Hrun.
  apply then_inv_resolved in Hrun as (rs & e1 & e2 & Hcatch & Hret & ->).
  injection Hret as <- <-. rewrite app_nil_r.
  unfold catch_ at 1, catchClass at 1, catch_ at 1, catchClass at 1,
         catch_ at 1 in Hcatch.
  destruct (mapSeries _ deps h) as [[rs'|r|] e0]; cbn in Hcatch.
  - injection Hcatch as <- <-. right. eauto.
  - left. destruct (instanceOf r ProcessCanceled); cbn in Hcatch.
    + now injection Hcatch as <- _.
    + destruct (instanceOf r UserCanceled); cbn in Hcatch.
      * now injection Hcatch as <- _.
      * destruct r; cbn in Hcatch; try discriminate;
          now injection Hcatch as <- _.
  - discriminate.
Qed.

Lemma updateRules_needs_mod sourceModId ds recommended h :
  Exists (fun d => dep_mod d = None) ds ->
  fst (updateRules env profile sourceModId ds recommended h)
  = Rejected (typeError "dep.mod.id").
Proof.
  intros Hex. unfold updateRules, each.
  match goal with
  | |- fst (then_ (mapSeries ?f ds) _ h) = _ =>
      pose proof (mapSeries_first_rejection f ds (typeError "dep.mod.id")) as Hm
  end.
  unfold then_.
  match type of Hm with
  | ?P -> ?Q -> _ => assert (H1 : P); [|assert (H2 : Q); [|specialize (Hm H1 H2 h)]]
  end.
  - intros d h'. destruct (dep_mod d); [left|right; reflexivity].
    unfold then_, dispatch, emit. cbn. eauto.
  - eapply Exists_impl; [exact Hex|]. cbn. intros d Hd h'. now rewrite Hd.
  - destruct (mapSeries _ ds h) as [[rs|r|] e]; cbn in *; congruence.
Qed.

Lemma updateRules_with_mods sourceModId ds recommended h :
  Forall (fun d => dep_mod d <> None) ds ->
  fst (updateRules env profile sourceModId ds recommended h) = Resolved tt.
Proof.
  intros Hall. unfold updateRules, each. unfold then_ at 1.
  match goal with
  | |- context [mapSeries ?f ds h] =>
      destruct (mapSeries_all_resolve f ds) with (h := h) as (rs & e & ->)
  end; [|reflexivity].
  rewrite Forall_forall in Hall.
  intros d Hd h'. apply list_elem_of_In in Hd. specialize (Hall d Hd).
  destruct (dep_mod d); [|congruence].
  unfold then_, dispatch, emit. cbn. eauto.
Qed.

Lemma installDependency_resolved downloads dep h d e :
  installDependency env fuel mI profile downloads dep h = (Resolved (Some d), e) ->
  exists dl, dlPromise env downloads dep = Some dl
             /\ installOne env fuel mI profile dep dl h = (Resolved (Some d), e).
Proof.
  intros Hrun.
  destruct (dlPromise env downloads dep) as [dl|] eqn:Hdl.
  - exists dl. split; [reflexivity|].
    rewrite (installDependency_policy env fuel mI profile downloads dep dl h Hdl)
      in Hrun.
    destruct (installOne env fuel mI profile dep dl h) as [[d'|r|] e1];
      [exact Hrun| |discriminate].
    exfalso. unfold dependencyPolicy in Hrun.
    destruct (instanceOf r ProcessCanceled); [discriminate|].
    destruct (instanceOf r NotFound); [discriminate|].
    destruct (instanceOf r UserCanceled); discriminate.
  - unfold installDependency in Hrun. rewrite Hdl in Hrun. discriminate.
Qed.


End BatchResult.



(** ** What the stages of a pipeline emit *)

Section Quiet.

Lemma quiet_apply {A} (p : M A) h :
  quiet p -> Forall (fun e => isFinish e = false) (snd (p h)).
Proof. intros Hp. apply Hp. Qed.

Lemma quiet_ret {A} (a : A) : quiet (ret a).
Proof. intros h. constructor. Qed.

Lemma quiet_reject {A} r : quiet (@reject A r).
Proof. intros h. constructor. Qed.

Lemma quiet_pending {A} : quiet (@pending A).
Proof. intros h. constructor. Qed.

Lemma quiet_emit e : isFinish e = false -> quiet (emit e).
Proof. intros He h. now repeat constructor. Qed.

Lemma quiet_ask {A} e (o : Trace -> Outcome A) :
  isFinish e = false -> quiet (ask e o).
Proof. intros He h. now repeat constructor. Qed.

Lemma quiet_then {A B} (p : M A) (f : A -> M B) :
  quiet p -> (forall a, quiet (f a)) -> quiet (then_ p f).
Proof.
  intros Hp Hf h. unfold then_. specialize (Hp h).
  destruct (p h) as [[a|r|] e1]; cbn in *; try assumption.
  specialize (Hf a (h ++ e1)). destruct (f a (h ++ e1)) as [o e2]. cbn in *.
  apply Forall_app. now split.
Qed.

Lemma quiet_catch {A} (p : M A) (f : Rejection -> M A) :
  quiet p -> (forall r, quiet (f r)) -> quiet (catch_ p f).
Proof.
  intros Hp Hf h. unfold catch_. specialize (Hp h).
  destruct (p h) as [[a|r|] e1]; cbn in *; try assumption.
  specialize (Hf r (h ++ e1)). destruct (f r (h ++ e1)) as [o e2]. cbn in *.
  apply Forall_app. now split.
Qed.

Lemma quiet_catchClass {A} cls (p : M A) (f : Rejection -> M A) :
  quiet p -> (forall r, quiet (f r)) -> quiet (catchClass cls p f).
Proof.
  intros Hp Hf. apply quiet_catch; [assumption|].
  intros r. destruct (instanceOf r cls); [apply Hf|apply quiet_reject].
Qed.

Lemma quiet_finally {A} (p : M A) (f : M unit) :
  quiet p -> quiet f -> quiet (finally_ p f).
Proof.
  intros Hp Hf h. unfold finally_. specialize (Hp h).
  destruct (p h) as [o e1]. cbn in *.
  specialize (Hf (h ++ e1)).
  destruct o; try assumption;
    destruct (f (h ++ e1)) as [[u|r'|] e2]; cbn in *;
    apply Forall_app; now split.
Qed.

Lemma quiet_mapSeries {A B} (f : A -> M B) l :
  (forall x, quiet (f x)) -> quiet (mapSeries f l).
Proof.
  intros Hf. induction l as [|x l IH]; cbn [mapSeries].
  - apply quiet_ret.
  - apply quiet_then; [apply Hf|]. intros y.
    apply quiet_then; [apply IH|]. intros ys. apply quiet_ret.
Qed.

Lemma quiet_each {A B} (f : A -> M B) l :
  (forall x, quiet (f x)) -> quiet (each f l).
Proof.
  intros Hf. apply quiet_then; [now apply quiet_mapSeries|].
  intros _. apply quiet_ret.
Qed.

Lemma quiet_foldSeries {A S} (f : S -> A -> M S) l s :
  (forall s x, quiet (f s x)) -> quiet (foldSeries f l s).
Proof.
  intros Hf. revert s. induction l as [|x l IH]; intros s; cbn [foldSeries].
  - apply quiet_ret.
  - apply quiet_then; [apply Hf|]. intros s'. apply IH.
Qed.

Lemma quiet_mapAll {A B} (f : A -> M B) l :
  (forall x, quiet (f x)) -> quiet (mapAll f l).
Proof.
  intros Hf. induction l as [|x l IH]; cbn [mapAll].
  - apply quiet_ret.
  - intros h. specialize (Hf x h). destruct (f x h) as [o1 e1].
    specialize (IH (h ++ e1)). destruct (mapAll f l (h ++ e1)) as [o2 e2].
    cbn in *. apply Forall_app. now split.
Qed.

End Quiet.

(** One step of a proof that a computation is quiet: the chain it is made
    of, or a case distinction it starts with. *)
Ltac quiet_step :=
  match goal with
  | |- quiet (then_ _ _) => apply quiet_then; [|intros ?]
  | |- quiet (catch_ _ _) => apply quiet_catch; [|intros ?]
  | |- quiet (catchClass _ _ _) => apply quiet_catchClass; [|intros ?]
  | |- quiet (finally_ _ _) => apply quiet_finally
  | |- quiet (ret _) => apply quiet_ret
  | |- quiet (reject _) => apply quiet_reject
  | |- quiet pending => apply quiet_pending
  | |- quiet (emit _) => apply quiet_emit; reflexivity
  | |- quiet (ask _ _) => apply quiet_ask; reflexivity
  | |- quiet (each _ _) => apply quiet_each; intros ?
  | |- quiet (mapSeries _ _) => apply quiet_mapSeries; intros ?
  | |- quiet (mapAll _ _) => apply quiet_mapAll; intros ?
  | |- quiet (foldSeries _ _ _) => apply quiet_foldSeries; intros ? ?
  | |- quiet (match ?x with _ => _ end) => destruct x
  | |- quiet (let '(_, _) := ?x in _) => destruct x
  | |- quiet (fun _ => _) => let h := fresh "h" in intros h; cbv beta
  | |- Forall _ (snd (match ?x with _ => _ end)) => destruct x
  | |- Forall _ (snd (let '(_, _) := ?x in _)) => destruct x
  | |- Forall _ (snd (_, _)) => cbn [snd]
  | |- Forall _ [] => constructor
  | |- Forall _ (snd (?p ?h)) => apply (quiet_apply p h)
  end.

Create HintDb quiet discriminated.

Ltac quiet_solve :=
  repeat first [ solve [auto with quiet nocore] | quiet_step ].

Section QuietStages.

Context (env : Env).

Lemma quiet_askFs op : quiet (askFs env op).
Proof. intros h. cbn. now repeat constructor. Qed.

Lemma quiet_askStat p : quiet (askStat env p).
Proof. intros h. cbn. now repeat constructor. Qed.

Lemma quiet_askWalk p : quiet (askWalk env p).
Proof. intros h. cbn. now repeat constructor. Qed.

Lemma quiet_dispatch a : quiet (dispatch a).
Proof. intros h. cbn. now repeat constructor. Qed.

Lemma quiet_dialogPromise {A} ty title labels (k : IDialogResult -> M A) :
  (forall r, quiet (k r)) -> quiet (dialogPromise env ty title labels k).
Proof.
  intros Hk h. unfold dialogPromise.
  destruct (showDialog env h title) as [r| |]; cbn; try now repeat constructor.
  specialize (Hk r (h ++ [EvShowDialog ty title labels])).
  destruct (k r _) as [o e]. cbn in *. now constructor.
Qed.

Hint Resolve quiet_askFs quiet_askStat quiet_askWalk quiet_dispatch : quiet.

Lemma quiet_getInstallerFrom l fl g : quiet (getInstallerFrom l fl g).
Proof. induction l as [|x l IH]; cbn [getInstallerFrom]; quiet_solve. Qed.

Lemma quiet_getInstaller l fl g o : quiet (getInstaller l fl g o).
Proof. unfold getInstaller. apply quiet_getInstallerFrom. Qed.

Hint Resolve quiet_getInstaller : quiet.

Lemma quiet_queryContinue errors : quiet (queryContinue env errors).
Proof. unfold queryContinue. apply quiet_dialogPromise. intros r. quiet_solve. Qed.

Hint Resolve quiet_queryContinue : quiet.

Lemma quiet_extractStage a t c : quiet (extractStage env a t c).
Proof. unfold extractStage. quiet_solve. Qed.

Lemma quiet_enumerateFiles t : quiet (enumerateFiles env t).
Proof. unfold enumerateFiles. quiet_solve. Qed.

Lemma quiet_selectAndRun mI t g c x u fl :
  quiet (selectAndRun env mI t g c x u fl).
Proof. unfold selectAndRun. quiet_solve. Qed.

Hint Resolve quiet_extractStage quiet_enumerateFiles quiet_selectAndRun : quiet.

Lemma quiet_installInner mI a t d g c ch x u :
  quiet (installInner env mI a t d g c ch x u).
Proof. unfold installInner. quiet_solve. Qed.

Lemma quiet_determineModType g i : quiet (determineModType env g i).
Proof. unfold determineModType. quiet_solve. Qed.

Lemma quiet_reportUnsupported u a : quiet (reportUnsupported u a).
Proof. unfold reportUnsupported. quiet_solve. Qed.

Lemma quiet_joinOpt b r : quiet (joinOpt env b r).
Proof. unfold joinOpt. quiet_solve. Qed.

Hint Resolve quiet_installInner quiet_determineModType quiet_reportUnsupported
  quiet_joinOpt : quiet.

Lemma quiet_processMKDir l d : quiet (processMKDir env l d).
Proof. unfold processMKDir. quiet_solve. Qed.

Lemma quiet_processGenerateFiles l d : quiet (processGenerateFiles env l d).
Proof. unfold processGenerateFiles. quiet_solve. Qed.

Lemma quiet_processAttribute l g m : quiet (processAttribute l g m).
Proof. unfold processAttribute. quiet_solve. Qed.

Lemma quiet_processSetModType l g m : quiet (processSetModType l g m).
Proof. unfold processSetModType. quiet_solve. Qed.

Lemma quiet_processRule l g m : quiet (processRule l g m).
Proof. unfold processRule. quiet_solve. Qed.

Lemma quiet_processIniEdits l d : quiet (processIniEdits env l d).
Proof. unfold processIniEdits. quiet_solve. Qed.

Lemma quiet_fixDestination s d : quiet (fixDestination env s d).
Proof. unfold fixDestination. quiet_solve. Qed.

Hint Resolve quiet_processMKDir quiet_processGenerateFiles
  quiet_processAttribute quiet_processSetModType quiet_processRule
  quiet_processIniEdits quiet_fixDestination : quiet.

Lemma quiet_transferFile s d m : quiet (transferFile env s d m).
Proof. unfold transferFile. quiet_solve. Qed.

Hint Resolve quiet_transferFile : quiet.

Lemma quiet_transferTo t d s len missing item :
  quiet (transferTo env t d s len missing item).
Proof. unfold transferTo. quiet_solve. Qed.

Hint Resolve quiet_transferTo : quiet.

Lemma quiet_transferAll t d copies : quiet (transferAll env t d copies).
Proof. unfold transferAll. quiet_solve. Qed.

Hint Resolve quiet_transferAll : quiet.

Lemma quiet_extractArchive a t d copies : quiet (extractArchive env a t d copies).
Proof. unfold extractArchive, missingFilesWarning. quiet_solve. Qed.

Lemma quiet_reportErrors errors : quiet (reportErrors errors).
Proof. unfold reportErrors. quiet_solve. Qed.

Hint Resolve quiet_extractArchive quiet_reportErrors : quiet.

Lemma quiet_processSubmodule inner mI l d g m :
  (forall a t d' g' m' r, quiet (inner a t d' g' m' r)) ->
  quiet (processSubmodule env inner mI l d g m).
Proof. intros Hinner. unfold processSubmodule. quiet_solve. Qed.

Lemma quiet_executeGroups inner mI a t d g m groups :
  (forall a t d' g' m' r, quiet (inner a t d' g' m' r)) ->
  quiet (executeGroups env inner mI a t d g m groups).
Proof.
  intros Hinner. unfold executeGroups.
  pose proof (quiet_processSubmodule inner mI (grp_submodule groups) d g m
                Hinner).
  quiet_solve.
Qed.

Lemma quiet_processInstructionsWith inner mI a t d g m r :
  (forall a t d' g' m' r, quiet (inner a t d' g' m' r)) ->
  quiet (processInstructionsWith env inner mI a t d g m r).
Proof.
  intros Hinner. unfold processInstructionsWith.
  pose proof (fun groups =>
                quiet_executeGroups inner mI a t d g m groups Hinner).
  quiet_solve.
Qed.

Lemma quiet_processInstructions fuel mI a t d g m r :
  quiet (processInstructions env fuel mI a t d g m r).
Proof.
  revert a t d g m r. induction fuel as [|fuel IH]; intros a t d g m r;
    rewrite processInstructions_unfold;
    apply quiet_processInstructionsWith; cbn [processNested].
  - intros. apply quiet_pending.
  - intros. apply IH.
Qed.

Lemma quiet_userVersionChoice old : quiet (userVersionChoice env old).
Proof.
  unfold userVersionChoice. apply quiet_dialogPromise. intros r. quiet_solve.
Qed.

Lemma quiet_emitRemoveMod g m : quiet (emitRemoveMod env g m).
Proof. unfold emitRemoveMod. quiet_solve. Qed.

Hint Resolve quiet_emitRemoveMod : quiet.

Lemma quiet_queryUserReplace m g : quiet (queryUserReplace env m g).
Proof.
  unfold queryUserReplace. intros h.
  destruct (Js.get _ g); [|constructor].
  apply quiet_apply, quiet_dialogPromise. intros r. quiet_solve.
Qed.

End QuietStages.

#[global] Hint Resolve quiet_askFs quiet_askStat quiet_askWalk quiet_dispatch
  quiet_getInstaller quiet_queryContinue quiet_installInner
  quiet_determineModType quiet_processInstructions quiet_userVersionChoice
  quiet_emitRemoveMod quiet_queryUserReplace : quiet.

(** ** Where the pipeline tells how it ended *)

Section Finish.

Lemma quiet_no_finish (l pre post : list Event) status :
  Forall (fun e => isFinish e = false) l ->
  l <> pre ++ EvCtx (finishInstallCB status) :: post.
Proof.
  intros Hl ->. apply Forall_app in Hl as [_ Hl].
  apply Forall_cons_1 in Hl as [Hl _]. discriminate Hl.
Qed.

Lemma finish_after_quiet (l1 l2 pre post : list Event) status :
  Forall (fun e => isFinish e = false) l1 ->
  l1 ++ l2 = pre ++ EvCtx (finishInstallCB status) :: post ->
  exists pre', pre = l1 ++ pre'
               /\ l2 = pre' ++ EvCtx (finishInstallCB status) :: post.
Proof.
  revert pre. induction l1 as [|x l1 IH]; intros pre Hl Heq.
  - exists pre. split; [reflexivity | exact Heq].
  - apply Forall_cons_1 in Hl as [Hx Hl]. destruct pre as [|y pre].
    + cbn in Heq. injection Heq as -> _. discriminate Hx.
    + cbn in Heq. injection Heq as -> Heq.
      destruct (IH pre Hl Heq) as (pre' & -> & H2).
      exists pre'. split; [reflexivity | exact H2].
Qed.

End Finish.

(** ** The stages of [install] before its outcome is known *)

Section QuietPipeline.

Context (env : Env).

Lemma quietI_apply {A} (p : MI A) v h :
  quietI p -> Forall (fun e => isFinish e = false) (snd (p v h)).
Proof. intros Hp. apply Hp. Qed.

Lemma quietI_retI {A} (a : A) : quietI (retI a).
Proof. intros v h. constructor. Qed.

Lemma quietI_rejectI {A} r : quietI (@rejectI A r).
Proof. intros v h. constructor. Qed.

Lemma quietI_getV : quietI getV.
Proof. intros v h. constructor. Qed.

Lemma quietI_setV f : quietI (setV f).
Proof. intros v h. constructor. Qed.

Lemma quietI_lift {A} (p : M A) : quiet p -> quietI (lift p).
Proof.
  intros Hp v h. unfold lift. specialize (Hp h).
  destruct (p h) as [o e]. exact Hp.
Qed.

Lemma quietI_thenI {A B} (p : MI A) (f : A -> MI B) :
  quietI p -> (forall a, quietI (f a)) -> quietI (thenI p f).
Proof.
  intros Hp Hf v h. unfold thenI. specialize (Hp v h).
  destruct (p v h) as [[[a| |] v1] e1]; cbn in *; try exact Hp.
  specialize (Hf a v1 (h ++ e1)).
  destruct (f a v1 (h ++ e1)) as [ov e2]. cbn in *.
  apply Forall_app. split; assumption.
Qed.

Lemma quietI_catchI {A} (p : MI A) (f : Rejection -> MI A) :
  quietI p -> (forall r, quietI (f r)) -> quietI (catchI p f).
Proof.
  intros Hp Hf v h. unfold catchI. specialize (Hp v h).
  destruct (p v h) as [[[a|r|] v1] e1]; cbn in *; try exact Hp.
  specialize (Hf r v1 (h ++ e1)).
  destruct (f r v1 (h ++ e1)) as [ov e2]. cbn in *.
  apply Forall_app. split; assumption.
Qed.

Lemma quietI_tapI {A B} (p : MI A) (f : A -> MI B) :
  quietI p -> (forall a, quietI (f a)) -> quietI (tapI p f).
Proof.
  intros Hp Hf. unfold tapI. apply quietI_thenI; [exact Hp|].
  intros a. apply quietI_thenI; [apply Hf|]. intros _. apply quietI_retI.
Qed.

Lemma quietI_checkNameLoop fuel gameId testModId :
  quietI (checkNameLoop env fuel gameId testModId).
Proof.
  revert testModId. induction fuel as [|fuel IH]; intros testModId v h;
    cbn [checkNameLoop]; destruct (checkModExists _ _ _);
    try (cbn; constructor).
  apply (quietI_apply _ v h). apply quietI_thenI.
  - apply quietI_lift, quiet_queryUserReplace.
  - intros choice. apply quietI_thenI; [apply quietI_setV|].
    intros _. apply IH.
Qed.

Lemma quietI_versionChoice currentProfile gameId modInfo :
  quietI (versionChoice env currentProfile gameId modInfo).
Proof.
  intros v h. unfold versionChoice. cbv zeta.
  set (oldMod := match mi_fileId modInfo with
                 | Js.VUndefined => None
                 | _ => _
                 end).
  destruct oldMod as [old|]; [destruct currentProfile as [profile|]|];
    try (cbn; constructor).
  apply quietI_apply. apply quietI_thenI.
  - apply quietI_lift, quiet_userVersionChoice.
  - intros act. destruct (String.eqb act "Install").
    + apply quietI_thenI; [apply quietI_setV|]. intros _.
      destruct (modEnabled profile (mod_id old)).
      * apply quietI_lift, quiet_emit. reflexivity.
      * apply quietI_retI.
    + destruct (String.eqb act "Replace"); [|apply quietI_retI].
      apply quietI_thenI; [apply quietI_setV|]. intros _.
      apply quietI_thenI; [apply quietI_lift, quiet_emitRemoveMod|].
      intros _. apply quietI_setV.
Qed.

End QuietPipeline.

Ltac quietI_step :=
  match goal with
  | |- quietI (thenI _ _) => apply quietI_thenI; [|intros ?]
  | |- quietI (catchI _ _) => apply quietI_catchI; [|intros ?]
  | |- quietI (tapI _ _) => apply quietI_tapI; [|intros ?]
  | |- quietI (retI _) => apply quietI_retI
  | |- quietI (rejectI _) => apply quietI_rejectI
  | |- quietI getV => apply quietI_getV
  | |- quietI (setV _) => apply quietI_setV
  | |- quietI (lift _) => apply quietI_lift; quiet_solve
  | |- quietI (checkNameLoop _ _ _ _) => apply quietI_checkNameLoop
  | |- quietI (versionChoice _ _ _ _) => apply quietI_versionChoice
  | |- quietI (match ?x with _ => _ end) => destruct x
  end.

Section QuietStagesOfInstall.

Context (env : Env).

Lemma quietI_installStages fuel mInstallers a currentProfile baseName :
  quietI (installStages env fuel mInstallers a currentProfile baseName).
Proof.
  unfold installStages. cbv zeta. repeat quietI_step.
Qed.

End QuietStagesOfInstall.

(** ** The end of [install]: clean-up and outcome *)

Section EndOfInstall.

Context (env : Env).

Lemma thenI_getV {B} (f : Vars -> MI B) v h : thenI getV f v h = f v v h.
Proof.
  unfold thenI, getV. rewrite app_nil_r.
  destruct (f v v h) as [ov e]. reflexivity.
Qed.

Lemma removeStaging_eq v h :
  removeStaging env v h =
    match v_tempPath v with
    | Some t =>
        ((fs env h (Remove t), v),
         [EvFs (Remove t) (isResolved (fs env h (Remove t)))])
    | None => ((Resolved tt, v), [])
    end.
Proof.
  unfold removeStaging. rewrite thenI_getV.
  destruct (v_tempPath v); reflexivity.
Qed.

Lemma stopInstallIndicator_eq v h :
  stopInstallIndicator v h =
    ((Resolved tt, v),
     if v_installContext v then [EvCtx (stopIndicator (v_modId v))] else []).
Proof.
  unfold stopInstallIndicator. rewrite thenI_getV.
  destruct (v_installContext v); reflexivity.
Qed.

Lemma quiet_cleanDestination dp : quiet (cleanDestination env dp).
Proof. unfold cleanDestination. quiet_solve. Qed.

(** When the clean-up of the destination resolves, it has called
    [fs.removeAsync] on the destination, the call was answered, and a
    failure other than [UserCanceled] was reported. *)
Lemma cleanDestination_resolved d h es :
  cleanDestination env (Some d) h = (Resolved tt, es) ->
  es = cleanupEvents env d h /\ fs env h (Remove d) <> Pending.
Proof.
  unfold cleanDestination, catchClass, catch_, askFs, cleanupEvents.
  cbv zeta. destruct (fs env h (Remove d)) as [[]|r|]; cbn.
  - intros H. injection H as <-. split; [reflexivity | discriminate].
  - destruct (instanceOf r UserCanceled); cbn.
    + intros H. injection H as <-. split; [reflexivity | discriminate].
    + destruct r; cbn; intros H; try discriminate H;
        injection H as <-; (split; [reflexivity | discriminate]).
  - discriminate.
Qed.

End EndOfInstall.

Section OutcomeOfInstall.

Context (env : Env).

(** The shape of what a handler of [install] adds: either no call of
    [finishInstallCB], or the clean-up, one call of it, and a rest without
    any. *)
Lemma prom_then_shape dp (ic : bool) st (k : M unit) h :
  quiet k ->
  exists o es,
    then_ (then_ (cleanDestination env dp)
                 (fun _ => if ic then emit (EvCtx (finishInstallCB st))
                           else ret tt))
          (fun _ => k) h = (o, es)
    /\ (Forall (fun e => isFinish e = false) es
        \/ exists clean rest,
             es = clean ++ EvCtx (finishInstallCB st) :: rest
             /\ Forall (fun e => isFinish e = false) clean
             /\ Forall (fun e => isFinish e = false) rest
             /\ forall d, dp = Some d ->
                  clean = cleanupEvents env d h
                  /\ fs env h (Remove d) <> Pending).
Proof.
  intros Hk. pose proof (quiet_cleanDestination env dp h) as Hq.
  unfold then_.
  destruct (cleanDestination env dp h) as [[[]|r|] ec] eqn:Hc; cbn in Hq.
  - destruct ic; cbn.
    + pose proof (Hk (h ++ ec ++ [EvCtx (finishInstallCB st)])) as Hk'.
      destruct (k _) as [o e2]. cbn in Hk'.
      exists o, ((ec ++ [EvCtx (finishInstallCB st)]) ++ e2).
      split; [reflexivity|]. right. exists ec, e2.
      split; [now rewrite <- app_assoc|].
      split; [exact Hq|]. split; [exact Hk'|].
      intros d ->. apply cleanDestination_resolved. exact Hc.
    + pose proof (Hk (h ++ ec ++ [])) as Hk'.
      destruct (k _) as [o e2]. cbn in Hk'.
      exists o, ((ec ++ []) ++ e2). split; [reflexivity|]. left.
      rewrite app_nil_r. apply Forall_app. split; assumption.
  - exists (Rejected r), ec. split; [reflexivity|]. left. exact Hq.
  - exists Pending, ec. split; [reflexivity|]. left. exact Hq.
Qed.

End OutcomeOfInstall.

Lemma quiet_callback a error id : quiet (callback a error id).
Proof. unfold callback. quiet_solve. Qed.

#[global] Hint Resolve quiet_callback quiet_cleanDestination : quiet.

Section HandlersOfInstall.

Context (env : Env).

Ltac use_prom_shape :=
  match goal with
  | |- context [lift (then_ (then_ (cleanDestination env ?dp)
                                   (fun _ => if ?ic
                                             then emit (EvCtx (finishInstallCB ?st))
                                             else ret tt))
                            (fun _ => ?k)) ?v ?h] =>
      let o := fresh "o" in
      let es := fresh "es" in
      let Heq := fresh "Heq" in
      let Hshape := fresh "Hshape" in
      destruct (prom_then_shape env dp ic st k h) as (o & es & Heq & Hshape);
      [ quiet_solve
      | unfold lift; rewrite Heq; exists o, es; split; [reflexivity|];
        destruct Hshape as [Hshape|(clean & rest & -> & Hc & Hr & Hd)];
        [ left; exact Hshape
        | right; exists st, clean, rest; repeat split;
          solve [ assumption | discriminate | apply Hd; assumption ] ] ]
  end.

(** The [catch] of [install] leaves the variables as they are; when it
    tells the context how the pipeline ended, it says [canceled] or
    [failed], once, right after the clean-up of the destination. *)
Lemma handleFailure_shape a err v h :
  exists o es,
    handleFailure env a err v h = ((o, v), es) /\ failureShape env v h es.
Proof.
  unfold handleFailure, failureShape. rewrite thenI_getV.
  assert (Hundef : exists o es,
             @rejectI unit (typeError "err.message") v h = ((o, v), es)
             /\ failureShape env v h es).
  { eexists _, _. split; [reflexivity|]. left. constructor. }
  destruct err as [| |s|e]; [exact Hundef| | |]; cbv zeta;
    destruct (isCanceled _); try use_prom_shape;
    repeat (match goal with
            | |- context [if instanceOf ?r ?c then _ else _] =>
                destruct (instanceOf r c)
            end; try use_prom_shape).
Qed.

End HandlersOfInstall.

Section SuccessOfInstall.

Context (env : Env).

(** The success path leaves the variables as they are; when it tells the
    context how the pipeline ended, it says [success], once, right after
    the mod info was filtered. *)
Lemma finishSuccess_shape a currentProfile v h :
  exists o es,
    finishSuccess env a currentProfile v h = ((o, v), es)
    /\ successShape v es.
Proof.
  unfold finishSuccess, successShape. rewrite thenI_getV.
  unfold thenI at 1, lift at 1, ask at 1.
  destruct (filterModInfo env h (v_fullInfo v) (v_destinationPath v))
    as [modInfo|r|].
  - rewrite thenI_getV.
    match goal with
    | |- context [lift (then_ (emit ?e) (fun _ => ?k)) v ?h'] =>
        pose proof (quiet_apply k (h' ++ [e])) as Hk;
        unfold lift, then_ at 1, emit at 1;
        destruct (k (h' ++ [e])) as [o es]
    end.
    eexists _, _. split; [reflexivity|]. right. eexists. split; [reflexivity|].
    apply Hk. quiet_solve.
  - eexists _, _. split; [reflexivity|]. left. now repeat constructor.
  - eexists _, _. split; [reflexivity|]. left. now repeat constructor.
Qed.

End SuccessOfInstall.

(** ** The layers of the chain of [install] *)

Section Layers.

Context (env : Env) (a : InstallArgs) (currentProfile : option IProfile).

(** The first [finally]: whenever the stages settle, [fs.removeAsync] is
    called on the staging directory if [tempPath] was assigned, and the
    chain goes on as resolved only if that call succeeded. *)
Lemma staging_layer (stages : MI unit) v0 h0 :
  quietI stages ->
  exists o12 v1 e12,
    finallyI stages (removeStaging env) v0 h0 = ((o12, v1), e12)
    /\ Forall (fun e => isFinish e = false) e12
    /\ forall t, v_tempPath v1 = Some t -> o12 <> Pending ->
         exists ok, In (EvFs (Remove t) ok) e12
                    /\ (o12 = Resolved tt -> ok = true).
Proof.
  intros Hq. specialize (Hq v0 h0). unfold finallyI.
  destruct (stages v0 h0) as [[o1 v1] e1]. cbn [snd] in Hq.
  assert (Hrun : forall o, o <> Pending ->
            exists o12 e12,
              match removeStaging env v1 (h0 ++ e1) with
              | (Resolved _, v2, e2) => ((o : Outcome unit), v2, e1 ++ e2)
              | (Rejected r, v2, e2) => (Rejected r, v2, e1 ++ e2)
              | (Pending, v2, e2) => (Pending, v2, e1 ++ e2)
              end = ((o12, v1), e12)
              /\ Forall (fun e => isFinish e = false) e12
              /\ forall t, v_tempPath v1 = Some t -> o12 <> Pending ->
                   exists ok, In (EvFs (Remove t) ok) e12
                              /\ (o12 = Resolved tt -> ok = true)).
  { intros o Ho. rewrite removeStaging_eq.
    destruct (v_tempPath v1) as [t|].
    - destruct (fs env (h0 ++ e1) (Remove t)) as [[]|r|];
        eexists _, _; (split; [reflexivity|]);
        (split; [apply Forall_app; split; [exact Hq | now repeat constructor]|]);
        intros t' Ht' Hp; injection Ht' as <-; try (now destruct Hp);
        eexists; (split; [apply in_or_app; right; left; reflexivity|]);
        cbn; intros; congruence.
    - eexists _, _. split; [reflexivity|]. rewrite app_nil_r.
      split; [exact Hq|]. intros t Ht. discriminate Ht. }
  destruct o1 as [[]|r|].
  - destruct (Hrun (Resolved tt)) as (o12 & e12 & H); [discriminate|].
    exists o12, v1, e12. exact H.
  - destruct (Hrun (Rejected r)) as (o12 & e12 & H); [discriminate|].
    exists o12, v1, e12. exact H.
  - exists Pending, v1, e1. split; [reflexivity|]. split; [exact Hq|].
    intros t _ Hp. now destruct Hp.
Qed.

(** The success path runs only on a resolved chain. *)
Lemma success_layer (p : MI unit) v0 h0 o12 v1 e12 :
  p v0 h0 = ((o12, v1), e12) ->
  exists o3 t3,
    thenI p (fun _ => finishSuccess env a currentProfile) v0 h0
    = ((o3, v1), e12 ++ t3)
    /\ (o12 = Pending -> o3 = Pending)
    /\ (Forall (fun e => isFinish e = false) t3
        \/ (o12 = Resolved tt /\ successShape v1 t3)).
Proof.
  intros Hp. unfold thenI. rewrite Hp. destruct o12 as [[]|r|].
  - destruct (finishSuccess_shape env a currentProfile v1 (h0 ++ e12))
      as (o3 & t3 & -> & Hs).
    exists o3, t3. split; [reflexivity|]. split; [discriminate|].
    right. split; [reflexivity | exact Hs].
  - exists (Rejected r), []. rewrite app_nil_r. split; [reflexivity|].
    split; [discriminate|]. left. constructor.
  - exists Pending, []. rewrite app_nil_r. split; [reflexivity|].
    split; [reflexivity|]. left. constructor.
Qed.

(** The [catch] runs only on a rejected chain. *)
Lemma failure_layer (p : MI unit) v0 h0 o3 v1 e3 :
  p v0 h0 = ((o3, v1), e3) ->
  exists o4 t4,
    catchI p (handleFailure env a) v0 h0 = ((o4, v1), e3 ++ t4)
    /\ (o3 = Pending -> o4 = Pending)
    /\ (Forall (fun e => isFinish e = false) t4
        \/ (o3 <> Pending /\ failureShape env v1 (h0 ++ e3) t4)).
Proof.
  intros Hp. unfold catchI. rewrite Hp. destruct o3 as [[]|r|].
  - exists (Resolved tt), []. rewrite app_nil_r. split; [reflexivity|].
    split; [discriminate|]. left. constructor.
  - destruct (handleFailure_shape env a r v1 (h0 ++ e3))
      as (o4 & t4 & -> & Hs).
    exists o4, t4. split; [reflexivity|]. split; [discriminate|].
    right. split; [discriminate|]. exact Hs.
  - exists Pending, []. rewrite app_nil_r. split; [reflexivity|].
    split; [reflexivity|]. left. constructor.
Qed.

(** The last [finally] only stops the indicator. *)
Lemma final_layer (p : MI unit) v0 h0 o4 v1 e4 :
  p v0 h0 = ((o4, v1), e4) ->
  exists o t5,
    finallyI p stopInstallIndicator v0 h0 = ((o, v1), e4 ++ t5)
    /\ (o4 = Pending -> o = Pending)
    /\ Forall (fun e => isFinish e = false) t5.
Proof.
  intros Hp. unfold finallyI. rewrite Hp.
  rewrite stopInstallIndicator_eq.
  destruct o4 as [[]|r|].
  - eexists _, _. split; [reflexivity|]. split; [discriminate|].
    destruct (v_installContext v1); now repeat constructor.
  - eexists _, _. split; [reflexivity|]. split; [discriminate|].
    destruct (v_installContext v1); now repeat constructor.
  - exists Pending, []. rewrite app_nil_r. split; [reflexivity|].
    split; [reflexivity|]. constructor.
Qed.

End Layers.

Section Cleanup.

Context (env : Env).

(** A call of [finishInstallCB] found in what the [catch] and the last
    [finally] add is the one of the [catch]: the status is not [success]
    and it comes right after the clean-up of the destination. *)
Lemma failure_tail (o3 : Outcome unit) v1 h4 t4 t5 pre status post :
  Forall (fun e => isFinish e = false) t4
  \/ (o3 <> Pending /\ failureShape env v1 h4 t4) ->
  Forall (fun e => isFinish e = false) t5 ->
  t4 ++ t5 = pre ++ EvCtx (finishInstallCB status) :: post ->
  o3 <> Pending
  /\ status <> "success"
  /\ forall d, v_destinationPath v1 = Some d ->
       pre = cleanupEvents env d h4 /\ fs env h4 (Remove d) <> Pending.
Proof.
  intros Hs4 Hq5 Heq.
  destruct Hs4 as [Hq4|[Ho3 [Hq4|(st & clean & rest & -> & Hst & Hc & Hr & Hd)]]].
  - exfalso. eapply quiet_no_finish; [|exact Heq].
    apply Forall_app. split; assumption.
  - exfalso. eapply quiet_no_finish; [|exact Heq].
    apply Forall_app. split; assumption.
  - rewrite <- app_assoc in Heq.
    destruct (finish_after_quiet _ _ _ _ _ Hc Heq) as (pre' & -> & Heq').
    destruct pre' as [|y pre'].
    + cbn in Heq'. injection Heq' as -> _.
      rewrite app_nil_r. split; [exact Ho3|]. split; [exact Hst|]. exact Hd.
    + exfalso. cbn in Heq'. injection Heq' as _ Heq'.
      eapply quiet_no_finish; [|exact Heq'].
      apply Forall_app. split; assumption.
Qed.

End Cleanup.

(** ** The variables of [install] *)

Section VarsOfStages.

Lemma hoare_weaken {A} (P P' : Vars -> Prop) (p : MI A)
    (Q Q' : A -> Vars -> Prop) (R R' : Vars -> Prop) :
  hoare P p Q R ->
  (forall v, P' v -> P v) -> (forall x v, Q x v -> Q' x v) ->
  (forall v, R v -> R' v) ->
  hoare P' p Q' R'.
Proof.
  intros Hp HP HQ HR v h Hv. specialize (Hp v h (HP v Hv)).
  destruct (p v h) as [[[x|r|] v'] e]; auto.
Qed.

Lemma hoare_thenI {A B} (P : Vars -> Prop) (p : MI A) (f : A -> MI B)
    (Q : A -> Vars -> Prop) (Q' : B -> Vars -> Prop) (R : Vars -> Prop) :
  hoare P p Q R -> (forall x, hoare (Q x) (f x) Q' R) ->
  hoare P (thenI p f) Q' R.
Proof.
  intros Hp Hf v h Hv. unfold thenI. specialize (Hp v h Hv).
  destruct (p v h) as [[[x|r|] v1] e1]; try exact Hp.
  specialize (Hf x v1 (h ++ e1) Hp).
  destruct (f x v1 (h ++ e1)) as [[o v2] e2]. exact Hf.
Qed.

Lemma hoare_catchI {A} (P : Vars -> Prop) (p : MI A) (f : Rejection -> MI A)
    (Q : A -> Vars -> Prop) (R : Vars -> Prop) :
  hoare P p Q R -> (forall r, hoare R (f r) Q R) ->
  hoare P (catchI p f) Q R.
Proof.
  intros Hp Hf v h Hv. unfold catchI. specialize (Hp v h Hv).
  destruct (p v h) as [[[x|r|] v1] e1]; try exact Hp.
  specialize (Hf r v1 (h ++ e1) Hp).
  destruct (f r v1 (h ++ e1)) as [[o v2] e2]. exact Hf.
Qed.

Lemma hoare_retI {A} (P : Vars -> Prop) (a : A) (R : Vars -> Prop) :
  hoare P (retI a) (fun _ => P) R.
Proof. intros v h Hv. exact Hv. Qed.

Lemma hoare_rejectI {A} (P : Vars -> Prop) r (Q : A -> Vars -> Prop) :
  hoare P (rejectI r) Q P.
Proof. intros v h Hv. exact Hv. Qed.

Lemma hoare_getV (P : Vars -> Prop) (R : Vars -> Prop) :
  hoare P getV (fun x v => x = v /\ P v) R.
Proof. intros v h Hv. split; [reflexivity | exact Hv]. Qed.

Lemma hoare_setV (P Q : Vars -> Prop) (f : Vars -> Vars) (R : Vars -> Prop) :
  (forall v, P v -> Q (f v)) -> hoare P (setV f) (fun _ => Q) R.
Proof. intros Hf v h Hv. apply Hf, Hv. Qed.

Lemma hoare_lift {A} (P : Vars -> Prop) (p : M A) :
  hoare P (lift p) (fun _ => P) P.
Proof.
  intros v h Hv. unfold lift. destruct (p h) as [[x|r|] e]; exact Hv.
Qed.

Lemma hoare_tapI {A B} (P : Vars -> Prop) (p : MI A) (f : A -> MI B)
    (Q : A -> Vars -> Prop) (R : Vars -> Prop) :
  hoare P p Q R -> (forall x, hoare (Q x) (f x) (fun _ => Q x) R) ->
  hoare P (tapI p f) Q R.
Proof.
  intros Hp Hf. unfold tapI. eapply hoare_thenI; [exact Hp|].
  intros x. eapply hoare_thenI; [apply Hf|].
  intros y v h Hv. exact Hv.
Qed.

End VarsOfStages.

Section VarsOfInstall.

Context (env : Env).

Lemma checkNameLoop_vars fuel g gameId testModId :
  hoare (unstagedFor g) (checkNameLoop env fuel gameId testModId)
        (fun _ => unstagedFor g) (unstagedFor g).
Proof.
  revert testModId. induction fuel as [|fuel IH]; intros testModId v h Hv;
    cbn [checkNameLoop]; destruct (checkModExists _ _ _); try exact Hv.
  refine (hoare_thenI (unstagedFor g) _ _ (fun _ => unstagedFor g) _ _
            (hoare_lift _ _) _ v h Hv).
  intros choice.
  apply (hoare_thenI _ _ _ (fun _ => unstagedFor g)); [|intros u; apply IH].
  apply hoare_setV. intros v' Hv'. destruct (choice_enable choice); exact Hv'.
Qed.

Lemma versionChoice_vars currentProfile g gameId modInfo :
  hoare (unstagedFor g) (versionChoice env currentProfile gameId modInfo)
        (fun _ => unstagedFor g) (unstagedFor g).
Proof.
  intros v h Hv. unfold versionChoice. cbv zeta.
  set (oldMod := match mi_fileId modInfo with
                 | Js.VUndefined => None
                 | _ => _
                 end).
  set (v1 := match oldMod, fi_choices (v_fullInfo v) with
             | Some old, None => _
             | _, _ => v
             end).
  assert (Hv1 : unstagedFor g v1).
  { subst v1. destruct oldMod; [destruct (fi_choices _)|]; exact Hv. }
  clearbody v1.
  destruct oldMod as [old|]; [destruct currentProfile as [profile|]|];
    try exact Hv1.
  refine (hoare_thenI (unstagedFor g) _ _ (fun _ => unstagedFor g) _ _
            (hoare_lift _ _) _ v1 h Hv1).
  intros act. destruct (String.eqb act "Install").
  - eapply hoare_thenI;
      [apply (hoare_setV _ (unstagedFor g)); intros v' Hv'; exact Hv'|].
    intros u. destruct (modEnabled profile (mod_id old)).
    + apply hoare_lift.
    + apply hoare_retI.
  - destruct (String.eqb act "Replace"); [|apply hoare_retI].
    eapply hoare_thenI;
      [apply (hoare_setV _ (unstagedFor g)); intros v' Hv'; exact Hv'|].
    intros u. eapply hoare_thenI; [apply hoare_lift|].
    intros u'. apply hoare_setV. intros v' Hv'. exact Hv'.
Qed.

End VarsOfInstall.

Section PathsOfInstall.

Context (env : Env).

Lemma hoare_lift_to {A} (P Q R : Vars -> Prop) (p : M A) :
  (forall v, P v -> Q v) -> (forall v, P v -> R v) ->
  hoare P (lift p) (fun _ => Q) R.
Proof.
  intros HQ HR.
  apply (hoare_weaken P P _ (fun _ => P) _ P); auto. apply hoare_lift.
Qed.

Lemma hoare_getV_same (P R : Vars -> Prop) : hoare P getV (fun _ => P) R.
Proof. intros v h Hv. exact Hv. Qed.

Lemma unstaged_paths v : unstaged v -> installPaths env v.
Proof.
  intros [Ht Hd]. split; intros x Hx; congruence.
Qed.

Lemma unstagedFor_paths g v : unstagedFor g v -> installPaths env v.
Proof. intros [Hv _]. apply unstaged_paths, Hv. Qed.

Lemma installStages_vars fuel mInstallers a currentProfile baseName :
  hoare unstaged
        (installStages env fuel mInstallers a currentProfile baseName)
        (fun _ => installPaths env) (installPaths env).
Proof.
  unfold installStages. cbv zeta.
  apply (hoare_thenI _ _ _ (fun _ => unstaged)).
  { apply (hoare_weaken unstaged unstaged _ (fun _ => unstaged) _ unstaged);
      auto using unstaged_paths.
    apply hoare_tapI; [apply hoare_tapI|].
    - destruct (forceGameId a); [apply hoare_retI|].
      eapply hoare_thenI; [apply hoare_getV_same|]. intros v.
      apply hoare_lift.
    - intros g. eapply hoare_thenI; [apply hoare_getV_same|]. intros v.
      destruct currentProfile; [apply hoare_lift | apply hoare_rejectI].
    - intros g. apply hoare_catchI; [|intros r; apply hoare_retI].
      eapply hoare_thenI; [apply hoare_lift|]. intros hash.
      apply hoare_setV. intros v Hv. exact Hv. }
  intros gameIdOpt.
  apply (hoare_thenI _ _ _
           (fun _ v => unstaged v /\ v_installGameId v = gameIdOpt)).
  { apply hoare_setV. intros v Hv. split; [exact Hv | reflexivity]. }
  intros u0. destruct gameIdOpt as [gameId|].
  2:{ intros v h [Hv _]. apply unstaged_paths, Hv. }
  change (fun v => unstaged v /\ v_installGameId v = Some gameId)
    with (unstagedFor gameId).
  set (UG := unstagedFor gameId).
  assert (HUG : forall v, UG v -> installPaths env v)
    by (intros v Hv; exact (unstagedFor_paths gameId v Hv)).
  apply (hoare_thenI _ _ _ (fun _ => UG));
    [apply hoare_setV; intros v Hv; exact Hv | intros u1].
  apply (hoare_thenI _ _ _ (fun _ => UG));
    [apply hoare_lift_to; auto | intros modInfo].
  apply (hoare_thenI _ _ _ (fun _ => UG));
    [apply hoare_setV; intros v Hv; destruct modInfo; exact Hv | intros u2].
  apply (hoare_thenI _ _ _ (fun _ => UG));
    [apply hoare_getV_same | intros v].
  apply (hoare_thenI _ _ _ (fun _ => UG));
    [apply (hoare_weaken UG UG _ (fun _ => UG) _ UG); auto;
     apply checkNameLoop_vars
    | intros newModId].
  apply (hoare_thenI _ _ _ (fun _ => UG));
    [apply hoare_setV; intros v' Hv; exact Hv | intros u3].
  apply (hoare_thenI _ _ _ (fun _ => UG));
    [apply hoare_getV_same | intros v0].
  apply (hoare_thenI _ _ _ (fun _ => UG));
    [apply hoare_lift_to; auto | intros modInfo'].
  apply (hoare_thenI _ _ _ (fun _ => UG));
    [apply (hoare_weaken UG UG _ (fun _ => UG) _ UG); auto;
     apply versionChoice_vars
    | intros u4].
  apply (hoare_thenI _ _ _ (fun x v' => x = v' /\ UG v'));
    [apply hoare_getV | intros v1].
  set (d := path_join env (mGetInstallPath env gameId) (v_modId v1)).
  apply (hoare_thenI _ _ _ (fun _ v' => v1 = v' /\ UG v'));
    [apply hoare_lift_to; [auto | intros v' [_ Hv']; auto] | intros u5].
  apply (hoare_thenI _ _ _
           (fun _ v' => v' = set_destinationPath d v1 /\ UG v1));
    [apply hoare_setV; intros v' [<- Hv']; split; [reflexivity | exact Hv']
    | intros u6].
  assert (Hdest : forall v',
             v' = set_destinationPath d v1 /\ UG v1 -> installPaths env v').
  { intros v' [-> [[Ht Hd] Hg]]. split; cbn; intros x Hx.
    - injection Hx as <-. exists gameId. split; [exact Hg | reflexivity].
    - congruence. }
  apply (hoare_thenI _ _ _
           (fun _ v' => v' = set_destinationPath d v1 /\ UG v1));
    [apply hoare_lift_to; auto | intros u7].
  assert (Htemp : forall v',
             v' = set_tempPath (d +:+ ".installing") (set_destinationPath d v1)
             /\ UG v1 ->
             installPaths env v').
  { intros v' [-> [[Ht Hd] Hg]]. split; cbn; intros x Hx.
    - injection Hx as <-. exists gameId. split; [exact Hg | reflexivity].
    - injection Hx as <-. exists d. split; reflexivity. }
  apply (hoare_thenI _ _ _
           (fun _ v' =>
              v' = set_tempPath (d +:+ ".installing")
                     (set_destinationPath d v1)
              /\ UG v1));
    [apply hoare_setV; intros v' [-> Hv']; split; [reflexivity | exact Hv']
    | intros u8].
  apply (hoare_thenI _ _ _
           (fun _ v' =>
              v' = set_tempPath (d +:+ ".installing")
                     (set_destinationPath d v1)
              /\ UG v1));
    [apply hoare_lift_to; auto | intros result].
  apply (hoare_thenI _ _ _
           (fun _ v' =>
              v' = set_tempPath (d +:+ ".installing")
                     (set_destinationPath d v1)
              /\ UG v1));
    [apply hoare_lift_to; auto | intros result'].
  apply hoare_lift_to; auto.
Qed.

End PathsOfInstall.

(** ** Clean-up of the staging and destination directories *)

Section CleanupOfInstall.

Context (env : Env).

Lemma staging_vars (stages : MI unit) (P : Vars -> Prop) v0 h0 :
  hoare unstaged stages (fun _ => P) P -> unstaged v0 ->
  P (snd (fst (finallyI stages (removeStaging env) v0 h0))).
Proof.
  intros Hh Hv0. specialize (Hh v0 h0 Hv0). unfold finallyI.
  destruct (stages v0 h0) as [[[[]|r|] v1] e1]; rewrite ?removeStaging_eq;
    try exact Hh;
    (destruct (v_tempPath v1);
     [destruct (fs env (h0 ++ e1) (Remove _)) as [[]| |]|]; exact Hh).
Qed.


End CleanupOfInstall.



(** * Further properties of the class *)

(** ** Grouping the instructions *)

Section Groups.

Lemma fold_pushGroup_groups l c m s g i u a t e r :
  fold_left pushGroup l (mkGroups c m s g i u a t e r)
  = mkGroups (c ++ List.filter (hasType ty_copy) l)
             (m ++ List.filter (hasType ty_mkdir) l)
             (s ++ List.filter (hasType ty_submodule) l)
             (g ++ List.filter (hasType ty_generatefile) l)
             (i ++ List.filter (hasType ty_iniedit) l)
             (u ++ List.filter (hasType ty_unsupported) l)
             (a ++ List.filter (hasType ty_attribute) l)
             (t ++ List.filter (hasType ty_setmodtype) l)
             (e ++ List.filter (hasType ty_error) l)
             (r ++ List.filter (hasType ty_rule) l).
Proof.
  revert c m s g i u a t e r.
  induction l as [|x l IH]; intros c m s g i u a t e r.
  - cbn. now rewrite !app_nil_r.
  - cbn [fold_left List.filter]. unfold pushGroup at 2, hasType.
    destruct (type x); rewrite IH; rewrite <- ?app_assoc; reflexivity.
Qed.

(** X1: [transformInstructions] sorts the instructions into the ten groups
    without losing, duplicating or reordering any: each group is the
    sub-list of the instructions of its type, in the order of the input, and
    an instruction of any other type is in no group (as long as that type
    is not the name of an inherited property, on which [push] would throw). *)
Theorem transformInstructions_groups l :
  Forall (fun i => plainType (type i) = true) l ->
  transformInstructions l
  = mkGroups (List.filter (hasType ty_copy) l)
             (List.filter (hasType ty_mkdir) l)
             (List.filter (hasType ty_submodule) l)
             (List.filter (hasType ty_generatefile) l)
             (List.filter (hasType ty_iniedit) l)
             (List.filter (hasType ty_unsupported) l)
             (List.filter (hasType ty_attribute) l)
             (List.filter (hasType ty_setmodtype) l)
             (List.filter (hasType ty_error) l)
             (List.filter (hasType ty_rule) l).
Proof.
  intros _. unfold transformInstructions, newInstructionGroups.
  now rewrite fold_pushGroup_groups.
Qed.

End Groups.

Lemma transformInstructions_groups_witness :
  let l := [Scenario.copyInstr "a" "x"; Scenario.errorInstr "warning" "w";
            Scenario.instr (ty_other "patch");
            Scenario.copyInstr "b" "y"] in
  grp_copy (transformInstructions l)
  = [Scenario.copyInstr "a" "x"; Scenario.copyInstr "b" "y"]
  /\ grp_error (transformInstructions l) = [Scenario.errorInstr "warning" "w"]
  /\ grp_mkdir (transformInstructions l) = [].
Proof.
  intros l.
  assert (H : Forall (fun i => plainType (type i) = true) l)
    by (repeat constructor).
  rewrite (transformInstructions_groups l H). repeat split.
Defined.

(** ** Validation of the destinations *)

Section Validation.

Context (env : Env).

Lemma hasInvalidDestination_spec i :
  hasInvalidDestination env i = true <->
  exists d, destination i = Some d /\ d <> EmptyString
            /\ isPathValid env (sanitizeDestination env d) true = false.
Proof.
  unfold hasInvalidDestination. destruct (destination i) as [d|].
  - destruct d as [|c d']; cbn [Js.truthyStr].
    + split; [discriminate|]. intros (d & [= <-] & Hd & _). now destruct Hd.
    + rewrite negb_true_iff. split.
      * intros H. exists (String c d'). repeat split; [discriminate|exact H].
      * now intros (d & [= <-] & _ & H).
  - split; [discriminate|]. now intros (d & H & _).
Qed.

Lemma validateInstructions_cons l i :
  In i l -> hasInvalidDestination env i = true ->
  exists x rest, validateInstructions env l = x :: rest.
Proof.
  intros Hin Hi. unfold validateInstructions.
  assert (Hf : In i (List.filter (hasInvalidDestination env) l))
    by (apply List.filter_In; split; assumption).
  destruct (List.filter (hasInvalidDestination env) l) as [|y ys];
    [destruct Hf|]. cbn. eauto.
Qed.

(** X2: one instruction with an invalid destination stops
    [processInstructions] before anything is done. When an instruction of
    the list has a non-empty destination that is no valid path (once a
    leading separator is dropped), the only effect is the notification
    'Invalid mod installer instructions', reportable exactly when the game
    is not a contributed one, and the result is the rejection
    [ProcessCanceled('Invalid installer instructions')]; when the game is
    unknown, reading [game.contributed] throws before the notification. *)
Theorem processInstructions_invalid_destination fuel mI a t d g m l h i dest :
  In i l -> destination i = Some dest -> dest <> EmptyString ->
  isPathValid env (sanitizeDestination env dest) true = false ->
  processInstructions env fuel mI a t d g m (mkInstallResult (InstrList l)) h
  = match getGame env h g with
    | Some game =>
        let allowReport := negb (isSome (contributed game)) in
        (Rejected (newError ProcessCanceled "Invalid installer instructions"),
         [EvShowErrorNotification "Invalid mod installer instructions"
            (invalidInstructionsMessage allowReport) (Some allowReport)])
    | None => (Rejected (typeError "game.contributed"), [])
    end.
Proof.
  intros Hin Hd Hne Hinv.
  assert (Hi : hasInvalidDestination env i = true)
    by (apply hasInvalidDestination_spec; eauto).
  destruct (validateInstructions_cons l i Hin Hi) as (x & rest & Hv).
  rewrite processInstructions_unfold. unfold processInstructionsWith.
  cbn [instructions]. destruct l as [|i0 l0]; [destruct Hin|].
  rewrite Hv. destruct (getGame env h g) as [game|]; [|reflexivity].
  destruct (contributed game); reflexivity.
Qed.

End Validation.

Lemma processInstructions_invalid_destination_witness :
  processInstructions Scenario.benign 1 [] "/downloads/Foo-1.0.zip"
    "/mods/skyrim/Foo-1.0.installing" "/mods/skyrim/Foo-1.0" "skyrim" "Foo-1.0"
    (mkInstallResult
       (InstrList [Scenario.copyInstr "a" "a"; Scenario.copyInstr "x" "/CON"]))
    []
  = (Rejected (newError ProcessCanceled "Invalid installer instructions"),
     [EvShowErrorNotification "Invalid mod installer instructions"
        (invalidInstructionsMessage true) (Some true)]).
Proof.
  exact (processInstructions_invalid_destination Scenario.benign 1 []
           "/downloads/Foo-1.0.zip" "/mods/skyrim/Foo-1.0.installing"
           "/mods/skyrim/Foo-1.0" "skyrim" "Foo-1.0"
           [Scenario.copyInstr "a" "a"; Scenario.copyInstr "x" "/CON"] []
           (Scenario.copyInstr "x" "/CON") "/CON"
           (or_intror (or_introl eq_refl)) eq_refl ltac:(discriminate) eq_refl).
Defined.

(** ** Damaged archives *)

Section DamagedArchive.

Context (env : Env).

Lemma includes_nonempty needle s :
  needle <> EmptyString -> Js.includes needle s = true -> Js.truthyStr s = true.
Proof.
  intros Hn. destruct s; [|reflexivity].
  destruct needle; [now destruct Hn|cbn; discriminate].
Qed.

Lemma find_existsb {A} (p : A -> bool) l :
  match find p l with
  | Some x => p x = true /\ existsb p l = true
  | None => existsb p l = false
  end.
Proof.
  induction l as [|x l IH]; cbn; [reflexivity|].
  destruct (p x) eqn:Hx; cbn; [now split|exact IH].
Qed.

(** X3: [queryContinue] always offers 'Cancel' and offers 'Continue' exactly
    when no error says that the file cannot be opened as an archive.
    'Cancel' rejects with [UserCanceled], 'Continue' (when offered) resolves,
    and as long as the dialog is not answered with one of the offered
    labels the promise stays pending. *)
Theorem queryContinue_offers errors h :
  let terminal := existsb notAnArchive errors in
  queryContinue env errors h
  = (match showDialog env h (translate env "Archive damaged" []) with
     | Resolved result =>
         if String.eqb (action result) "Cancel" then Rejected newUserCanceled
         else if String.eqb (action result) "Continue" && negb terminal
              then Resolved tt
              else Pending
     | _ => Pending
     end,
     [EvShowDialog "error" (translate env "Archive damaged" [])
        ("Cancel" :: (if terminal then [] else ["Continue"]))]).
Proof.
  cbv zeta. unfold queryContinue. cbv zeta.
  pose proof (find_existsb notAnArchive errors) as Hfind.
  change (fun err => Js.includes "Can not open the file as archive" err)
    with notAnArchive.
  destruct (find notAnArchive errors) as [t|].
  - destruct Hfind as [Ht ->].
    rewrite (includes_nonempty "Can not open the file as archive" t
               ltac:(discriminate) Ht).
    cbn [negb].
    unfold dialogPromise.
    destruct (showDialog env h _) as [r| |]; [|reflexivity..].
    destruct (String.eqb (action r) "Cancel"); [reflexivity|].
    now rewrite andb_false_r.
  - rewrite Hfind. cbn [negb]. unfold dialogPromise.
    destruct (showDialog env h _) as [r| |]; [|reflexivity..].
    destruct (String.eqb (action r) "Cancel"); [reflexivity|].
    rewrite andb_true_r.
    now destruct (String.eqb (action r) "Continue").
Qed.

End DamagedArchive.

(** ** Extraction failures in [installInner] *)

Section Extraction.

Context (env : Env) (mI : list IModInstaller).

(** X4: how [installInner] treats a failed extraction of a file that has
    an archive extension. An extraction rejected with a critical message,
    or resolved with a non-zero code and a critical error among its errors,
    ends [installInner] with an [ArchiveBrokenError] whose message is
    'Archive is broken: ' followed by that message or error; no dialog is
    shown, the staging directory is not walked and no installer is asked.
    An extraction rejected with any other [Error] (that is no
    [ArchiveBrokenError] itself) is passed on unchanged, whatever the
    extension. *)
Theorem installInner_broken_archive a t d g ctx choices files unattended h :
  (hasArchiveExtension env a = true ->
   forall e, extractFull env h a t = Rejected (RejError e) ->
     isCritical (err_message e) = true ->
     installInner env mI a t d g ctx choices files unattended h
     = (Rejected (newArchiveBrokenError (err_message e)), [EvExtractFull a t]))
  /\ (hasArchiveExtension env a = true ->
      forall code errors critical,
        extractFull env h a t = Resolved (code, errors) ->
        code <> 0%Z -> find isCritical errors = Some critical ->
        installInner env mI a t d g ctx choices files unattended h
        = (Rejected (newArchiveBrokenError critical),
           EvExtractFull a t :: (if ctx then [EvCtx setProgress] else [])))
  /\ (forall e, extractFull env h a t = Rejected (RejError e) ->
        isCritical (err_message e) = false ->
        err_class e <> ArchiveBrokenError ->
        installInner env mI a t d g ctx choices files unattended h
        = (Rejected (RejError e), [EvExtractFull a t])).
Proof.
  unfold hasArchiveExtension.
  split; [|split].
  - intros Hext e He Hcrit.
    unfold installInner, extractStage, catchClass, then_, catch_, ask.
    rewrite He. cbn -[existsb archiveExtLookup isCritical]. rewrite Hcrit.
    cbn -[existsb archiveExtLookup isCritical]. rewrite Hext. reflexivity.
  - intros Hext code errors critical He Hcode Hfind.
    unfold installInner, extractStage, catchClass, then_, catch_, ask.
    rewrite He. apply Z.eqb_neq in Hcode.
    destruct ctx; cbn -[existsb archiveExtLookup isCritical];
      rewrite Hcode; cbn -[existsb archiveExtLookup isCritical];
      rewrite Hfind; cbn -[existsb archiveExtLookup isCritical];
      rewrite Hext; reflexivity.
  - intros e He Hcrit Hcls.
    unfold installInner, extractStage, catchClass, then_, catch_, ask.
    rewrite He. cbn -[existsb archiveExtLookup isCritical]. rewrite Hcrit.
    cbn -[existsb archiveExtLookup isCritical].
    destruct e as [cls msg code stack reported]. cbn in *.
    destruct cls; cbn -[existsb archiveExtLookup]; try reflexivity.
    now destruct Hcls.
Qed.

End Extraction.

Lemma installInner_broken_archive_witness :
  installInner Scenario.truncated [] "/downloads/Foo-1.0.zip"
    "/mods/skyrim/Foo-1.0.installing" "/mods/skyrim/Foo-1.0" "skyrim" true
    None None None []
  = (Rejected (newError ArchiveBrokenError
                 "Archive is broken: Unexpected end of archive"),
     [EvExtractFull "/downloads/Foo-1.0.zip" "/mods/skyrim/Foo-1.0.installing"]).
Proof.
  exact (proj1 (installInner_broken_archive Scenario.truncated []
                  "/downloads/Foo-1.0.zip" "/mods/skyrim/Foo-1.0.installing"
                  "/mods/skyrim/Foo-1.0" "skyrim" true None None None [])
               eq_refl
               (mkJsError PlainError "Unexpected end of archive" None None false)
               eq_refl eq_refl).
Defined.

Section NotAnArchive.

Context (env : Env) (mI : list IModInstaller).

(** X5: a file that is no archive. When the extraction fails critically
    and the file has none of the archive extensions, [installInner] asks
    whether to make a mod of the file itself. 'Cancel' rejects with
    [UserCanceled] and nothing is staged; with any other answer the staging
    directory is made, the file is copied into it under its own name, and
    the installation goes on with the walk over the staging directory. A
    rejected dialog is passed on, an unanswered one leaves the promise
    pending. *)
Theorem installInner_not_an_archive a t d g ctx choices files unattended h e :
  hasArchiveExtension env a = false ->
  extractFull env h a t = Rejected (RejError e) ->
  isCritical (err_message e) = true ->
  let run := installInner env mI a t d g ctx choices files unattended h in
  let extract := EvExtractFull a t in
  let dialog := EvShowDialog "question" "Not an archive" ["Cancel"; "Create Mod"] in
  let ensure := EvFs (EnsureDir t) true in
  let copy := EvFs (Copy a (path_join env t (path_basename env a))) true in
  match showDialog env (h ++ [extract]) "Not an archive" with
  | Resolved result =>
      if String.eqb (action result) "Cancel"
      then run = (Rejected newUserCanceled, [extract; dialog])
      else
        fs env (h ++ [extract; dialog]) (EnsureDir t) = Resolved tt ->
        fs env (h ++ [extract; dialog; ensure])
           (Copy a (path_join env t (path_basename env a))) = Resolved tt ->
        exists ok rest,
          snd run = [extract; dialog; ensure; copy; EvFs (Walk t) ok] ++ rest
  | Rejected r => run = (Rejected r, [extract; dialog])
  | Pending => run = (Pending, [extract; dialog])
  end.
Proof.
  unfold hasArchiveExtension. intros Hext He Hcrit. cbv zeta.
  unfold installInner, extractStage, catchClass.
  set (tail := selectAndRun env mI t g choices files unattended).
  unfold then_, catch_, ask, askFs, enumerateFiles, askWalk.
  rewrite He. cbn -[existsb archiveExtLookup isCritical]. rewrite Hcrit.
  cbn -[existsb archiveExtLookup isCritical]. rewrite Hext.
  destruct (showDialog env (h ++ [EvExtractFull a t]) "Not an archive")
    as [result|r|]; [|reflexivity..].
  destruct (String.eqb (action result) "Cancel"); [reflexivity|].
  intros Hensure Hcopy.
  replace ((h ++ [EvExtractFull a t])
           ++ [EvShowDialog "question" "Not an archive" ["Cancel"; "Create Mod"]])
    with (h ++ [EvExtractFull a t;
                EvShowDialog "question" "Not an archive" ["Cancel"; "Create Mod"]])
    by (now rewrite <- app_assoc).
  rewrite Hensure. cbn -[existsb archiveExtLookup isCritical].
  replace ((h ++ [EvExtractFull a t;
                  EvShowDialog "question" "Not an archive"
                               ["Cancel"; "Create Mod"]])
           ++ [EvFs (EnsureDir t) true])
    with (h ++ [EvExtractFull a t;
                EvShowDialog "question" "Not an archive" ["Cancel"; "Create Mod"];
                EvFs (EnsureDir t) true])
    by (now rewrite <- app_assoc).
  rewrite Hcopy. cbn -[existsb archiveExtLookup isCritical].
  match goal with
  | |- context [walk env ?hw t] => destruct (walk env hw t) as [entries|r|]
  end; cbn; [|eexists _, []; reflexivity..].
  match goal with
  | |- context [tail ?fl ?hh] => destruct (tail fl hh) as [o es]
  end.
  cbn. eexists _, _. reflexivity.
Qed.

End NotAnArchive.

Lemma installInner_not_an_archive_witness :
  let env := Scenario.answering Scenario.truncated "Create Mod" in
  exists ok rest,
    snd (installInner env [] "/downloads/readme.txt"
           "/mods/skyrim/readme.installing" "/mods/skyrim/readme" "skyrim"
           true None None None [])
    = [EvExtractFull "/downloads/readme.txt" "/mods/skyrim/readme.installing";
       EvShowDialog "question" "Not an archive" ["Cancel"; "Create Mod"];
       EvFs (EnsureDir "/mods/skyrim/readme.installing") true;
       EvFs (Copy "/downloads/readme.txt"
                  "/mods/skyrim/readme.installing/readme.txt") true;
       EvFs (Walk "/mods/skyrim/readme.installing") ok] ++ rest.
Proof.
  intros env.
  exact (installInner_not_an_archive env [] "/downloads/readme.txt"
           "/mods/skyrim/readme.installing" "/mods/skyrim/readme" "skyrim"
           true None None None []
           (mkJsError PlainError "Unexpected end of archive" None None false)
           eq_refl eq_refl eq_refl eq_refl eq_refl).
Defined.

(** ** The type of a mod *)

Section ModType.

Context (env : Env).

Lemma sort_ext {A} (c1 c2 : A -> A -> Z) l :
  (forall x y, c1 x y = c2 x y) -> JsArray.sort c1 l = JsArray.sort c2 l.
Proof.
  intros Hc. unfold JsArray.sort. induction l as [|x l IH]; [reflexivity|].
  cbn [fold_right]. rewrite IH.
  generalize (fold_right (JsArray.insertBy c2) [] l). intros s.
  induction s as [|y s IHs]; [reflexivity|].
  cbn. rewrite Hc, IHs. reflexivity.
Qed.

Lemma byPriorityDescending_sorted l :
  StronglySorted (fun a b => (mt_priority b <= mt_priority a)%Z)
                 (JsArray.sort byPriorityDescending l).
Proof.
  rewrite (sort_ext byPriorityDescending
             (fun x y => ((fun t => - mt_priority t) x
                          - (fun t => - mt_priority t) y)%Z))
    by (intros x y; unfold byPriorityDescending; lia).
  pose proof (sort_sorted (fun t => (- mt_priority t)%Z) l) as Hs.
  apply Sorted_StronglySorted in Hs.
  - eapply StronglySorted_ind with (P := fun l' =>
      StronglySorted (fun a b => (mt_priority b <= mt_priority a)%Z) l');
      [constructor| |exact Hs].
    intros a l' _ IH Hall. constructor; [exact IH|].
    eapply List.Forall_impl; [|exact Hall]. cbn. intros b Hb. lia.
  - intros x y z Hxy Hyz. lia.
Qed.

Lemma find_first_of_sorted {A} (R : A -> A -> Prop) (p : A -> bool) l x :
  StronglySorted R l -> find p l = Some x ->
  forall y, In y l -> p y = true -> y = x \/ R x y.
Proof.
  intros Hs. induction Hs as [|a l Hs IH Hall]; cbn; [discriminate|].
  destruct (p a) eqn:Ha.
  - intros [= <-] y [<-|Hy] _; [now left|right].
    rewrite List.Forall_forall in Hall. now apply Hall.
  - intros Hf y [<-|Hy] Hp; [congruence|]. now apply IH.
Qed.

Let step (installInstructions : Instructions)
    (acc : bool * list (option string)) (ty : IModType)
    : M (bool * list (option string)) :=
  let '(found, out) := acc in
  if found then ret (found, out ++ [None])
  else
    m <- ask (EvModTypeTest (typeId ty))
             (fun h' => test ty h' installInstructions) ;;
    if m : bool then ret (true, out ++ [Some (typeId ty)])
    else ret (false, out ++ [None]).

Lemma step_found instr l out h :
  foldSeries (step instr) l (true, out) h
  = (Resolved (true, out ++ map (fun _ => None) l), []).
Proof.
  revert out h. induction l as [|ty l IH]; intros out h; cbn [foldSeries map].
  - now rewrite app_nil_r.
  - unfold then_. cbn. rewrite IH. now rewrite <- app_assoc.
Qed.

Lemma step_search instr (matches : IModType -> bool) l out h :
  (forall ty h', In ty l -> test ty h' instr = Resolved (matches ty)) ->
  foldSeries (step instr) l (false, out) h
  = (Resolved (existsb matches l, out ++ typeMatches matches l),
     map (fun ty => EvModTypeTest (typeId ty)) (upToFirst matches l)).
Proof.
  revert out h. induction l as [|ty l IH]; intros out h Ht;
    cbn [foldSeries existsb typeMatches upToFirst map].
  - now rewrite app_nil_r.
  - unfold then_ at 1. cbn [step]. unfold then_ at 1, ask.
    rewrite (Ht ty h (or_introl eq_refl)).
    destruct (matches ty); cbn.
    + rewrite step_found. cbn. now rewrite <- app_assoc.
    + rewrite IH by (intros ty' h' Hin; apply Ht; now right).
      cbn. now rewrite <- app_assoc.
Qed.

Lemma find_typeMatches (matches : IModType -> bool) l :
  find (fun m => match m with Some _ => true | None => false end)
       (typeMatches matches l)
  = match find matches l with
    | Some ty => Some (Some (typeId ty))
    | None => None
    end.
Proof.
  induction l as [|ty l IH]; cbn; [reflexivity|].
  destruct (matches ty); cbn; [reflexivity|exact IH].
Qed.

(** X6: [determineModType] answers with the type of highest priority that
    matches. For an unknown game it rejects with the error 'Invalid game'.
    Otherwise, when the tests of the game's mod types resolve, the types are
    tested by descending priority (types of one priority in the order of the
    game), no type is tested after the first match, and the result is the
    id of that first match, or the empty string when no type matches; no
    matching type has a higher priority than the one answered. *)
Theorem determineModType_first_match gameId instr h :
  match getGame env h gameId with
  | None =>
      determineModType env gameId instr h
      = (Rejected (newError PlainError
                     ("Invalid game " ++ dquote ++ gameId ++ dquote)), [])
  | Some game =>
      forall matches : IModType -> bool,
        (forall ty h', In ty (modTypes game) ->
                       test ty h' instr = Resolved (matches ty)) ->
        let sorted := JsArray.sort byPriorityDescending (modTypes game) in
        determineModType env gameId instr h
        = (Resolved (match find matches sorted with
                     | Some ty => typeId ty
                     | None => EmptyString
                     end),
           map (fun ty => EvModTypeTest (typeId ty)) (upToFirst matches sorted))
        /\ forall ty, find matches sorted = Some ty ->
             In ty (modTypes game) /\ matches ty = true
             /\ forall ty', In ty' (modTypes game) -> matches ty' = true ->
                  (mt_priority ty' <= mt_priority ty)%Z
  end.
Proof.
  unfold determineModType.
  destruct (getGame env h gameId) as [game|]; [|reflexivity].
  intros matches Ht.
  change (fun lhs rhs : IModType => (mt_priority rhs - mt_priority lhs)%Z)
    with byPriorityDescending.
  set (sorted := JsArray.sort byPriorityDescending (modTypes game)).
  assert (Hperm : forall ty, In ty sorted <-> In ty (modTypes game)).
  { intros ty. subst sorted.
    rewrite (sort_ext byPriorityDescending
               (fun x y => ((fun t => - mt_priority t) x
                            - (fun t => - mt_priority t) y)%Z))
      by (intros x y; unfold byPriorityDescending; lia).
    pose proof (sort_perm (fun t => (- mt_priority t)%Z) (modTypes game)) as Hp.
    split; intros Hin.
    - eapply Permutation_in; [exact Hp|exact Hin].
    - eapply Permutation_in; [symmetry; exact Hp|exact Hin]. }
  split.
  - unfold then_.
    change (foldSeries _ sorted (false, []) h)
      with (foldSeries (step instr) sorted (false, []) h).
    rewrite (step_search instr matches sorted [] h)
      by (intros ty h' Hin; apply Ht; now apply Hperm).
    cbn [snd fst app]. rewrite find_typeMatches.
    unfold ret. rewrite app_nil_r.
    destruct (find matches sorted); reflexivity.
  - intros ty Hfind. pose proof (find_some _ _ Hfind) as [Hin Hm].
    split; [now apply Hperm|]. split; [exact Hm|].
    intros ty' Hin' Hm'.
    destruct (find_first_of_sorted _ matches sorted ty
                (byPriorityDescending_sorted (modTypes game)) Hfind ty'
                (proj2 (Hperm ty') Hin') Hm') as [->|H]; [lia|exact H].
Qed.

End ModType.

(** ** Instructions that only touch the store *)

Section StoreInstructions.

Lemma each_emit {A} (ev : A -> Event) (l : list A) h :
  each (fun x => emit (ev x)) l h = (Resolved tt, map ev l).
Proof.
  unfold each, then_.
  assert (H : forall h, mapSeries (fun x => emit (ev x)) l h
                        = (Resolved (map (fun _ => tt) l), map ev l)).
  { clear h. induction l as [|x l IH]; intros h; cbn; [reflexivity|].
    unfold then_. cbn. rewrite IH. cbn. now rewrite app_nil_r. }
  rewrite H. cbn. now rewrite app_nil_r.
Qed.

(** X7: the [attribute], [setmodtype] and [rule] instructions cannot fail
    and are applied to the store as follows: every attribute is dispatched,
    in order, as [setModAttribute]; of several [setmodtype] instructions
    only the last one is dispatched (none when there is none); every rule is
    dispatched, in order, as [addModRule]. *)
Theorem store_instructions_dispatched gameId modId h :
  (forall attrs,
     processAttribute attrs gameId modId h
     = (Resolved tt,
        map (fun attr => EvDispatch (setModAttribute gameId modId (key attr)
                                                     (value attr)))
            attrs))
  /\ processSetModType [] gameId modId h = (Resolved tt, [])
  /\ (forall types t,
        processSetModType (types ++ [t]) gameId modId h
        = (Resolved tt, [EvDispatch (setModType gameId modId (value t))]))
  /\ (forall rules,
        processRule rules gameId modId h
        = (Resolved tt,
           map (fun r => EvDispatch (addModRule gameId modId (rule r))) rules)).
Proof.
  repeat split.
  - intros attrs. unfold processAttribute, dispatch. apply each_emit.
  - intros types t. unfold processSetModType. now rewrite last_snoc.
  - intros rules. unfold processRule, dispatch. apply each_emit.
Qed.

End StoreInstructions.

(** ** Series of file operations *)

Section Series.

Context {A B : Type} (f : A -> M B) (res : A -> B) (evs : A -> list Event).

Lemma mapSeries_events l :
  (forall x, In x l -> forall h, f x h = (Resolved (res x), evs x)) ->
  forall h, mapSeries f l h = (Resolved (map res l), flat_map evs l).
Proof.
  induction l as [|x l IH]; intros Hf h; cbn [mapSeries map flat_map];
    [reflexivity|].
  unfold then_. rewrite (Hf x (or_introl eq_refl) h).
  rewrite (IH (fun y Hy => Hf y (or_intror Hy))). cbn.
  now rewrite app_nil_r.
Qed.

Lemma mapSeries_stops l1 x l2 o e :
  (forall y, In y l1 -> forall h, f y h = (Resolved (res y), evs y)) ->
  (forall h, f x h = (o, e)) -> isResolved o = false ->
  forall h,
    mapSeries f (l1 ++ x :: l2) h
    = (match o with Rejected r => Rejected r | _ => Pending end,
       flat_map evs l1 ++ e).
Proof.
  intros Hf Hx Ho. induction l1 as [|y l1 IH]; intros h;
    cbn [mapSeries app flat_map].
  - unfold then_. rewrite Hx. now destruct o.
  - unfold then_. rewrite (Hf y (or_introl eq_refl) h).
    rewrite (IH (fun z Hz => Hf z (or_intror Hz))).
    destruct o; try discriminate; now rewrite <- app_assoc.
Qed.

Lemma each_events l :
  (forall x, In x l -> forall h, f x h = (Resolved (res x), evs x)) ->
  forall h, each f l h = (Resolved tt, flat_map evs l).
Proof.
  intros Hf h. unfold each, then_. rewrite (mapSeries_events l Hf).
  cbn. now rewrite app_nil_r.
Qed.

Lemma each_stops l1 x l2 o e :
  (forall y, In y l1 -> forall h, f y h = (Resolved (res y), evs y)) ->
  (forall h, f x h = (o, e)) -> isResolved o = false ->
  forall h,
    each f (l1 ++ x :: l2) h
    = (match o with Rejected r => Rejected r | _ => Pending end,
       flat_map evs l1 ++ e).
Proof.
  intros Hf Hx Ho h. unfold each, then_.
  rewrite (mapSeries_stops l1 x l2 o e Hf Hx Ho).
  now destruct o.
Qed.

End Series.

(** ** Directories and generated files *)

Section MakeDirectories.

Context (env : Env).

Lemma flat_map_destinations {E} (ev : string -> list E) instrs dests :
  map destination instrs = map Some dests ->
  flat_map (fun i => ev (keyOfOpt (destination i))) instrs = flat_map ev dests.
Proof.
  revert dests. induction instrs as [|i instrs IH]; intros [|p dests];
    cbn; try discriminate; [reflexivity|].
  intros [= Hi Hrest]. rewrite Hi. cbn. now rewrite (IH dests Hrest).
Qed.

Lemma destinations_In instrs dests i :
  map destination instrs = map Some dests -> In i instrs ->
  exists p, destination i = Some p /\ In p dests.
Proof.
  revert dests. induction instrs as [|j instrs IH]; intros [|p dests];
    cbn; try discriminate; [intros _ []|].
  intros [= Hj Hrest] [<-|Hin]; [eauto|].
  destruct (IH dests Hrest Hin) as (q & Hq & Hqin). eauto.
Qed.

(** X8: [processMKDir] makes the directories one after the other, each
    under the destination path, and stops at the first that cannot be made:
    when every directory can be made the result is resolved and the calls
    of [ensureDirAsync] are those of the instructions, in order; after a
    directory that fails, or an instruction without destination (on which
    [path.join] throws), no further directory is attempted and the failure
    is the result. *)
Theorem processMKDir_in_order destinationPath pre dests h :
  map destination pre = map Some dests ->
  (forall p h', In p dests ->
     fs env h' (EnsureDir (path_join env destinationPath p)) = Resolved tt) ->
  let made :=
    map (fun p => EvFs (EnsureDir (path_join env destinationPath p)) true)
        dests in
  processMKDir env pre destinationPath h = (Resolved tt, made)
  /\ (forall bad post,
        destination bad = None ->
        processMKDir env (pre ++ bad :: post) destinationPath h
        = (Rejected (typeError "path.join"), made))
  /\ (forall bad post b r,
        destination bad = Some b ->
        (forall h', fs env h' (EnsureDir (path_join env destinationPath b))
                    = Rejected r) ->
        processMKDir env (pre ++ bad :: post) destinationPath h
        = (Rejected r,
           made ++ [EvFs (EnsureDir (path_join env destinationPath b)) false])).
Proof.
  intros Hd Hok made.
  set (ev := fun p => [EvFs (EnsureDir (path_join env destinationPath p)) true]).
  assert (Hmade : flat_map (fun i => ev (keyOfOpt (destination i))) pre = made).
  { rewrite (flat_map_destinations ev pre dests Hd). subst made ev.
    clear. induction dests as [|p dests IH]; cbn; [reflexivity|].
    now rewrite IH. }
  assert (Hpre : forall i, In i pre -> forall h',
             (p <- joinOpt env destinationPath (destination i) ;;
              askFs env (EnsureDir p)) h'
             = (Resolved tt, ev (keyOfOpt (destination i)))).
  { intros i Hi h'. destruct (destinations_In pre dests i Hd Hi) as (p & Hp & Hin).
    rewrite Hp. unfold then_, joinOpt, ret, askFs. cbn.
    rewrite app_nil_r, (Hok p h' Hin). reflexivity. }
  unfold processMKDir. repeat split.
  - rewrite <- Hmade. now apply each_events with (res := fun _ => tt).
  - intros bad post Hbad. rewrite <- Hmade, <- (app_nil_r (flat_map _ pre)).
    apply (each_stops _ (fun _ => tt) _ pre bad post
             (Rejected (typeError "path.join")) []); [exact Hpre| |reflexivity].
    intros h'. now rewrite Hbad.
  - intros bad post b r Hbad Hfail. rewrite <- Hmade.
    apply (each_stops _ (fun _ => tt) _ pre bad post (Rejected r)
             [EvFs (EnsureDir (path_join env destinationPath b)) false]);
      [exact Hpre| |reflexivity].
    intros h'. rewrite Hbad. unfold then_, joinOpt, ret, askFs. cbn.
    rewrite app_nil_r, (Hfail h'). reflexivity.
Qed.

End MakeDirectories.

Lemma processMKDir_in_order_witness :
  processMKDir Scenario.benign
    [Scenario.mkdirInstr "textures"; Scenario.mkdirInstr "meshes"]
    "/mods/skyrim/Foo-1.0" []
  = (Resolved tt,
     [EvFs (EnsureDir "/mods/skyrim/Foo-1.0/textures") true;
      EvFs (EnsureDir "/mods/skyrim/Foo-1.0/meshes") true]).
Proof.
  exact (proj1 (processMKDir_in_order Scenario.benign "/mods/skyrim/Foo-1.0"
                  [Scenario.mkdirInstr "textures"; Scenario.mkdirInstr "meshes"]
                  ["textures"; "meshes"] [] eq_refl
                  (fun _ _ _ => eq_refl))).
Defined.

Section GenerateFiles.

Context (env : Env).

(** X9: [processGenerateFiles] writes the files one after the other, each
    right after its directory was made, with the data of its instruction;
    when the directory of a file cannot be made, that file is not written,
    no further file is attempted and the failure is the result. *)
Theorem processGenerateFiles_in_order destinationPath gens dests h :
  map destination gens = map Some dests ->
  (forall p h', In p dests ->
     fs env h' (EnsureDir (path_dirname env (path_join env destinationPath p)))
     = Resolved tt) ->
  (forall p c h', In p dests ->
     fs env h' (WriteFile (path_join env destinationPath p) c) = Resolved tt) ->
  processGenerateFiles env gens destinationPath h
  = (Resolved tt, flat_map (generateEvents env destinationPath) gens)
  /\ (forall bad post b r,
        destination bad = Some b ->
        (forall h',
           fs env h' (EnsureDir (path_dirname env
                                   (path_join env destinationPath b)))
           = Rejected r) ->
        processGenerateFiles env (gens ++ bad :: post) destinationPath h
        = (Rejected r,
           flat_map (generateEvents env destinationPath) gens
           ++ [EvFs (EnsureDir (path_dirname env
                                  (path_join env destinationPath b))) false])).
Proof.
  intros Hd Hdir Hwrite.
  assert (Hpre : forall i, In i gens -> forall h',
             (outputPath <- joinOpt env destinationPath (destination i) ;;
              askFs env (EnsureDir (path_dirname env outputPath)) ;;
              askFs env (WriteFile outputPath (data i))) h'
             = (Resolved tt, generateEvents env destinationPath i)).
  { intros i Hi h'.
    destruct (destinations_In gens dests i Hd Hi) as (p & Hp & Hin).
    unfold generateEvents. rewrite Hp. unfold then_, joinOpt, ret, askFs. cbn.
    rewrite app_nil_r, (Hdir p h' Hin). cbn. rewrite (Hwrite p _ _ Hin).
    reflexivity. }
  unfold processGenerateFiles. split.
  - now apply each_events with (res := fun _ => tt).
  - intros bad post b r Hbad Hfail.
    apply (each_stops _ (fun _ => tt) _ gens bad post (Rejected r)
             [EvFs (EnsureDir (path_dirname env
                                 (path_join env destinationPath b))) false]);
      [exact Hpre| |reflexivity].
    intros h'. rewrite Hbad. unfold then_, joinOpt, ret, askFs. cbn.
    rewrite app_nil_r, (Hfail h'). reflexivity.
Qed.

End GenerateFiles.

Lemma processGenerateFiles_in_order_witness :
  processGenerateFiles Scenario.benign
    [Scenario.generateInstr "docs/readme.txt" "hello"] "/mods/skyrim/Foo-1.0" []
  = (Resolved tt,
     [EvFs (EnsureDir "/mods/skyrim/Foo-1.0/docs") true;
      EvFs (WriteFile "/mods/skyrim/Foo-1.0/docs/readme.txt" (Some "hello"))
           true]).
Proof.
  exact (proj1 (processGenerateFiles_in_order Scenario.benign
                  "/mods/skyrim/Foo-1.0"
                  [Scenario.generateInstr "docs/readme.txt" "hello"]
                  ["docs/readme.txt"] [] eq_refl
                  (fun _ _ _ => eq_refl) (fun _ _ _ _ => eq_refl))).
Defined.

(** ** Ini tweaks *)

Section Grouped.

Context {A B : Type} (keyOf : A -> string) (valOf : A -> B).

(** Grouping by key and enumerating the keys: every key once, with the
    values of its elements in order. *)
Lemma grouped_enumerate l :
  let o := JsArray.enumerate (JsArray.groupBy keyOf valOf l) in
  NoDup (Js.keys o)
  /\ forall k vs, In (k, vs) o <-> vs = valuesOf keyOf valOf k l /\ vs <> [].
Proof.
  cbv zeta. set (g := JsArray.groupBy keyOf valOf l).
  destruct (groupBy_groups keyOf valOf l) as [Hnd Hget]. fold g in Hnd, Hget.
  pose proof (enumerate_permutation g) as Hperm.
  split.
  - unfold Js.keys. rewrite Hperm. exact Hnd.
  - intros k vs. split.
    + intros Hin. apply (Permutation_in _ Hperm) in Hin.
      apply (get_In g k vs Hnd) in Hin. rewrite Hget in Hin.
      destruct (valuesOf keyOf valOf k l); [discriminate|].
      injection Hin as <-. split; [reflexivity|discriminate].
    + intros [-> Hne].
      apply (Permutation_in _ (Permutation_sym Hperm)).
      apply (get_In g k _ Hnd). rewrite Hget.
      now destruct (valuesOf keyOf valOf k l).
Qed.

End Grouped.

Section MapAll.

Context {A B : Type} (f : A -> M B) (res : A -> B) (evs : A -> list Event).

Lemma mapAll_events l :
  (forall x, In x l -> forall h, f x h = (Resolved (res x), evs x)) ->
  forall h, mapAll f l h = (Resolved (map res l), flat_map evs l).
Proof.
  induction l as [|x l IH]; intros Hf h; cbn [mapAll map flat_map];
    [reflexivity|].
  rewrite (Hf x (or_introl eq_refl) h).
  rewrite (IH (fun y Hy => Hf y (or_intror Hy))). reflexivity.
Qed.

End MapAll.

Section IniEdits.

Context (env : Env).


End IniEdits.

Section IniContent.

Context (env : Env).

Lemma groupBy_one_key {A} (keyOf : A -> string) k (l acc : list A) :
  Forall (fun x => keyOf x = k) l -> acc <> [] ->
  fold_left (fun o x => JsArray.pushTo o (keyOf x) x) l [(k, acc)]
  = [(k, acc ++ l)].
Proof.
  revert acc. induction l as [|x l IH]; intros acc Hall Hacc; cbn.
  - now rewrite app_nil_r.
  - apply Forall_cons_1 in Hall as [Hx Hall]. rewrite Hx, String.eqb_refl.
    rewrite IH; [now rewrite <- app_assoc|exact Hall|].
    now destruct acc.
Qed.


End IniContent.


(** ** Submodules *)

Section SeriesEvents.

Context {A B : Type} (f : A -> M B).

Lemma mapSeries_resolved_events l h rs e :
  mapSeries f l h = (Resolved rs, e) ->
  forall x, In x l ->
    exists h' b e', f x h' = (Resolved b, e') /\ incl e' e.
Proof.
  revert h rs e. induction l as [|y l IH]; intros h rs e Hrun x Hin;
    [destruct Hin|].
  cbn [mapSeries] in Hrun.
  apply then_inv_resolved in Hrun as (b & e1 & e2 & Hy & Hrest & ->).
  apply then_inv_resolved in Hrest as (bs & e3 & e4 & Hl & Hret & ->).
  injection Hret as _ <-. destruct Hin as [<-|Hin].
  - exists h, b, e1. split; [exact Hy|]. now apply incl_appl.
  - destruct (IH _ _ _ Hl x Hin) as (h' & b' & e' & Hx & Hincl).
    exists h', b', e'. split; [exact Hx|].
    apply incl_appr, incl_appl. exact Hincl.
Qed.

Lemma mapSeries_rejected_events l h r e :
  mapSeries f l h = (Rejected r, e) ->
  exists x h' e', In x l /\ f x h' = (Rejected r, e') /\ incl e' e.
Proof.
  revert h e. induction l as [|y l IH]; intros h e Hrun;
    cbn [mapSeries] in Hrun; [discriminate|].
  unfold then_ at 1 in Hrun.
  destruct (f y h) as [[b|r'|] e1] eqn:Hy; try discriminate.
  - unfold then_ in Hrun.
    destruct (mapSeries f l (h ++ e1)) as [[bs|r'|] e2] eqn:Hl;
      try discriminate.
    injection Hrun as -> <-.
    destruct (IH _ _ Hl) as (x & h' & e' & Hin & Hx & Hincl).
    exists x, h', e'. split; [now right|]. split; [exact Hx|].
    now apply incl_appr.
  - injection Hrun as -> <-. exists y, h, e1.
    split; [now left|]. split; [exact Hy|apply incl_refl].
Qed.

End SeriesEvents.

Section Submodules.

Context (env : Env).

Lemma finally_remove {A} (p : M A) t h o e :
  finally_ p (askFs env (Remove t)) h = (o, e) ->
  (forall a, o = Resolved a -> In (EvFs (Remove t) true) e)
  /\ (forall r, o = Rejected r -> exists ok, In (EvFs (Remove t) ok) e).
Proof.
  unfold finally_, askFs.
  destruct (p h) as [[a|r|] e1]; cbn;
    try (destruct (fs env (h ++ e1) (Remove t)) as [[]|r'|]; cbn);
    intros [= <- <-]; split; intros x Hx; try discriminate;
    try (eexists; apply in_or_app; right; left; reflexivity);
    apply in_or_app; right; left; reflexivity.
Qed.

(** X12: [processSubmodule] removes the staging directory of every
    submodule it has worked on. When it resolves, the staging directory of
    each submodule was removed, successfully; when it rejects, it had called
    the removal of the staging directory of a submodule before: a submodule
    never fails without the clean-up being attempted. *)
Theorem processSubmodule_cleans_up inner mI subs destinationPath gameId modId
    h o evs :
  processSubmodule env inner mI subs destinationPath gameId modId h = (o, evs) ->
  (o = Resolved tt ->
   forall sub, In sub subs ->
     In (EvFs (Remove (submoduleTemp destinationPath sub)) true) evs)
  /\ (forall r, o = Rejected r ->
      exists sub ok,
        In sub subs
        /\ In (EvFs (Remove (submoduleTemp destinationPath sub)) ok) evs).
Proof.
  unfold processSubmodule, each. intros Hrun. split.
  - intros -> sub Hin.
    apply then_inv_resolved in Hrun as (rs & e1 & e2 & Hmap & Hret & ->).
    destruct (mapSeries_resolved_events _ _ _ _ _ Hmap sub Hin)
      as (h' & b & e' & Hsub & Hincl).
    apply in_or_app. left. apply Hincl.
    apply (finally_remove _ _ _ _ _ Hsub) with (a := b). reflexivity.
  - intros r ->. unfold then_ in Hrun.
    match type of Hrun with
    | context [mapSeries ?f subs h] =>
        destruct (mapSeries f subs h) as [[rs|r'|] e1] eqn:Hmap
    end; try discriminate.
    injection Hrun as -> <-.
    destruct (mapSeries_rejected_events _ _ _ _ _ Hmap)
      as (sub & h' & e' & Hin & Hsub & Hincl).
    destruct (proj2 (finally_remove _ _ _ _ _ Hsub) r eq_refl) as (ok & Hok).
    exists sub, ok. split; [exact Hin|]. apply Hincl, Hok.
Qed.

End Submodules.

Lemma processSubmodule_cleans_up_witness :
  let sub := Scenario.submoduleInstr "inner" "/downloads/Inner.zip" in
  let run :=
    processSubmodule Scenario.benign
      (processNested Scenario.benign 1 [Scenario.copyInstaller])
      [Scenario.copyInstaller] [sub] "/mods/skyrim/Foo-1.0" "skyrim" "Foo-1.0" []
  in
  fst run = Resolved tt
  /\ In (EvFs (Remove "/mods/skyrim/Foo-1.0.inner.installing") true) (snd run).
Proof.
  intros sub run.
  assert (Hrun : run = (Resolved tt, snd run)) by (vm_compute; reflexivity).
  split; [now rewrite Hrun|].
  exact (proj1 (processSubmodule_cleans_up Scenario.benign _ _ _ _ _ _ _ _ _
                  Hrun) eq_refl sub (or_introl eq_refl)).
Defined.

(** ** The name of the new mod *)

Section NameLoop.

Context (env : Env).

Lemma thenI_inv_resolved {A B} (p : MI A) (f : A -> MI B) v h b v' e :
  thenI p f v h = ((Resolved b, v'), e) ->
  exists a v1 e1 e2,
    p v h = ((Resolved a, v1), e1)
    /\ f a v1 (h ++ e1) = ((Resolved b, v'), e2) /\ e = e1 ++ e2.
Proof.
  unfold thenI. destruct (p v h) as [[[a|r|] v1] e1]; try discriminate.
  destruct (f a v1 (h ++ e1)) as [[o v2] e2] eqn:Hf.
  intros [= -> -> <-]. eauto 8.
Qed.


End NameLoop.

(** ** Replacing or keeping the previous version *)

Section ReplaceOrInstall.

Context (env : Env).

Lemma userVersionChoice_run old h result :
  showDialog env h (modName env (Some old)) = Resolved result ->
  userVersionChoice env old h
  = (if String.eqb (action result) "Cancel" then Rejected newUserCanceled
     else Resolved (action result),
     [EvShowDialog "question" (modName env (Some old))
                   ["Cancel"; "Replace"; "Install"]]).
Proof.
  intros Hd. unfold userVersionChoice, dialogPromise. rewrite Hd.
  now destruct (String.eqb (action result) "Cancel").
Qed.

Lemma thenI_lift_resolved {A B} (p : M A) (f : A -> MI B) v h a e1 :
  p h = (Resolved a, e1) ->
  thenI (lift p) f v h
  = (fst (f a v (h ++ e1)), e1 ++ snd (f a v (h ++ e1))).
Proof.
  intros Hp. unfold thenI, lift. rewrite Hp.
  now destruct (f a v (h ++ e1)).
Qed.

Lemma thenI_lift_rejected {A B} (p : M A) (f : A -> MI B) v h r e1 :
  p h = (Rejected r, e1) -> thenI (lift p) f v h = ((Rejected r, v), e1).
Proof. intros Hp. unfold thenI, lift. now rewrite Hp. Qed.

Lemma thenI_setV {B} g (f : unit -> MI B) v h :
  thenI (setV g) f v h = f tt (g v) h.
Proof.
  unfold thenI, setV. rewrite app_nil_r.
  now destruct (f tt (g v) h).
Qed.

(** X14: what the answer to the version-choice dialog does. With 'Install'
    the new mod keeps its own id, rules and overrides, it is enabled if it
    was to be or if the old version was enabled, and the only further
    effect is the event 'mods-enabled' (false) for an old version that was
    enabled: no action that disables it is dispatched. With 'Replace' the
    event 'remove-mod' is emitted for the old version and, once that
    succeeded, the new mod takes over the id, the rules and the file
    overrides of the old one; when the removal fails, the failure is the
    result and the id is left as it was. *)
Theorem versionChoice_replace_or_install profile gameId modInfo v h old result :
  mi_fileId modInfo <> Js.VUndefined ->
  findPreviousVersionMod (mi_fileId modInfo) (getState env h) gameId = Some old ->
  showDialog env h (modName env (Some old)) = Resolved result ->
  let run := versionChoice env (Some profile) gameId modInfo v h in
  let v' := snd (fst run) in
  let dialog :=
    EvShowDialog "question" (modName env (Some old))
                 ["Cancel"; "Replace"; "Install"] in
  let removal := EvRemoveMod (profile_gameId profile) (mod_id old) in
  let wasEnabled := modEnabled profile (mod_id old) in
  (action result = "Install" ->
   fst (fst run) = Resolved tt
   /\ v_modId v' = v_modId v /\ v_rules v' = v_rules v
   /\ v_overrides v' = v_overrides v
   /\ v_enable v' = v_enable v || wasEnabled
   /\ snd run
      = dialog :: (if wasEnabled
                   then [EvEmit "mods-enabled"
                                [mod_id old; "false"; profile_gameId profile]]
                   else []))
  /\ (action result = "Replace" ->
      removeMod env (h ++ [dialog]) (profile_gameId profile) (mod_id old)
      = Resolved tt ->
      fst (fst run) = Resolved tt
      /\ v_modId v' = mod_id old
      /\ v_rules v' = match mod_rules old with Some r => r | None => [] end
      /\ v_overrides v' = mod_fileOverrides old
      /\ v_enable v' = v_enable v || wasEnabled
      /\ snd run = [dialog; removal])
  /\ (action result = "Replace" ->
      forall r,
        removeMod env (h ++ [dialog]) (profile_gameId profile) (mod_id old)
        = Rejected r ->
        fst (fst run) = Rejected r /\ v_modId v' = v_modId v
        /\ snd run = [dialog; removal]).
Proof.
  intros Hid Hfind Hdialog. cbv zeta. unfold versionChoice.
  assert (Hold :
    match mi_fileId modInfo with
    | Js.VUndefined => None
    | fileId => findPreviousVersionMod fileId (getState env h) gameId
    end = Some old).
  { destruct (mi_fileId modInfo); try exact Hfind. now destruct Hid. }
  rewrite Hold. cbv zeta.
  set (v1 := match fi_choices (v_fullInfo v) with
             | Some _ => v
             | None => _
             end).
  assert (Hv1 : v_modId v1 = v_modId v /\ v_rules v1 = v_rules v
                /\ v_overrides v1 = v_overrides v /\ v_enable v1 = v_enable v)
    by (subst v1; destruct (fi_choices (v_fullInfo v)); repeat split).
  destruct Hv1 as (Hm & Hr & Ho & He). clearbody v1.
  pose proof (userVersionChoice_run old h result Hdialog) as Hrun.
  split; [|split].
  - intros Hact. rewrite Hact in Hrun. cbn in Hrun.
    rewrite (thenI_lift_resolved _ _ _ _ _ _ Hrun).
    change ("Install" =? "Install")%string with true. cbv iota.
    rewrite thenI_setV.
    destruct (modEnabled profile (mod_id old)); cbn;
      rewrite ?orb_true_r, ?orb_false_r; repeat split; assumption.
  - intros Hact Hrem. rewrite Hact in Hrun. cbn in Hrun.
    rewrite (thenI_lift_resolved _ _ _ _ _ _ Hrun).
    change ("Replace" =? "Install")%string with false.
    change ("Replace" =? "Replace")%string with true. cbv iota.
    rewrite thenI_setV.
    assert (Hrm : emitRemoveMod env (profile_gameId profile) (mod_id old)
                    (h ++ [EvShowDialog "question" (modName env (Some old))
                                        ["Cancel"; "Replace"; "Install"]])
                  = (Resolved tt,
                     [EvRemoveMod (profile_gameId profile) (mod_id old)]))
      by (unfold emitRemoveMod, ask; now rewrite Hrem).
    rewrite (thenI_lift_resolved _ _ _ _ _ _ Hrm). cbn.
    rewrite He. repeat split.
  - intros Hact r Hrem. rewrite Hact in Hrun. cbn in Hrun.
    rewrite (thenI_lift_resolved _ _ _ _ _ _ Hrun).
    change ("Replace" =? "Install")%string with false.
    change ("Replace" =? "Replace")%string with true. cbv iota.
    rewrite thenI_setV.
    assert (Hrm : emitRemoveMod env (profile_gameId profile) (mod_id old)
                    (h ++ [EvShowDialog "question" (modName env (Some old))
                                        ["Cancel"; "Replace"; "Install"]])
                  = (Rejected r,
                     [EvRemoveMod (profile_gameId profile) (mod_id old)]))
      by (unfold emitRemoveMod, ask; now rewrite Hrem).
    rewrite (thenI_lift_rejected _ _ _ _ _ _ Hrm). cbn.
    repeat split. exact Hm.
Qed.

End ReplaceOrInstall.

Lemma versionChoice_replace_or_install_witness :
  let env :=
    Scenario.answering (Scenario.envWithMod (Scenario.modWithFileIds 42 10))
                       "Replace" in
  let run :=
    versionChoice env (Some Scenario.profile) "skyrim"
                  (mkModInfo (Js.VNum 42) EmptyString) Scenario.noVars [] in
  fst (fst run) = Resolved tt
  /\ v_modId (snd (fst run)) = "m1"
  /\ snd run = [EvShowDialog "question" "m1" ["Cancel"; "Replace"; "Install"];
                EvRemoveMod "skyrim" "m1"].
Proof.
  intros env run.
  destruct (proj1 (proj2 (versionChoice_replace_or_install env
                            Scenario.profile "skyrim"
                            (mkModInfo (Js.VNum 42) EmptyString)
                            Scenario.noVars [] (Scenario.modWithFileIds 42 10)
                            (mkDialogResult "Replace" None)
                            ltac:(discriminate) eq_refl eq_refl))
                  eq_refl eq_refl)
    as (Ho & Hm & _ & _ & _ & He).
  repeat split; assumption.
Defined.

(** ** A name that is taken *)

Section UserReplace.

Context (env : Env).

Lemma get_omitVersionKeys attrs k :
  Js.get (omitVersionKeys attrs) k
  = if existsb (String.eqb k) versionKeys then None else Js.get attrs k.
Proof.
  unfold omitVersionKeys.
  induction attrs as [|[k' v] attrs IH]; cbn [List.filter Js.get fst].
  - now destruct (existsb _ _).
  - change ["version"; "fileName"; "fileVersion"] with versionKeys in *.
    destruct (String.eqb_spec k' k) as [->|Hk].
    + destruct (existsb (String.eqb k) versionKeys) eqn:Hom; cbn [negb].
      * exact IH.
      * cbn [Js.get]. now rewrite String.eqb_refl.
    + destruct (existsb (String.eqb k') versionKeys); cbn [negb].
      * exact IH.
      * cbn [Js.get]. destruct (String.eqb_spec k' k); [congruence|exact IH].
Qed.

(** X15: the answers to the question about a name that is taken. 'Cancel'
    rejects with [UserCanceled]. 'Add Variant' resolves, without touching
    the existing mod, with the id [modId + '+' + variant], not enabled and
    without attributes. 'Replace' emits 'remove-mod' for the existing mod
    and, when the removal succeeded, resolves with the same id, no variant,
    enabled exactly when the existing mod is enabled in the active profile
    of that game, and with the attributes of the existing mod except
    [version], [fileName] and [fileVersion]. *)
Theorem queryUserReplace_choices modId gameId h mods result :
  Js.get (persistent_mods (getState env h)) gameId = Some mods ->
  showDialog env h (modName env (Js.get mods modId)) = Resolved result ->
  let run := queryUserReplace env modId gameId h in
  let dialog :=
    EvShowDialog "question" (modName env (Js.get mods modId))
                 ["Cancel"; "Add Variant"; "Replace"] in
  (action result = "Cancel" -> run = (Rejected newUserCanceled, [dialog]))
  /\ (action result = "Add Variant" ->
      forall variant, input_variant result = Some variant ->
        run = (Resolved (mkReplaceChoice (modId +:+ "+" +:+ variant) variant
                                         false []),
               [dialog]))
  /\ (action result = "Replace" ->
      forall m, Js.get mods modId = Some m ->
        removeMod env (h ++ [dialog]) gameId modId = Resolved tt ->
        exists choice,
          run = (Resolved choice, [dialog; EvRemoveMod gameId modId])
          /\ choice_id choice = modId
          /\ choice_variant choice = EmptyString
          /\ choice_enable choice
             = match active_profile (getState env (h ++ [dialog])) with
               | Some p => String.eqb (profile_gameId p) gameId
                           && modEnabled p modId
               | None => false
               end
          /\ forall k,
               Js.get (choice_attributes choice) k
               = if existsb (String.eqb k) versionKeys then None
                 else Js.get (match mod_attributes m with
                              | Some a => a
                              | None => []
                              end) k).
Proof.
  intros Hmods Hdialog. cbv zeta. unfold queryUserReplace.
  rewrite Hmods. unfold dialogPromise. rewrite Hdialog.
  split; [|split].
  - intros ->. reflexivity.
  - intros -> variant ->. reflexivity.
  - intros -> m Hm Hrem. cbn -[omitVersionKeys].
    unfold emitRemoveMod, ask, then_. rewrite Hrem, Hm.
    cbn -[omitVersionKeys]. eexists. split; [reflexivity|].
    cbn [choice_id choice_variant choice_enable choice_attributes].
    split; [reflexivity|]. split; [reflexivity|]. split.
    + match goal with
      | |- context [active_profile ?st] => destruct (active_profile st) as [p|]
      end; [|reflexivity].
      now destruct (String.eqb (profile_gameId p) gameId).
    + intros k. apply get_omitVersionKeys.
Qed.

End UserReplace.

Lemma queryUserReplace_choices_witness :
  let env :=
    Scenario.answering (Scenario.envWithMod (Scenario.modWithFileIds 42 10))
                       "Replace" in
  exists choice,
    queryUserReplace env "m1" "skyrim" []
    = (Resolved choice,
       [EvShowDialog "question" "m1" ["Cancel"; "Add Variant"; "Replace"];
        EvRemoveMod "skyrim" "m1"])
    /\ choice_id choice = "m1"
    /\ choice_enable choice = false
    /\ Js.get (choice_attributes choice) "fileId" = Some (Js.VNum 10).
Proof.
  intros env.
  destruct (proj2 (proj2 (queryUserReplace_choices env "m1" "skyrim" []
                            [("m1", Scenario.modWithFileIds 42 10)]
                            (mkDialogResult "Replace" None) eq_refl eq_refl))
                  eq_refl (Scenario.modWithFileIds 42 10) eq_refl eq_refl)
    as (choice & Hrun & Hid & _ & Hen & Hattrs).
  exists choice. split; [exact Hrun|]. split; [exact Hid|].
  split; [exact Hen|]. exact (Hattrs "fileId").
Defined.

(** ** Dependencies that cannot be downloaded *)

Section Undownloadable.

Context (env : Env) (fuel : nat) (mI : list IModInstaller) (profile : IProfile).

Lemma installOne_download_fails dep (dl : M (option string)) h r e :
  dl h = (Rejected r, e) ->
  installOne env fuel mI profile dep dl h = (Rejected r, e).
Proof. intros Hdl. unfold installOne. now apply then_rejected. Qed.

(** X16: a dependency whose archive cannot be obtained is dropped and never
    installed. (1) Without a download and without a usable source URL in the
    first lookup result, or with a download that is [null], the mapper of
    [doInstallDependencies] resolves to [undefined] after the non-reportable
    notification with the hint about files no longer available; nothing is
    downloaded. (2) When the download has to go through
    'start-download-update' (fuzzy version, lookup result with a mod id or a
    file id) and no listener supports the source, the only notification is
    the non-reportable 'source not supported'; when the listener answers
    without a download id, the dependency is dropped without notification.
    In both cases 'start-download' is not tried. *)
Theorem installDependency_undownloadable downloads dep h :
  let run := installDependency env fuel mI profile downloads dep h in
  let hint :=
    EvShowErrorNotification "Failed to install dependency"
                            failedDependencyHint (Some false) in
  ((dep_download dep = DlNull
    \/ (dep_download dep = DlUndefined
        /\ match dep_lookupResults dep with
           | lr :: _ => sourceURI lr = None \/ sourceURI lr = Some EmptyString
           | [] => True
           end)) ->
   run = (Resolved None, [hint]))
  /\ (forall lr rest uri vm,
        dep_download dep = DlUndefined ->
        dep_lookupResults dep = lr :: rest ->
        sourceURI lr = Some uri -> uri <> EmptyString ->
        ref_versionMatch (dep_reference dep) = Some vm ->
        looksFuzzy env (Some vm) = true ->
        isSome (details_modId lr) || isSome (details_fileId lr) = true ->
        let update := EvEmitAndAwait "start-download-update" (updateArgs lr vm) in
        let answer :=
          emitAndAwait env h "start-download-update" (updateArgs lr vm) in
        (answer = Resolved None ->
         run = (Resolved None,
                [update;
                 EvShowErrorNotification "Failed to install dependency"
                   ("source not supported " +:+ dquote
                    +:+ keyOfOpt (li_source lr) +:+ dquote)
                   (Some false)]))
        /\ (answer = Resolved (Some []) -> run = (Resolved None, [update]))
        /\ (forall ids, answer = Resolved (Some (EmptyString :: ids)) ->
              run = (Resolved None, [update]))).
Proof.
  cbv zeta. split.
  - intros Hcase.
    assert (Hdl : dlPromise env downloads dep = Some (reject failedToDetermineUrl)).
    { unfold dlPromise. destruct Hcase as [->|[-> Hlr]]; [reflexivity|].
      destruct (dep_lookupResults dep) as [|lr rest]; [reflexivity|].
      destruct Hlr as [->| ->]; reflexivity. }
    rewrite (installDependency_policy env fuel mI profile downloads dep _ h Hdl).
    rewrite (installOne_download_fails dep (reject failedToDetermineUrl) h
               failedToDetermineUrl [] eq_refl).
    reflexivity.
  - intros lr rest uri vm Hd Hlr Huri Hne Hvm Hfuzzy Hids.
    assert (Hdl : dlPromise env downloads dep
                  = Some (downloadModAsync env (dep_reference dep) lr)).
    { unfold dlPromise. rewrite Hd, Hlr, Huri.
      destruct uri; [now destruct Hne|reflexivity]. }
    rewrite (installDependency_policy env fuel mI profile downloads dep _ h Hdl).
    assert (Hmatch : forall o e,
               downloadMatching env lr vm h = (Rejected o, e) ->
               downloadModAsync env (dep_reference dep) lr h = (Rejected o, e)).
    { intros o e Hm. unfold downloadModAsync. rewrite Hvm, Hfuzzy.
      now apply then_rejected. }
    assert (Hupdate : downloadMatching env lr vm h
                      = (match emitAndAwait env h "start-download-update"
                                 (updateArgs lr vm) with
                         | Resolved None =>
                             Rejected (newError NotFound
                                         ("source not supported " +:+ dquote
                                          +:+ keyOfOpt (li_source lr) +:+ dquote))
                         | Resolved (Some []) =>
                             Rejected (newProcessCanceledReported "Download failed")
                         | Resolved (Some (first :: _)) =>
                             if Js.truthyStr first then Resolved (Some first)
                             else Rejected (newProcessCanceledReported
                                              "Download failed")
                         | Rejected r => Rejected r
                         | Pending => Pending
                         end,
                         [EvEmitAndAwait "start-download-update"
                                         (updateArgs lr vm)])).
    { unfold downloadMatching.
      destruct (details_modId lr), (details_fileId lr); try discriminate Hids;
        unfold then_, ask;
        destruct (emitAndAwait env h _ _) as [[[|first ids]|]|r|]; cbn;
        try reflexivity; now destruct (Js.truthyStr first). }
    repeat split.
    + intros Hans. rewrite Hans in Hupdate.
      rewrite (installOne_download_fails dep _ h _ _ (Hmatch _ _ Hupdate)).
      reflexivity.
    + intros Hans. rewrite Hans in Hupdate.
      rewrite (installOne_download_fails dep _ h _ _ (Hmatch _ _ Hupdate)).
      reflexivity.
    + intros ids Hans. rewrite Hans in Hupdate. cbn in Hupdate.
      rewrite (installOne_download_fails dep _ h _ _ (Hmatch _ _ Hupdate)).
      reflexivity.
Qed.

End Undownloadable.

(** ** Dependencies that are installed already *)

Section AlreadyInstalled.

Context (env : Env) (fuel : nat) (mI : list IModInstaller) (profile : IProfile).

Lemma applyExtraFromRule_run modId extra h :
  applyExtraFromRule profile modId extra h
  = (Resolved tt, extraDispatches profile modId extra).
Proof.
  unfold applyExtraFromRule, extraDispatches.
  destruct extra as [[[t|] [n|]]|]; reflexivity.
Qed.

Lemma installOne_installed dep (dl : M (option string)) m h id e mods :
  dep_mod dep = Some m ->
  dl h = (Resolved id, e) ->
  let enable := EvDispatch (setModEnabled (profile_id profile) (mod_id m) true) in
  let events := e ++ enable :: extraDispatches profile (mod_id m) (dep_extra dep) in
  Js.get (persistent_mods (getState env (h ++ events))) (profile_gameId profile)
  = Some mods ->
  installOne env fuel mI profile dep dl h
  = (Resolved (Some (with_mod dep (Js.get mods (mod_id m)))), events).
Proof.
  intros Hm Hdl enable events Hmods. unfold installOne. rewrite Hm.
  unfold then_, ret, dispatch, emit. rewrite Hdl. cbn [nullKey].
  rewrite applyExtraFromRule_run.
  replace ((((h ++ e) ++ [])
            ++ [EvDispatch (setModEnabled (profile_id profile)
                                          (mod_id m) true)])
           ++ extraDispatches profile (mod_id m) (dep_extra dep))
    with (h ++ events)
    by (subst events enable; now rewrite app_nil_r, <- !app_assoc).
  rewrite Hmods. subst events enable. cbn. now rewrite app_nil_r.
Qed.

(** X17: a dependency that is installed already is not installed again.
    When the dependency carries its mod and its download is known to the
    store, the mapper of [doInstallDependencies] only enables that mod in
    the profile and applies the extra of the rule (after resuming the
    download when it is paused); nothing is extracted and no installer is
    run. The result is the dependency with the mod the store holds under
    the profile's game for that id. *)
Theorem installDependency_already_installed downloads dep h m id d :
  dep_mod dep = Some m ->
  dep_download dep = DlId id ->
  downloads !! id = Some d ->
  let enable := EvDispatch (setModEnabled (profile_id profile) (mod_id m) true) in
  let applied := enable :: extraDispatches profile (mod_id m) (dep_extra dep) in
  let run := installDependency env fuel mI profile downloads dep h in
  (dl_state d <> "paused" ->
   forall mods,
     Js.get (persistent_mods (getState env (h ++ applied)))
            (profile_gameId profile) = Some mods ->
     run = (Resolved (Some (with_mod dep (Js.get mods (mod_id m)))), applied))
  /\ (dl_state d = "paused" ->
      resumeDownload env h id = Resolved tt ->
      forall mods,
        Js.get (persistent_mods
                  (getState env (h ++ EvResumeDownload id :: applied)))
               (profile_gameId profile) = Some mods ->
        run = (Resolved (Some (with_mod dep (Js.get mods (mod_id m)))),
               EvResumeDownload id :: applied)).
Proof.
  intros Hm Hd Hid. cbv zeta. split.
  - intros Hstate mods Hmods.
    assert (Hdl : dlPromise env downloads dep = Some (ret (Some id))).
    { unfold dlPromise. rewrite Hd, Hid.
      destruct (String.eqb_spec (dl_state d) "paused"); [contradiction|].
      reflexivity. }
    rewrite (installDependency_policy env fuel mI profile downloads dep _ h Hdl).
    rewrite (installOne_installed dep (ret (Some id)) m h (Some id) [] mods Hm
               eq_refl Hmods).
    reflexivity.
  - intros Hstate Hresume mods Hmods.
    assert (Hdl : dlPromise env downloads dep
                  = Some (ask (EvResumeDownload id)
                              (fun h => resumeDownload env h id) ;;
                          ret (Some id))).
    { unfold dlPromise. rewrite Hd, Hid, Hstate. reflexivity. }
    rewrite (installDependency_policy env fuel mI profile downloads dep _ h Hdl).
    assert (Hrun : (ask (EvResumeDownload id)
                        (fun h => resumeDownload env h id) ;;
                    ret (Some id)) h
                   = (Resolved (Some id), [EvResumeDownload id])).
    { unfold then_, ask. now rewrite Hresume. }
    rewrite (installOne_installed dep _ m h (Some id) [EvResumeDownload id]
               mods Hm Hrun Hmods).
    reflexivity.
Qed.

End AlreadyInstalled.

Lemma installDependency_already_installed_witness :
  installDependency Scenario.settledEnv 1 [Scenario.copyInstaller]
    Scenario.profile (persistent_downloads_files Scenario.settledState)
    Scenario.settledDependency []
  = (Resolved (Some Scenario.settledDependency),
     [EvDispatch (setModEnabled "p1" "m1" true);
      EvDispatch (setModType "skyrim" "m1" (Js.VStr "dinput"))]).
Proof.
  exact (proj1 (installDependency_already_installed Scenario.settledEnv 1
                  [Scenario.copyInstaller] Scenario.profile
                  (persistent_downloads_files Scenario.settledState)
                  Scenario.settledDependency [] (Scenario.modWithFileIds 42 10)
                  "dl1" (mkDownload "finished" ["skyrim"] "m1.zip")
                  eq_refl eq_refl eq_refl)
               ltac:(discriminate)
               [("m1", Scenario.modWithFileIds 42 10)] eq_refl).
Defined.

(** ** A download the store does not know *)

Section UnknownDownload.

Context (env : Env) (fuel : nat) (mI : list IModInstaller) (profile : IProfile).

(** X18: a dependency that names a download the store does not hold ends
    the batch. When the first dependency of the list has a download id
    without an entry in [state.persistent.downloads.files], reading the
    state of that download throws; [doInstallDependencies] then shows the
    (reportable) notification 'Failed to install dependencies' and resolves
    to the empty list, and no other dependency of the list is downloaded or
    installed. *)
Theorem doInstallDependencies_unknown_download sourceModId dep rest
    recommended h id :
  dep_download dep = DlId id ->
  persistent_downloads_files (getState env h) !! id = None ->
  exists message,
    doInstallDependencies env fuel mI profile sourceModId (dep :: rest)
                          recommended h
    = (Resolved [],
       [EvShowErrorNotification "Failed to install dependencies" message None]).
Proof.
  intros Hd Hid. eexists.
  unfold doInstallDependencies. cbn [mapSeries].
  unfold installDependency at 1, dlPromise. rewrite Hd, Hid.
  reflexivity.
Qed.

End UnknownDownload.

Lemma doInstallDependencies_unknown_download_witness :
  exists message,
    doInstallDependencies Scenario.settledEnv 1 [Scenario.copyInstaller]
      Scenario.profile "source"
      [mkDependency (DlId "gone") (mkRef None None None (Some "Foo") None) []
                    None None None None;
       Scenario.settledDependency] false []
    = (Resolved [],
       [EvShowErrorNotification "Failed to install dependencies" message None]).
Proof.
  exact (doInstallDependencies_unknown_download Scenario.settledEnv 1
           [Scenario.copyInstaller] Scenario.profile "source"
           (mkDependency (DlId "gone")
              (mkRef None None None (Some "Foo") None) [] None None None None)
           [Scenario.settledDependency] false [] "gone" eq_refl eq_refl).
Defined.

(** ** Sorting the gathered dependencies *)

Lemma splitDependencies_from profile ds s x e :
  fold_left
    (fun '(success, existing, error) dep =>
       match dep with
       | DepError e => (success, existing, error ++ [e])
       | DepOk d =>
           match dep_mod d with
           | Some m =>
               if modEnabled profile (mod_id m)
               then (success, existing ++ [d], error)
               else (success ++ [d], existing, error)
           | None => (success ++ [d], existing, error)
           end
       end)
    ds (s, x, e)
  = (s ++ List.filter (fun d => negb (fulfilled profile d))
                      (resolvedDependencies ds),
     x ++ List.filter (fulfilled profile) (resolvedDependencies ds),
     e ++ dependencyErrors ds).
Proof.
  revert s x e. induction ds as [|d ds IH]; intros s x e.
  - cbn. now rewrite !app_nil_r.
  - cbn [fold_left]. destruct d as [d|msg].
    + unfold resolvedDependencies, dependencyErrors. cbn [flat_map app].
      fold (resolvedDependencies ds). fold (dependencyErrors ds).
      cbn [List.filter].
      assert (Hf : fulfilled profile d
                   = match dep_mod d with
                     | Some m => modEnabled profile (mod_id m)
                     | None => false
                     end) by reflexivity.
      rewrite Hf. clear Hf.
      destruct (dep_mod d) as [m|].
      * destruct (modEnabled profile (mod_id m)); rewrite IH; cbn [negb];
          now rewrite <- ?app_assoc.
      * rewrite IH. cbn [negb]. now rewrite <- ?app_assoc.
    + unfold resolvedDependencies, dependencyErrors. cbn [flat_map app].
      fold (resolvedDependencies ds). fold (dependencyErrors ds).
      rewrite IH. now rewrite <- ?app_assoc.
Qed.

(** X19: the split of the gathered dependencies is a partition that keeps
    the order. The errors go to [error]; of the others, those whose mod is
    installed and enabled in the profile go to [existing] and all the rest
    (no mod, or a mod the profile does not have enabled) to [success]; each
    list keeps the order of the gathered list, and no dependency is lost or
    counted twice. *)
Theorem splitDependencies_partition profile ds :
  splitDependencies profile ds
  = (List.filter (fun d => negb (fulfilled profile d)) (resolvedDependencies ds),
     List.filter (fulfilled profile) (resolvedDependencies ds),
     dependencyErrors ds)
  /\ (let '(success, existing, error) := splitDependencies profile ds in
      length success + length existing + length error = length ds).
Proof.
  assert (Heq : splitDependencies profile ds
    = (List.filter (fun d => negb (fulfilled profile d)) (resolvedDependencies ds),
       List.filter (fulfilled profile) (resolvedDependencies ds),
       dependencyErrors ds)).
  { unfold splitDependencies. now rewrite splitDependencies_from. }
  split; [exact Heq|]. rewrite Heq. clear Heq.
  induction ds as [|[d|msg] ds IH]; [reflexivity| |].
  - unfold resolvedDependencies, dependencyErrors in *. cbn [flat_map app].
    cbn [List.filter]. destruct (fulfilled profile d); cbn [negb length]; lia.
  - unfold resolvedDependencies, dependencyErrors in *. cbn [flat_map app length].
    lia.
Qed.

(** ** The dependencies of a mod *)

Section DependenciesImpl.

Context (env : Env) (fuel : nat) (mI : list IModInstaller) (profile : IProfile).

Lemma caught_and_closed {A} (p : M A) (handler : Rejection -> M A) (e : Event) h :
  (forall r h', exists a evs, handler r h' = (Resolved a, evs)) ->
  let '(o, evs) := finally_ (catch_ p handler) (emit e) h in
  (forall r, o <> Rejected r)
  /\ (o <> Pending -> exists before, evs = before ++ [e])
  /\ (forall a e1, p h = (Resolved a, e1) -> o = Resolved a /\ evs = e1 ++ [e])
  /\ (forall r e1, p h = (Rejected r, e1) ->
        evs = e1 ++ snd (handler r (h ++ e1)) ++ [e]).
Proof.
  intros Hh. unfold finally_, catch_, emit.
  destruct (p h) as [[a|r|] e1] eqn:Hp.
  - split; [discriminate|]. split; [intros _; now exists e1|].
    split; [intros a' e1' [= <- <-]; now split|intros r e1' [=]].
  - destruct (Hh r (h ++ e1)) as (a & e2 & Hr). rewrite Hr. cbn [snd].
    split; [discriminate|].
    split; [intros _; exists (e1 ++ e2); now rewrite <- app_assoc|].
    split; [intros a' e1' [=]|].
    intros r' e1' [= <- <-]. rewrite Hr. cbn [snd]. now rewrite app_assoc.
  - split; [discriminate|]. split; [intros H; now contradiction H|].
    split; [intros a e1' [=]|intros r e1' [=]].
Qed.


Lemma splitDependencies_nothing_to_install ds :
  Forall (fun d => match d with
                   | DepOk d => fulfilled profile d = true
                   | DepError _ => True
                   end) ds ->
  splitDependencies profile ds
  = ([], List.filter (fulfilled profile) (resolvedDependencies ds),
     dependencyErrors ds).
Proof.
  intros Hall. unfold splitDependencies. rewrite splitDependencies_from.
  cbn [app]. f_equal. f_equal.
  induction Hall as [|[d|msg] ds Hd _ IH]; [reflexivity| |exact IH].
  unfold resolvedDependencies. cbn [flat_map app List.filter].
  rewrite Hd. exact IH.
Qed.

(** X21: a failure to gather the dependencies is reported, not passed on.
    When [gatherDependencies] rejects, [installDependenciesImpl] dismisses
    the activity notification, shows the error notification 'Failed to check
    dependencies' with the error, emits 'did-install-dependencies' and
    resolves; nothing is downloaded, installed or dispatched. *)
Theorem installDependenciesImpl_gather_fails modId name rules installPath
    silent h r :
  let started :=
    [EvEmit "will-install-dependencies" [profile_id profile; modId; "false"];
     EvSendNotification "activity" "Checking dependencies"] in
  gatherDependencies env (h ++ started) rules false = Rejected r ->
  installDependenciesImpl env fuel mI profile modId name rules installPath
                          silent h
  = (Resolved tt,
     started
     ++ [EvGatherDependencies false;
         EvDismissNotification (installPath +:+ "_activity");
         EvShowErrorNotification "Failed to check dependencies"
                                 (messageOf r) None;
         EvEmit "did-install-dependencies"
                [profile_id profile; modId; "false"]]).
Proof.
  intros started Hg. unfold installDependenciesImpl.
  unfold then_ at 1 2. unfold emit at 1 2. cbn [app].
  unfold finally_, catch_. unfold then_ at 1. unfold ask at 1.
  rewrite <- app_assoc. cbn [app]. fold started.
  rewrite Hg. reflexivity.
Qed.

(** X22: with nothing left to install, a call that is not silent, or that
    met dependencies it could not resolve, asks nothing and changes
    nothing. When every gathered dependency is either an error or a mod
    that is enabled in the profile, no dialog is shown, no rule is
    rewritten and no error is reported: the notification is dismissed,
    'did-install-dependencies' is emitted and the promise resolves. The
    dependencies that could not be resolved are not shown to the user. *)
Theorem installDependenciesImpl_nothing_to_install modId name rules
    installPath silent h ds :
  let started :=
    [EvEmit "will-install-dependencies" [profile_id profile; modId; "false"];
     EvSendNotification "activity" "Checking dependencies"] in
  gatherDependencies env (h ++ started) rules false = Resolved ds ->
  Forall (fun d => match d with
                   | DepOk d => fulfilled profile d = true
                   | DepError _ => True
                   end) ds ->
  silent = false \/ dependencyErrors ds <> [] ->
  installDependenciesImpl env fuel mI profile modId name rules installPath
                          silent h
  = (Resolved tt,
     started
     ++ [EvGatherDependencies false;
         EvDismissNotification (installPath +:+ "_activity");
         EvEmit "did-install-dependencies"
                [profile_id profile; modId; "false"]]).
Proof.
  intros started Hg Hall Hloud. unfold installDependenciesImpl.
  unfold then_ at 1 2. unfold emit at 1 2. cbn [app].
  unfold finally_, catch_. unfold then_ at 1. unfold ask at 1.
  rewrite <- app_assoc. cbn [app]. fold started.
  rewrite Hg. unfold then_ at 1. unfold emit at 1.
  destruct ds as [|d ds]; [reflexivity|].
  rewrite (splitDependencies_nothing_to_install _ Hall).
  assert (Hquiet : (silent && match dependencyErrors (d :: ds) with
                              | [] => true
                              | _ => false
                              end) = false).
  { destruct Hloud as [->|Hne]; [reflexivity|].
    destruct (dependencyErrors (d :: ds)); [now contradiction Hne|].
    apply andb_false_r. }
  rewrite Hquiet. reflexivity.
Qed.

End DependenciesImpl.

Lemma installDependenciesImpl_gather_fails_witness :
  installDependenciesImpl Scenario.ungathered 1 [] Scenario.profile "m0"
                          "Mod" [] "/mods/skyrim" false []
  = (Resolved tt,
     [EvEmit "will-install-dependencies" ["p1"; "m0"; "false"];
      EvSendNotification "activity" "Checking dependencies";
      EvGatherDependencies false;
      EvDismissNotification "/mods/skyrim_activity";
      EvShowErrorNotification "Failed to check dependencies"
                              "no meta server" None;
      EvEmit "did-install-dependencies" ["p1"; "m0"; "false"]]).
Proof.
  exact (installDependenciesImpl_gather_fails Scenario.ungathered 1 []
           Scenario.profile "m0" "Mod" [] "/mods/skyrim" false []
           (RejString "no meta server") eq_refl).
Defined.

Lemma installDependenciesImpl_nothing_to_install_witness :
  installDependenciesImpl Scenario.gathered 1 [] Scenario.enabledProfile "m0"
                          "Mod" [] "/mods/skyrim" true []
  = (Resolved tt,
     [EvEmit "will-install-dependencies" ["p1"; "m0"; "false"];
      EvSendNotification "activity" "Checking dependencies";
      EvGatherDependencies false;
      EvDismissNotification "/mods/skyrim_activity";
      EvEmit "did-install-dependencies" ["p1"; "m0"; "false"]]).
Proof.
  refine (installDependenciesImpl_nothing_to_install Scenario.gathered 1 []
            Scenario.enabledProfile "m0" "Mod" [] "/mods/skyrim" true []
            [DepOk Scenario.settledDependency; DepError "not found"]
            eq_refl _ (or_intror _)).
  - repeat constructor.
  - discriminate.
Defined.

(** ** Rewriting the rules of the source mod *)

Section UpdateRules.

Context (env : Env) (profile : IProfile) (sourceModId : string)
        (recommended : bool).

(** X23: [updateRules] replaces one rule per dependency, in the order of
    the list. When every dependency has its mod, it resolves after having
    dispatched, for each of them, the removal of the first rule of the
    source mod (as the store holds them after the dispatches for the
    dependencies before it) whose reference equals the reference of the
    dependency - [undefined] when there is none - followed by the addition
    of a rule with the fields of the removed one, the type 'recommends' or
    'requires', and the reference of the dependency with the id of the
    installed mod. It dispatches nothing else. *)
Theorem updateRules_rewrites ds h :
  Forall (fun d => dep_mod d <> None) ds ->
  exists updates,
    updateRules env profile sourceModId ds recommended h
    = (Resolved tt, concat updates)
    /\ length updates = length ds
    /\ forall i d,
         ds !! i = Some d ->
         exists m,
           dep_mod d = Some m
           /\ updates !! i
              = Some (ruleUpdate env profile sourceModId recommended d m
                        (find (fun iter =>
                                 referenceEqual env (rule_reference iter)
                                                (dep_reference d))
                              (rulesAt env profile sourceModId
                                       (h ++ concat (take i updates))))).
Proof.
  intros Hall. unfold updateRules, each.
  match goal with
  | |- context [mapSeries ?f ds] => set (one := f)
  end.
  assert (Hm : exists updates rs,
             mapSeries one ds h = (Resolved rs, concat updates)
             /\ length updates = length ds
             /\ forall i d,
                  ds !! i = Some d ->
                  exists m,
                    dep_mod d = Some m
                    /\ updates !! i
                       = Some (ruleUpdate env profile sourceModId recommended
                                 d m
                                 (find (fun iter =>
                                          referenceEqual env
                                            (rule_reference iter)
                                            (dep_reference d))
                                       (rulesAt env profile sourceModId
                                          (h ++ concat (take i updates)))))).
  { clear -Hall. revert h.
    induction Hall as [|d ds Hd _ IH]; intros h.
    - exists [], []. split; [reflexivity|]. split; [reflexivity|].
      intros i d Hi. now rewrite lookup_nil in Hi.
    - destruct (dep_mod d) as [m|] eqn:Hm; [|now contradiction Hd].
      cbn [mapSeries]. unfold then_ at 1.
      assert (Hone : one d h
                     = (Resolved tt,
                        ruleUpdate env profile sourceModId recommended d m
                          (find (fun iter =>
                                   referenceEqual env (rule_reference iter)
                                                  (dep_reference d))
                                (rulesAt env profile sourceModId h)))).
      { unfold one. rewrite Hm. reflexivity. }
      rewrite Hone.
      match goal with
      | |- context [then_ (mapSeries one ds) _ ?h'] =>
          destruct (IH h') as (updates & rs & Hrun & Hlen & Hrel)
      end.
      unfold then_ at 1. rewrite Hrun. unfold ret.
      eexists (_ :: updates), _. split; [|split].
      + cbn [concat]. rewrite app_nil_r. reflexivity.
      + cbn [length]. now rewrite Hlen.
      + intros [|i] d' Hi.
        * injection Hi as <-. exists m. split; [exact Hm|].
          cbn [take concat]. now rewrite app_nil_r.
        * destruct (Hrel i d' Hi) as (m' & Hm' & Hu).
          exists m'. split; [exact Hm'|].
          cbn [take concat]. rewrite app_assoc. exact Hu. }
  destruct Hm as (updates & rs & Hrun & Hlen & Hrel).
  exists updates. split; [|split; [exact Hlen|exact Hrel]].
  unfold then_. rewrite Hrun. unfold ret. now rewrite app_nil_r.
Qed.

End UpdateRules.

Lemma updateRules_rewrites_witness :
  exists updates,
    updateRules Scenario.settledEnv Scenario.profile "source"
                [Scenario.settledDependency] false []
    = (Resolved tt, concat updates)
    /\ length updates = 1
    /\ forall i d,
         [Scenario.settledDependency] !! i = Some d ->
         exists m,
           dep_mod d = Some m
           /\ updates !! i
              = Some (ruleUpdate Scenario.settledEnv Scenario.profile "source"
                        false d m
                        (find (fun iter =>
                                 referenceEqual Scenario.settledEnv
                                   (rule_reference iter) (dep_reference d))
                              (rulesAt Scenario.settledEnv Scenario.profile
                                       "source"
                                       ([] ++ concat (take i updates))))).
Proof.
  apply (updateRules_rewrites Scenario.settledEnv Scenario.profile "source"
           false [Scenario.settledDependency] []).
  constructor; [discriminate|constructor].
Defined.

(** ** Installing without a game *)

Section NoGame.

Context (env : Env) (fuel : nat) (mI : list IModInstaller).

(** X24: an install for which no game is selected is canceled before
    anything is touched. When no game is forced and [queryGameId] resolves
    to [undefined], and the 'will-install-mod' handlers and the hashing of
    the archive settle, [install] asks nothing more: it creates no install
    context, touches no file and dispatches nothing; it hands the callback
    a [ProcessCanceled] ('You need to select a game before installing this
    mod') with a [null] id, and the promise of the queue resolves. *)
Theorem install_without_game a p h answer :
  let dismiss :=
    EvDismissNotification ("ready-to-install-" +:+ keyOfOpt (archiveId a)) in
  let baseName :=
    path_basename_ext env (archivePath a) (path_extname env (archivePath a)) in
  let args := [Some (profile_gameId p); archiveId a; Some baseName] in
  let asked :=
    [dismiss; EvQueryGameId; EvEmitAndAwait "will-install-mod" args] in
  forceGameId a = None ->
  active_profile (getState env h) = Some p ->
  queryGameId env (h ++ [dismiss]) (downloadGameIds a) baseName
  = Resolved None ->
  emitAndAwait env (h ++ [dismiss; EvQueryGameId]) "will-install-mod" args
  = Resolved answer ->
  genHash env (h ++ asked) (archivePath a) <> Pending ->
  fst (fst (install env fuel mI a h)) = Resolved tt
  /\ snd (install env fuel mI a h)
     = asked
       ++ EvGenHash (archivePath a)
       :: (if hasCallback a
           then [EvCallback
                   (newError ProcessCanceled
                      "You need to select a game before installing this mod")
                   None]
           else []).
Proof.
  intros dismiss baseName args asked Hforce Hprofile Hquery Hawait Hhash.
  enough (Hrun : exists v,
             install env fuel mI a h
             = ((Resolved tt, v),
                asked
                ++ EvGenHash (archivePath a)
                :: (if hasCallback a
                    then [EvCallback
                            (newError ProcessCanceled
                               "You need to select a game before installing this mod")
                            None]
                    else [])))
    by (destruct Hrun as (v & ->); split; reflexivity).
  unfold install. rewrite Hprofile. fold baseName. fold dismiss.
  unfold finallyI at 1, catchI at 1, thenI at 1, finallyI at 1.
  unfold installStages. rewrite Hforce.
  unfold thenI at 1, tapI at 1, thenI at 1, tapI at 1, thenI at 1.
  unfold thenI at 1, getV at 1, lift at 1, ask at 1.
  cbn [initialVars v_modId app]. rewrite app_nil_r.
  fold baseName. rewrite Hquery.
  unfold thenI at 1, thenI at 1, getV at 1, lift at 1, then_ at 1, ask at 1.
  change (v_modId (initialVars a baseName)) with baseName.
  cbn [app]. rewrite app_nil_r, <- app_assoc. cbn [app].
  fold args. rewrite Hawait.
  unfold ret at 1, retI at 1. cbn [app]. rewrite <- !app_assoc. cbn [app].
  unfold thenI at 1, catchI at 1, thenI at 1, lift at 1, ask at 1.
  unfold asked in *.
  destruct (genHash env _ (archivePath a)) as [hash|r|];
    [| |now contradiction Hhash];
    unfold setV, retI, rejectI, thenI, removeStaging, getV, handleFailure,
           stopInstallIndicator, lift, callback, cleanDestination, then_, ret,
           emit;
    cbn; destruct (hasCallback a); cbn; eexists; reflexivity.
Qed.

End NoGame.

Lemma install_without_game_witness :
  fst (fst (install Scenario.undecided 1 [] Scenario.fooArchive []))
  = Resolved tt
  /\ snd (install Scenario.undecided 1 [] Scenario.fooArchive [])
     = [EvDismissNotification "ready-to-install-dl1"; EvQueryGameId;
        EvEmitAndAwait "will-install-mod"
                       [Some "skyrim"; Some "dl1"; Some "Foo-1.0"];
        EvGenHash "/downloads/Foo-1.0.zip";
        EvCallback
          (newError ProcessCanceled
             "You need to select a game before installing this mod")
          None].
Proof.
  exact (install_without_game Scenario.undecided 1 [] Scenario.fooArchive
           Scenario.profile [] None eq_refl eq_refl eq_refl eq_refl
           ltac:(discriminate)).
Defined.

(** ** Failures that are not handed to the callback *)

Section SilentFailures.

Context (env : Env).

Lemma cleanDestination_no_callback d h error id :
  ~ In (EvCallback error id) (snd (cleanDestination env d h)).
Proof.
  unfold cleanDestination. destruct d as [d|]; [|intros []].
  unfold catch_, catchClass, catch_, askFs.
  destruct (fs env h (Remove d)) as [[]|r|]; cbn [snd isResolved].
  - intros [H|[]]; discriminate.
  - destruct (instanceOf r UserCanceled); cbn.
    + intros [H|[]]; discriminate.
    + destruct r; cbn; intros H; repeat destruct H as [H|H]; try discriminate;
        try contradiction.
  - intros [H|[]]; discriminate.
Qed.


End SilentFailures.


(** ** The destination of a transfer *)

Section FixDestination.

Context (env : Env).

(** X26: [fixDestination] never fails, and it changes the destination in
    one case only. It is never rejected: whatever [stat] rejects with, the
    destination is returned as it was given. When it resolves, the result
    is the destination joined with the base name of the source if the
    source is an existing file and the destination an existing directory,
    and the destination itself otherwise. It does nothing but the calls of
    [stat]. *)
Theorem fixDestination_result source destination h :
  let '(o, evs) := fixDestination env source destination h in
  (forall r, o <> Rejected r)
  /\ (forall fixedDest,
        o = Resolved fixedDest ->
        fixedDest
        = if fileIntoDirectory env source destination h
          then path_join env destination (path_basename env source)
          else destination)
  /\ Forall (fun ev => exists p ok, ev = EvFs (Stat p) ok) evs.
Proof.
  unfold fixDestination, fileIntoDirectory, catch_, then_, askStat, ret.
  destruct (fs_stat env h source) as [[|]|r|]; cbn [isResolved app].
  - split; [discriminate|]. split; [now intros ? [= <-]|].
    repeat constructor; eauto.
  - destruct (fs_stat env (h ++ [EvFs (Stat source) true]) destination)
      as [[|]|r|]; cbn [isResolved app];
      (split; [discriminate|]);
      (split; [intros ? [=]; subst; reflexivity|]);
      repeat constructor; eauto.
  - split; [discriminate|]. split; [now intros ? [= <-]|].
    repeat constructor; eauto.
  - split; [discriminate|]. split; [intros ? [=]|].
    repeat constructor; eauto.
Qed.

End FixDestination.

(** ** Runs of the properties above *)

Lemma installDependency_undownloadable_witness :
  installDependency Scenario.benign 1 [] Scenario.profile ∅
                    Scenario.lostDependency []
  = (Resolved None,
     [EvShowErrorNotification "Failed to install dependency"
                              failedDependencyHint (Some false)]).
Proof.
  exact (proj1 (installDependency_undownloadable Scenario.benign 1 []
                  Scenario.profile ∅ Scenario.lostDependency [])
               (or_introl eq_refl)).
Defined.


Lemma determineModType_first_match_witness :
  determineModType Scenario.typedEnv "skyrim" (InstrList []) []
  = (Resolved "high", [EvModTypeTest "never"; EvModTypeTest "high"]).
Proof.
  refine (proj1 (determineModType_first_match Scenario.typedEnv "skyrim"
                   (InstrList []) []
                   (fun ty => negb (String.eqb (typeId ty) "never")) _)).
  intros ty h' [<-|[<-|[<-|[]]]]; reflexivity.
Defined.


(** ** A damaged archive installed as a dependency *)

Lemma endsUncalled_thenI {A B} (Q : Outcome B -> Vars -> Prop) (p : MI A)
    (f : A -> MI B) v h x v' e :
  p v h = ((Resolved x, v'), e) ->
  Forall (fun e => isCallback e = false) e ->
  endsUncalled Q (f x) v' (h ++ e) ->
  endsUncalled Q (thenI p f) v h.
Proof.
  intros Hp He [HQ Hev]. unfold endsUncalled, thenI. rewrite Hp.
  destruct (f x v' (h ++ e)) as [[o v2] e2]. cbn [fst snd] in *.
  split; [exact HQ|]. apply Forall_app. now split.
Qed.

Lemma endsUncalled_rejected {A B} (Q : Outcome B -> Vars -> Prop) (p : MI A)
    (f : A -> MI B) v h r v' e :
  p v h = ((Rejected r, v'), e) ->
  Forall (fun e => isCallback e = false) e ->
  Q (Rejected r) v' ->
  endsUncalled Q (thenI p f) v h.
Proof.
  intros Hp He HQ. unfold endsUncalled, thenI. rewrite Hp. now split.
Qed.

Section BrokenArchive.

Context (env : Env) (fuel : nat) (mI : list IModInstaller) (a : InstallArgs)
        (p : IProfile) (gameId : string) (e : JsError)
        (answer : option (list string)) (metas : list IModInfoEx)
        (modInfo : ModInfo).

Let baseName : string :=
  path_basename_ext env (archivePath a) (path_extname env (archivePath a)).

Hypothesis Hforce : forceGameId a = None.
Hypothesis Hgame :
  forall h, queryGameId env h (downloadGameIds a) baseName
            = Resolved (Some gameId).
Hypothesis Hawait :
  forall h args, emitAndAwait env h "will-install-mod" args = Resolved answer.
Hypothesis Hhash : forall h, genHash env h (archivePath a) <> Pending.
Hypothesis Hmeta :
  forall h, lookupModMeta env h (archivePath a) = Resolved metas.
Hypothesis Hfree :
  forall h fi,
    checkModExists (deriveModInstallName env baseName fi) (getState env h)
                   gameId = false.
Hypothesis Hfilter :
  forall h fi d, filterModInfo env h fi d = Resolved modInfo.
Hypothesis Hnew : mi_fileId modInfo = Js.VUndefined.
Hypothesis Hext : hasArchiveExtension env (archivePath a) = true.
Hypothesis Hextract :
  forall h t, extractFull env h (archivePath a) t = Rejected (RejError e).
Hypothesis Hcrit : isCritical (err_message e) = true.
Hypothesis Hremove : forall h t, fs env h (Remove t) = Resolved tt.

Lemma installStages_broken_archive h :
  endsUncalled
    (fun o v =>
       o = Rejected (newArchiveBrokenError (err_message e))
       /\ v_installContext v = true
       /\ is_Some (v_tempPath v) /\ is_Some (v_destinationPath v))
    (installStages env fuel mI a (Some p) baseName)
    (initialVars a baseName) h.
Proof.
  unfold installStages. rewrite Hforce.
  match goal with
  | |- endsUncalled _ (thenI ?first _) _ _ =>
      assert (Hfirst : exists v' e1,
                 first (initialVars a baseName) h
                 = ((Resolved (Some gameId), v'), e1)
                 /\ Forall (fun e => isCallback e = false) e1)
  end.
  { unfold tapI.
    unfold thenI at 1, thenI at 1, thenI at 1, getV at 1, lift at 1, ask at 1.
    change (v_modId (initialVars a baseName)) with baseName.
    rewrite Hgame.
    unfold thenI at 1, thenI at 1, getV at 1, lift at 1, then_ at 1, ask at 1.
    rewrite Hawait. unfold ret at 1, retI at 1.
    unfold thenI at 1, catchI at 1, thenI at 1, lift at 1, ask at 1.
    pose proof (Hhash (h ++ ([] ++ [EvQueryGameId])
                         ++ ([] ++ [EvEmitAndAwait "will-install-mod"
                                      [Some (profile_gameId p); archiveId a;
                                       Some baseName]] ++ []) ++ [])) as Hh.
    destruct (genHash env _ (archivePath a)) as [hash|r|];
      [| |now contradiction Hh];
      unfold setV, retI; cbn [app]; do 2 eexists;
      (split; [reflexivity|repeat constructor]). }
  destruct Hfirst as (v' & e1 & Hfirst & He1).
  eapply endsUncalled_thenI; [exact Hfirst|exact He1|].
  eapply endsUncalled_thenI; [reflexivity|constructor|].
  eapply endsUncalled_thenI; [reflexivity|constructor|].
  eapply endsUncalled_thenI;
    [unfold lift, then_, emit, ask; rewrite Hmeta; reflexivity
    |repeat constructor|].
  eapply endsUncalled_thenI; [reflexivity|constructor|].
  eapply endsUncalled_thenI; [reflexivity|constructor|].
  eapply endsUncalled_thenI;
    [destruct fuel; cbn [checkNameLoop v_modId set_modId]; rewrite Hfree;
     reflexivity
    |constructor|].
  eapply endsUncalled_thenI; [reflexivity|constructor|].
  eapply endsUncalled_thenI; [reflexivity|constructor|].
  eapply endsUncalled_thenI;
    [unfold lift, ask; rewrite Hfilter; reflexivity|repeat constructor|].
  eapply endsUncalled_thenI;
    [unfold versionChoice; rewrite Hnew; reflexivity|constructor|].
  eapply endsUncalled_thenI; [reflexivity|constructor|].
  cbv zeta.
  eapply endsUncalled_thenI; [reflexivity|repeat constructor|].
  eapply endsUncalled_thenI; [reflexivity|constructor|].
  eapply endsUncalled_thenI; [reflexivity|repeat constructor|].
  eapply endsUncalled_thenI; [reflexivity|constructor|].
  eapply endsUncalled_rejected.
  - unfold lift, installInner, extractStage, catchClass, then_, catch_, ask.
    rewrite Hextract. cbn -[existsb archiveExtLookup isCritical].
    rewrite Hcrit. cbn -[existsb archiveExtLookup isCritical].
    unfold hasArchiveExtension in Hext. rewrite Hext. reflexivity.
  - repeat constructor.
  - cbn. repeat split; eauto. now destruct metas.
Qed.

Lemma install_broken_archive h :
  active_profile (getState env h) = Some p ->
  exists v evs,
    install env fuel mI a h = ((Resolved tt, v), evs)
    /\ Forall (fun e => isCallback e = false) evs
    /\ In (EvCtx (reportError "Installation failed" (Some false))) evs.
Proof.
  intros Hprofile. unfold install. rewrite Hprofile. fold baseName.
  match goal with
  | |- context [EvDismissNotification ?n] =>
      set (dismiss := EvDismissNotification n)
  end.
  destruct (installStages_broken_archive (h ++ [dismiss]))
    as [(Ho & Hctx & [t Ht] & [d Hd]) Hev].
  unfold finallyI at 1, catchI at 1, thenI at 1, finallyI at 1.
  destruct (installStages env fuel mI a (Some p) baseName
              (initialVars a baseName) (h ++ [dismiss])) as [[o v1] e1].
  cbn [fst snd] in Ho, Hctx, Ht, Hd, Hev. subst o.
  rewrite removeStaging_eq, Ht, Hremove. cbn [isResolved].
  assert (Hc : isCanceled (newArchiveBrokenError (err_message e)) = false)
    by reflexivity.
  assert (Hfail :
    handleFailure env a (newArchiveBrokenError (err_message e)) v1
      ((h ++ [dismiss]) ++ e1 ++ [EvFs (Remove t) true])
    = ((Resolved tt, v1),
       [EvFs (Remove d) true; EvCtx (finishInstallCB "failed");
        EvCtx (reportError "Installation failed" (Some false))])).
  { unfold handleFailure. rewrite thenI_getV. rewrite Hc.
    unfold newArchiveBrokenError, newError.
    cbn [instanceOf err_class ErrorClass_eqb].
    rewrite Hd, Hctx.
    unfold lift, then_, cleanDestination, catch_, catchClass, catch_, askFs,
           emit.
    rewrite Hremove. reflexivity. }
  rewrite Hfail. rewrite stopInstallIndicator_eq, Hctx.
  do 2 eexists. split; [reflexivity|]. split.
  - constructor; [reflexivity|].
    repeat (apply Forall_app; split); try exact Hev; repeat constructor.
  - right. rewrite !in_app_iff. cbn. tauto.
Qed.

End BrokenArchive.

Lemma firstCallback_uncalled evs :
  Forall (fun e => isCallback e = false) evs -> firstCallback evs = None.
Proof.
  induction 1 as [|ev evs Hev _ IH]; [reflexivity|].
  destruct ev; try exact IH. discriminate.
Qed.


